(** * go-lru: a sharded LRU cache with sliding TTL

    Shallow embedding of [lru.go] and [shard.go], and the properties of the
    cache engine stated over it.

    Modelling conventions.
    - [time.Time] and [time.Duration] are integers (nanoseconds); the clock
      reading that [genExp] takes with [time.Now()] is the argument [now] of
      every operation that calls [genExp].
    - A [*Entry] is an address [ptr] into the store [heap] of the cache, so
      that writes through one pointer are seen through every alias.  A
      [*list.Element] is identified with the [*Entry] it carries: [el.Value]
      is assigned once in [add] and the element leaves the list in [remove];
      the per-shard element pool only recycles the wrappers.  This holds
      as long as the index has no entry under a key other than its own,
      that is as long as the callbacks of [Update] keep the key of their
      entry; the properties over runs of calls are stated for such runs.
    - A run-time panic of the Go program is the result [Panic].
    - The shard locks and the hash-state pool have no sequential effect and
      are left out. *)

From stdpp Require Import gmap strings list fin_maps.

Open Scope Z_scope.

(** ** Results of operations that may panic *)

Inductive runtime_error : Type :=
  | NilDereference
  | DivideByZero
  | IndexOutOfRange
  | MakeLenOutOfRange.

Inductive result (A : Type) : Type :=
  | Ok (a : A)
  | Panic (e : runtime_error).
Arguments Ok {A} a.
Arguments Panic {A} e.

#[global] Instance result_ret : MRet result := λ A a, Ok a.
#[global] Instance result_bind : MBind result := λ A B f m,
  match m with
  | Ok a => f a
  | Panic e => Panic e
  end.
#[global] Instance result_fmap : FMap result := λ A B f m,
  match m with
  | Ok a => Ok (f a)
  | Panic e => Panic e
  end.

(** ** The 32-bit FNV-1 hash used by the router ([fnv.New32]) *)

Module Fnv.

Definition offset32 : Z := 2166136261.
Definition prime32 : Z := 16777619.

Definition step (h : Z) (a : Ascii.ascii) : Z :=
  Z.lxor ((h * prime32) mod 2 ^ 32) (Z.of_N (Ascii.N_of_ascii a)).

Fixpoint write (h : Z) (s : string) : Z :=
  match s with
  | EmptyString => h
  | String a s' => write (step h a) s'
  end.

Definition sum32 (s : string) : Z := write offset32 s.

End Fnv.

(** ** The recency list *)

(** Addresses of entries. *)
Abbreviation ptr := nat.

(** Modelled from the spec: the package [go-lru/list] (a doubly linked list
    with [PushFrontElement]) is not among the sources.  The spec describes
    it as a list ordered by recency, front = most recently used, back =
    least; the head of the Rocq list is the front.  As in [container/list],
    [Remove] and [MoveToFront] leave the list alone when the element is not
    in it. *)
Module List_.

Definition PushFrontElement (el : ptr) (l : list ptr) : list ptr := el :: l.

Definition Back (l : list ptr) : option ptr := last l.

Fixpoint Remove (el : ptr) (l : list ptr) : list ptr :=
  match l with
  | [] => []
  | x :: l' => if decide (x = el) then l' else x :: Remove el l'
  end.

Definition MoveToFront (el : ptr) (l : list ptr) : list ptr :=
  if decide (el ∈ l) then el :: Remove el l else l.

Definition Len (l : list ptr) : Z := Z.of_nat (length l).

End List_.

Section Cache.

(** The dynamic type behind [interface{}]; [None] is the nil interface. *)
Context {V : Type}.

Definition NoExpiration : Z := 0.
Definition SHARD_SIZE_DEFAULT : Z := 64.

(** [type Entry struct], with a [*time.Time] for [Expiration]: [None] is the
    nil pointer, an entry without deadline. *)
Record Entry : Type := mkEntry {
  Key : string;
  Value : option V;
  Expiration : option Z
}.

(** [&Entry{}] *)
Definition zeroEntry : Entry := mkEntry "" None None.

#[global] Instance Entry_inhabited : Inhabited Entry := populate zeroEntry.

Definition setValue (v : option V) (e : Entry) : Entry :=
  mkEntry (Key e) v (Expiration e).
Definition setExpiration (x : option Z) (e : Entry) : Entry :=
  mkEntry (Key e) (Value e) x.

(** [type Callback func(entry *Entry)]: what the call does to the entry it
    is handed. *)
Definition Callback : Type := Entry → Entry.

(** *** The state of the cache

    The fields of [LRU], and the part of the Go heap the cache works on:
    [entryPool] is the [sync.Pool] of entries (last put, first taken),
    [heap] the store of all entries, [brk] the next unused address, and
    [fired] the entries the hook [OnRemove] has been called with, in call
    order, each as it was when the hook received it.  A [*lruShard] is
    the index of the shard in [shards]. *)

Record lruShard : Type := mkShard {
  lst : list ptr;
  table : gmap string ptr
}.

Definition newShard : lruShard := mkShard [] ∅.

#[global] Instance lruShard_inhabited : Inhabited lruShard := populate newShard.

Record LRU : Type := mkLRU {
  TTL : Z;
  OnRemove : option Callback;
  shards : list lruShard;
  shardSize : Z;
  eps : Z;
  entryPool : list ptr;
  heap : gmap ptr Entry;
  brk : ptr;
  fired : list Entry
}.

Definition withOnRemove (cb : option Callback) (c : LRU) : LRU :=
  mkLRU (TTL c) cb (shards c) (shardSize c) (eps c)
        (entryPool c) (heap c) (brk c) (fired c).
Definition withShards (ss : list lruShard) (c : LRU) : LRU :=
  mkLRU (TTL c) (OnRemove c) ss (shardSize c) (eps c)
        (entryPool c) (heap c) (brk c) (fired c).
Definition withPool (pool : list ptr) (c : LRU) : LRU :=
  mkLRU (TTL c) (OnRemove c) (shards c) (shardSize c) (eps c)
        pool (heap c) (brk c) (fired c).
Definition withHeap (h : gmap ptr Entry) (c : LRU) : LRU :=
  mkLRU (TTL c) (OnRemove c) (shards c) (shardSize c) (eps c)
        (entryPool c) h (brk c) (fired c).
Definition withFired (log : list Entry) (c : LRU) : LRU :=
  mkLRU (TTL c) (OnRemove c) (shards c) (shardSize c) (eps c)
        (entryPool c) (heap c) (brk c) log.

(** The entry at [p]. *)
Definition entryAt (c : LRU) (p : ptr) : Entry := heap c !!! p.

(** An assignment through the pointer [p]: the entry becomes [f] of itself. *)
Definition poke (p : ptr) (f : Entry → Entry) (c : LRU) : LRU :=
  withHeap (<[p := f (entryAt c p)]> (heap c)) c.

(** A new object holding [e]. *)
Definition alloc (e : Entry) (c : LRU) : LRU * ptr :=
  (mkLRU (TTL c) (OnRemove c) (shards c) (shardSize c) (eps c)
         (entryPool c) (<[brk c := e]> (heap c)) (S (brk c)) (fired c),
   brk c).

(** [c.entryPool.Get()], with [New] returning [&Entry{}]. *)
Definition entryPool_Get (c : LRU) : LRU * ptr :=
  match entryPool c with
  | p :: pool => (withPool pool c, p)
  | [] => alloc zeroEntry c
  end.

Definition entryPool_Put (p : ptr) (c : LRU) : LRU :=
  withPool (p :: entryPool c) c.

(** The shard behind a shard pointer, and an assignment through it. *)
Definition shardOf (c : LRU) (shard : nat) : lruShard := shards c !!! shard.

Definition setShard (shard : nat) (s : lruShard) (c : LRU) : LRU :=
  withShards (<[shard := s]> (shards c)) c.

(** *** shard.go *)

Definition lruShard_add (c : LRU) (s : nat) (entry : ptr) : LRU :=
  setShard s (mkShard (List_.PushFrontElement entry (lst (shardOf c s)))
                      (<[Key (entryAt c entry) := entry]> (table (shardOf c s)))) c.

Definition lruShard_get (c : LRU) (s : nat) (key : string) : option ptr :=
  table (shardOf c s) !! key.

Definition lruShard_putIfAbsent (c : LRU) (s : nat) (entry : ptr) : LRU :=
  match table (shardOf c s) !! Key (entryAt c entry) with
  | Some _ => c
  | None => lruShard_add c s entry
  end.

Definition lruShard_oldest (c : LRU) (s : nat) : option ptr :=
  List_.Back (lst (shardOf c s)).

Definition lruShard_remove (c : LRU) (s : nat) (el : ptr) : LRU :=
  setShard s (mkShard (List_.Remove el (lst (shardOf c s)))
                      (delete (Key (entryAt c el)) (table (shardOf c s)))) c.

Definition lruShard_offer (c : LRU) (s : nat) (el : ptr) : LRU :=
  setShard s (mkShard (List_.MoveToFront el (lst (shardOf c s)))
                      (table (shardOf c s))) c.

Definition lruShard_len (c : LRU) (s : nat) : Z :=
  List_.Len (lst (shardOf c s)).

(** *** lru.go *)

(** [c.shards[i]], bounds-checked. *)
Definition shardAt (c : LRU) (i : nat) : result nat :=
  if decide (i < length (shards c))%nat then Ok i else Panic IndexOutOfRange.

(** [uint(x)] on a 64-bit platform. *)
Definition uint (x : Z) : Z := x mod 2 ^ 64.

(** [make([]*lruShard, shardSize, shardSize)] panics on a negative length.
    The limit the runtime puts on the length from above (the allocation
    limit of the platform) is left out: that [NewLRU] returns is stated
    for shard counts far below it. *)
Definition NewLRU (entrySize shardSize ttl : Z) : result LRU :=
  let shardSize := if decide (entrySize < 128) then 1 else shardSize in
  if decide (shardSize = 0) then Panic DivideByZero else
  let eps := Z.quot entrySize shardSize in
  let eps := if decide (Z.rem entrySize shardSize > 0) then eps + 1 else eps in
  if decide (shardSize < 0) then Panic MakeLenOutOfRange else
  Ok (mkLRU ttl None (replicate (Z.to_nat shardSize) newShard) shardSize eps
            [] ∅ 0%nat []).

Definition New (entrySize : Z) : result LRU :=
  NewLRU entrySize SHARD_SIZE_DEFAULT NoExpiration.

(** [uint(hasher.Sum32()) % uint(c.shardSize)] *)
Definition hashIndex (c : LRU) (key : string) : nat :=
  Z.to_nat (uint (Fnv.sum32 key) mod uint (shardSize c)).

Definition getShard (c : LRU) (key : string) : result nat :=
  if decide (uint (shardSize c) = 0) then Panic DivideByZero else
  shardAt c (hashIndex c key).

Definition genExp (now : Z) (ttl : Z) : Z * option Z :=
  (now, if decide (ttl ≠ NoExpiration) then Some (now + ttl) else None).

(** [c.OnRemove(entry)], when a hook is set. *)
Definition callOnRemove (c : LRU) (entry : ptr) : LRU :=
  match OnRemove c with
  | Some hook => poke entry hook (withFired (fired c ++ [entryAt c entry]) c)
  | None => c
  end.

Definition remove (c : LRU) (shard : nat) (el : ptr) : LRU :=
  let c := lruShard_remove c shard el in
  let entry := el in
  let c := callOnRemove c entry in
  let c := poke entry (setExpiration None) c in
  entryPool_Put entry c.

(** [t.Before(now)] through a [*time.Time]. *)
Definition Before (t : option Z) (now : Z) : result bool :=
  match t with
  | Some d => Ok (bool_decide (d < now))
  | None => Panic NilDereference
  end.

(** The result [(entry, found)] is [Some entry] for [(entry, true)] and
    [None] for [(nil, false)]. *)
Definition getEntry (c : LRU) (shard : nat) (key : string) (now : Z)
    (exp : option Z) : result (LRU * option ptr) :=
  match lruShard_get c shard key with
  | None => Ok (c, None)
  | Some el =>
      let entry := el in
      expired ← (if decide (TTL c ≠ NoExpiration)
                 then Before (Expiration (entryAt c entry)) now
                 else Ok false);
      if expired : bool then Ok (remove c shard el, None)
      else
        let c := poke entry (setExpiration exp) c in
        Ok (lruShard_offer c shard el, Some entry)
  end.

Definition SetWithTTL (c : LRU) (key : string) (value : option V) (ttl : Z)
    (clock : Z) : result LRU :=
  let '(now, exp) := genExp clock ttl in
  shard ← getShard c key;
  '(c, found) ← getEntry c shard key now exp;
  match found with
  | Some entry => Ok (poke entry (setValue value) c)
  | None =>
      let '(c, entry) := entryPool_Get c in
      let c := poke entry (λ e, mkEntry key (Value e) (Expiration e)) c in
      let c := poke entry (setValue value) c in
      let c := if decide (ttl ≠ NoExpiration)
               then poke entry (setExpiration exp) c else c in
      let c := lruShard_add c shard entry in
      if decide (lruShard_len c shard > eps c) then
        match lruShard_oldest c shard with
        | Some el => Ok (remove c shard el)
        | None => Panic NilDereference
        end
      else Ok c
  end.

Definition Set_ (c : LRU) (key : string) (value : option V) (clock : Z) : result LRU :=
  SetWithTTL c key value (TTL c) clock.

Definition Get (c : LRU) (key : string) (clock : Z)
    : result (LRU * (option V * bool)) :=
  let '(now, exp) := genExp clock (TTL c) in
  shard ← getShard c key;
  '(c, found) ← getEntry c shard key now exp;
  match found with
  | Some entry => Ok (c, (Value (entryAt c entry), true))
  | None => Ok (c, (None, false))
  end.

Definition GetEntry (c : LRU) (key : string) (clock : Z)
    : result (LRU * option ptr) :=
  let '(now, exp) := genExp clock (TTL c) in
  shard ← getShard c key;
  getEntry c shard key now exp.

Definition Update (c : LRU) (key : string) (cb : Callback) (clock : Z)
    : result (LRU * option ptr) :=
  let '(now, exp) := genExp clock (TTL c) in
  shard ← getShard c key;
  '(c, found) ← getEntry c shard key now exp;
  match found with
  | Some entry => Ok (poke entry cb c, found)
  | None => Ok (c, found)
  end.

Definition Remove (c : LRU) (key : string) : result LRU :=
  shard ← getShard c key;
  match lruShard_get c shard key with
  | Some el => Ok (remove c shard el)
  | None => Ok c
  end.

(** [for i := 0; i < c.shardSize; i++ { ... }] from [i] on, with [n] rounds
    to go and [len] counted so far. *)
Fixpoint Len_from (c : LRU) (n i : nat) (len : Z) : result Z :=
  match n with
  | O => Ok len
  | S n' =>
      shard ← shardAt c i;
      Len_from c n' (S i) (len + lruShard_len c shard)
  end.

Definition Len (c : LRU) : result Z :=
  Len_from c (Z.to_nat (shardSize c)) 0%nat 0.

Fixpoint Flush_from (c : LRU) (n i : nat) : result LRU :=
  match n with
  | O => Ok c
  | S n' =>
      shard ← shardAt c i;
      let oldLst := lst (shardOf c shard) in
      let c := setShard shard newShard c in
      Flush_from (foldl callOnRemove c oldLst) n' (S i)
  end.

Definition Flush (c : LRU) : result LRU :=
  Flush_from c (Z.to_nat (shardSize c)) 0%nat.

(** Modelled from the spec: the record codec ([encoding/gob]) is an
    external collaborator that yields one record per entry and signals
    the end of the stream distinctly from a decode error.  A reader is
    the sequence of the results of its [Decode] calls; the end of the
    list is [io.EOF]. *)
Inductive decoded : Type :=
  | Record_ (e : Entry)
  | DecodeFailure.

(** The boolean is [err != nil]. *)
Fixpoint Load (c : LRU) (r : list decoded) : result (LRU * bool) :=
  match r with
  | [] => Ok (c, false)
  | DecodeFailure :: _ => Ok (c, true)
  | Record_ e :: r' =>
      let '(c, entry) := alloc e c in
      shard ← getShard c (Key (entryAt c entry));
      Load (lruShard_putIfAbsent c shard entry) r'
  end.

(** *** SetOrUpdate *)

(** Modelled from the spec: [SetOrUpdate] is called by the tests but its
    body is not among the sources.  The spec: if the key exists, apply
    [fn] to its current entry (as in [Update]); otherwise insert [value]
    verbatim via the normal write path; return whether the key existed
    beforehand. *)
Definition SetOrUpdate (c : LRU) (key : string) (value : option V)
    (fn : Callback) (clock : Z) : result (LRU * bool) :=
  '(c, found) ← Update c key fn clock;
  match found with
  | Some _ => Ok (c, true)
  | None => (c ← Set_ c key value clock; Ok (c, false))
  end.

(** The miss branch of [SetWithTTL] up to the capacity check: an entry is
    taken from the pool, filled and attached to the shard. *)
Definition inserted (c : LRU) (shard : nat) (key : string) (value : option V)
    (ttl : Z) (exp : option Z) : LRU * ptr :=
  let '(c, entry) := entryPool_Get c in
  let c := poke entry (λ e, mkEntry key (Value e) (Expiration e)) c in
  let c := poke entry (setValue value) c in
  let c := if decide (ttl ≠ NoExpiration)
           then poke entry (setExpiration exp) c else c in
  (lruShard_add c shard entry, entry).

(** The capacity check that follows. *)
Definition enforce (c : LRU) (shard : nat) : result LRU :=
  if decide (lruShard_len c shard > eps c) then
    match lruShard_oldest c shard with
    | Some el => Ok (remove c shard el)
    | None => Panic NilDereference
    end
  else Ok c.

(** *** Clients

    A client calls keyed operations one after the other and drops their
    results. *)
Inductive call : Type :=
  | CallGet (key : string) (clock : Z)
  | CallGetEntry (key : string) (clock : Z)
  | CallSet (key : string) (value : option V) (clock : Z)
  | CallSetWithTTL (key : string) (value : option V) (ttl clock : Z)
  | CallUpdate (key : string) (cb : Callback) (clock : Z)
  | CallRemove (key : string).

Definition callKey (o : call) : string :=
  match o with
  | CallGet k _ | CallGetEntry k _ | CallSet k _ _
  | CallSetWithTTL k _ _ _ | CallUpdate k _ _ | CallRemove k => k
  end.

(** The callback of an [Update] leaves the key of the entry as it is. *)
Definition keepsKey (o : call) : Prop :=
  match o with
  | CallUpdate _ cb _ => ∀ e, Key (cb e) = Key e
  | _ => True
  end.

Definition exec (c : LRU) (o : call) : result LRU :=
  match o with
  | CallGet k t => fst <$> Get c k t
  | CallGetEntry k t => fst <$> GetEntry c k t
  | CallSet k v t => Set_ c k v t
  | CallSetWithTTL k v ttl t => SetWithTTL c k v ttl t
  | CallUpdate k cb t => fst <$> Update c k cb t
  | CallRemove k => Remove c k
  end.

Fixpoint execs (c : LRU) (os : list call) : result LRU :=
  match os with
  | [] => Ok c
  | o :: os' => c ← exec c o; execs c os'
  end.

(** The index entry of [k] in the shard [k] is routed to. *)
Definition slot (c : LRU) (k : string) : option ptr :=
  lruShard_get c (hashIndex c k) k.

(** *** Well-formed cache states *)

(** The elements of shard [i] are distinct, the index holds exactly the
    keys of the listed entries, every listed entry is routed to [i], and
    none of them is in the entry pool or beyond the allocation mark. *)
Record shardInv (c : LRU) (i : nat) (s : lruShard) : Prop := mkShardInv {
  lst_NoDup : NoDup (lst s);
  table_lst : ∀ k p,
    table s !! k = Some p ↔ (p ∈ lst s) ∧ Key (entryAt c p) = k;
  lst_route : ∀ p, p ∈ lst s → hashIndex c (Key (entryAt c p)) = i;
  lst_owned : ∀ p, p ∈ lst s → (p ∉ entryPool c) ∧ (p < brk c)%nat
}.

Record Inv (c : LRU) : Prop := mkInv {
  Inv_shardSize : 0 < shardSize c < 2 ^ 63;
  Inv_length : length (shards c) = Z.to_nat (shardSize c);
  Inv_shard : ∀ i s, shards c !! i = Some s → shardInv c i s;
  Inv_pool_NoDup : NoDup (entryPool c);
  Inv_pool : ∀ p, p ∈ entryPool c →
               (p < brk c)%nat ∧ Expiration (entryAt c p) = None
}.

(** Every shard holds at most [eps] entries. *)
Definition bounded (c : LRU) : Prop :=
  ∀ i s, shards c !! i = Some s → List_.Len (lst s) ≤ eps c.

(** The calls of the removal hook on the entries [es], if a hook is set. *)
Definition hookCalls (c : LRU) (es : list Entry) : list Entry :=
  match OnRemove c with
  | Some _ => es
  | None => []
  end.

(** The state after a successful lookup of [p] in shard [i]. *)
Definition looked_up (c : LRU) (i : nat) (p : ptr) (exp : option Z) : LRU :=
  lruShard_offer (poke p (setExpiration exp) c) i p.

(** A lookup of [k] does not meet an entry without deadline under a
    default TTL. *)
Definition lookup_safe (c : LRU) (k : string) : Prop :=
  TTL c = NoExpiration ∨
  ∀ i p, getShard c k = Ok i → lruShard_get c i k = Some p →
         Expiration (entryAt c p) ≠ None.

(** The entries the cache holds, shard by shard, each shard from the
    front of its list to the back. *)
Definition stored (c : LRU) : list ptr := mjoin (lst <$> shards c).

(** The expiration check of [getEntry] lets the entry at [p] pass. *)
Definition live (c : LRU) (p : ptr) (now : Z) : Prop :=
  TTL c = NoExpiration ∨
  ∃ d, Expiration (entryAt c p) = Some d ∧ ¬ d < now.

(** [p] is in no shard and not in the pool. *)
Definition free (c : LRU) (p : ptr) : Prop :=
  (p ∉ entryPool c) ∧ ∀ i s, shards c !! i = Some s → p ∉ lst s.

(** The fields fixed at construction, the hook and the number of shards. *)
Definition same_config (c c' : LRU) : Prop :=
  TTL c' = TTL c ∧ OnRemove c' = OnRemove c ∧
  shardSize c' = shardSize c ∧ eps c' = eps c ∧
  length (shards c') = length (shards c).

(** From [c] to [c'] the key [k] either stays bound to the same entry, which
    is not written to, or leaves the index; it does not enter it. *)
Definition keeps (k : string) (c c' : LRU) : Prop :=
  same_config c c'
  ∧ (∀ p, slot c k = Some p →
          (slot c' k = Some p ∧ entryAt c' p = entryAt c p) ∨ slot c' k = None)
  ∧ (slot c k = None → slot c' k = None).

(** *** Keys, Iter, Save and NewWithReader *)

(** [for key := range shard.table]: the keys of the map, each once, in an
    order the runtime picks. *)
Definition ranges (m : gmap string ptr) (ks : list string) : Prop :=
  ks ≡ₚ (map_to_list m).*1.

(** [Keys] from shard [i] on, with [n] rounds to go and [keys] appended so
    far, returns [out]. *)
Fixpoint Keys_from (c : LRU) (n i : nat) (keys out : list string) : Prop :=
  match n with
  | O => out = keys
  | S n' =>
      ∃ ks, shardAt c i = Ok i
            ∧ ranges (table (shardOf c i)) ks
            ∧ Keys_from c n' (S i) (keys ++ ks) out
  end.

Definition Keys (c : LRU) (out : list string) : Prop :=
  Keys_from c (Z.to_nat (shardSize c)) 0%nat [] out.

(** Modelled from the spec: [Prev] of the list package is not among the
    sources; by the spec the traversal goes from the oldest entry of a
    shard to its newest, so the walk from [oldest()] by [Prev()] visits
    the list from the back to the front. *)
Definition walkFromOldest (l : list ptr) : list ptr := reverse l.

(** The entries [Iter] sends on its channel, in order, from shard [i] on. *)
Fixpoint Iter_from (c : LRU) (n i : nat) (sent : list ptr) : result (list ptr) :=
  match n with
  | O => Ok sent
  | S n' =>
      shard ← shardAt c i;
      Iter_from c n' (S i) (sent ++ walkFromOldest (lst (shardOf c shard)))
  end.

Definition Iter (c : LRU) : result (list ptr) :=
  Iter_from c (Z.to_nat (shardSize c)) 0%nat [].

(** Modelled from the spec: the record codec is external; [encodes e] says
    that [gob.Register] and [Encode] succeed on [e], and a record that was
    encoded decodes to the same entry.  The result of the loop of [Save] is
    the stream written when [Save] returns nil, and [None] when it returns
    an error. *)
Fixpoint Save_loop (encodes : Entry → bool) (c : LRU) (entries : list ptr)
    (w : list decoded) : option (list decoded) :=
  match entries with
  | [] => Some w
  | entry :: rest =>
      if encodes (entryAt c entry)
      then Save_loop encodes c rest (w ++ [Record_ (entryAt c entry)])
      else None
  end.

Definition Save (encodes : Entry → bool) (c : LRU)
    : result (option (list decoded)) :=
  entries ← Iter c;
  Ok (Save_loop encodes c entries []).

Definition NewWithReader (entrySize shardSize ttl : Z) (r : list decoded)
    : result (LRU * bool) :=
  c ← NewLRU entrySize shardSize ttl;
  Load c r.

(** The first record of the stream with key [k], if [Load] gets to it. *)
Fixpoint firstRecord (k : string) (r : list decoded) : option Entry :=
  match r with
  | [] => None
  | DecodeFailure :: _ => None
  | Record_ e :: r' => if decide (Key e = k) then Some e else firstRecord k r'
  end.

(** The entries of shard [i], from the front of its list to the back. *)
Definition content (c : LRU) (i : nat) : list Entry :=
  entryAt c <$> lst (shardOf c i).

End Cache.

(** ** Example caches, with integer values *)

(** [NewLRU(1, 1, ttl)]: one shard, room for one entry. *)
Definition empty1 (ttl : Z) : @LRU Z :=
  mkLRU ttl None [newShard] 1 1 [] ∅ 0%nat [].

Definition orElse {A : Type} (r : result A) (d : A) : A :=
  match r with
  | Ok a => a
  | Panic _ => d
  end.

(** [NewLRU(2, 1, NoExpiration)]: one shard, room for two entries. *)
Definition empty2 : @LRU Z :=
  mkLRU NoExpiration None [newShard] 1 2 [] ∅ 0%nat [].

(** No default TTL, a hook that leaves the entry alone, and [Set("a", 1)]. *)
Definition cacheA : @LRU Z :=
  Eval vm_compute in
    orElse (Set_ (withOnRemove (Some id) (empty1 0)) "a" (Some 1) 10) (empty1 0).

(** A default TTL of 100 and [Set("key", 1)] at time 0. *)
Definition cacheT : @LRU Z :=
  Eval vm_compute in orElse (Set_ (empty1 100) "key" (Some 1) 0) (empty1 100).

(** A default TTL of 100 and [SetWithTTL("key1", 2, NoExpiration)]. *)
Definition cacheN : @LRU Z :=
  Eval vm_compute in
    orElse (SetWithTTL (empty1 100) "key1" (Some 2) NoExpiration 0) (empty1 100).

(** No TTL, room for two entries, [Set("a", 1)] and then [Set("b", 2)]. *)
Definition cacheA2 : @LRU Z :=
  Eval vm_compute in orElse (Set_ empty2 "a" (Some 1) 10) empty2.

Definition cacheAB : @LRU Z :=
  Eval vm_compute in orElse (Set_ cacheA2 "b" (Some 2) 20) cacheA2.

(** No default TTL, and [SetWithTTL("a", 1, 100)] at time 0: the entry has
    the deadline 100. *)
Definition cacheD : @LRU Z :=
  Eval vm_compute in
    orElse (SetWithTTL (empty1 0) "a" (Some 1) 100 0) (empty1 0).

(** The callback of the tests: [entry.Value = entry.Value.(int) + 1]. *)
Definition Inc (e : @Entry Z) : @Entry Z :=
  mkEntry (Key e) (Z.succ <$> Value e) (Expiration e).

(** The tests of the repository as runs of the model; the clock readings
    stand for the sleeps. *)
Definition TestEvict_run : result (list (option Z) * (option Z * bool)) :=
  c1 ← Set_ (withOnRemove (Some id) (empty1 0)) "key" (Some 1) 0;
  c2 ← Remove c1 "key";
  '(_, r) ← Get c2 "key" 1;
  Ok (Value <$> fired c2, r).

Definition TestUpdate_run
  : result (option Z * bool * (option Z * bool) * bool * (option Z * bool)) :=
  c ← Set_ (empty1 0) "key" (Some 1) 0;
  '(c, e) ← Update c "key" Inc 1;
  let v1 := match e with Some p => Value (entryAt c p) | None => None end in
  '(c, found1) ← SetOrUpdate c "newKey" (Some 3) Inc 2;
  '(c, r1) ← Get c "newKey" 3;
  '(c, found2) ← SetOrUpdate c "newKey" (Some 3) Inc 4;
  '(c, r2) ← Get c "newKey" 5;
  Ok (v1, found1, r1, found2, r2).

Definition TestTTL_run : result ((option Z * bool) * (option Z * bool)) :=
  c ← Set_ (empty1 100) "key" (Some 1) 0;
  '(c, r1) ← Get c "key" 101;
  c ← SetWithTTL c "key1" (Some 2) NoExpiration 102;
  '(c, r2) ← Get c "key1" 202;
  Ok (r1, r2).

(** * Properties *)

(** ** The recency list *)

Lemma Remove_length_le el l : (length (List_.Remove el l) ≤ length l)%nat.
Proof.
  induction l as [|x l IH]; simpl; [lia|].
  case_decide; simpl; lia.
Qed.

Lemma Remove_length el l :
  el ∈ l → S (length (List_.Remove el l)) = length l.
Proof.
  induction l as [|x l IH]; simpl; intros Hel.
  - by apply elem_of_nil in Hel.
  - case_decide as Hx; [done|]. simpl. f_equal. apply IH.
    apply elem_of_cons in Hel as [->|]; [done|assumption].
Qed.

Lemma elem_of_Remove_1 q el l : q ∈ List_.Remove el l → q ∈ l.
Proof.
  induction l as [|x l IH]; simpl; [done|].
  case_decide; rewrite ?elem_of_cons; intuition.
Qed.

Lemma elem_of_Remove q el l :
  NoDup l → q ∈ List_.Remove el l ↔ (q ∈ l) ∧ q ≠ el.
Proof.
  induction l as [|x l IH]; simpl; intros Hnd.
  - split; [by intros ?%elem_of_nil | by intros [?%elem_of_nil _]].
  - apply NoDup_cons in Hnd as [Hx Hnd].
    case_decide as Heq.
    + subst x. rewrite elem_of_cons. split.
      * intros Hq. split; [by right|]. by intros ->.
      * intros [[->|Hq] Hne]; done.
    + rewrite !elem_of_cons, IH by done. split.
      * intros [->|[Hq Hne]]; auto.
      * intros [[->|Hq] Hne]; auto.
Qed.

Lemma elem_of_Remove_ne q el l : q ∈ l → q ≠ el → q ∈ List_.Remove el l.
Proof.
  induction l as [|x l IH]; simpl; [done|].
  intros Hq Hne. apply elem_of_cons in Hq as [->|Hq].
  - case_decide; [done|]. by left.
  - case_decide; [done|]. right. by apply IH.
Qed.

Lemma NoDup_Remove el l : NoDup l → NoDup (List_.Remove el l).
Proof.
  induction l as [|x l IH]; simpl; [done|].
  intros [Hx Hnd]%NoDup_cons. case_decide; [done|].
  apply NoDup_cons. split; [|by apply IH].
  intros Hin%elem_of_Remove_1. done.
Qed.

Lemma Remove_not_elem_of el l : el ∉ l → List_.Remove el l = l.
Proof.
  induction l as [|x l IH]; simpl; [done|].
  intros Hel. apply not_elem_of_cons in Hel as [Hne Hel].
  case_decide; [congruence|]. by rewrite IH.
Qed.

Lemma Remove_snoc el l : el ∉ l → List_.Remove el (l ++ [el]) = l.
Proof.
  induction l as [|x l IH]; simpl; intros Hel.
  - by case_decide.
  - apply not_elem_of_cons in Hel as [Hne Hel].
    case_decide; [congruence|]. by rewrite IH.
Qed.

Lemma elem_of_snoc (x : ptr) l : x ∈ l ++ [x].
Proof. apply elem_of_app. right. left. Qed.

Lemma Back_elem_of l el : List_.Back l = Some el → el ∈ l.
Proof.
  unfold List_.Back. intros [l' ->]%last_Some. apply elem_of_snoc.
Qed.

(** Removing the back element of a list of distinct elements leaves the
    elements before it, in order. *)
Lemma Remove_Back l el :
  NoDup l → List_.Back l = Some el → l = List_.Remove el l ++ [el].
Proof.
  unfold List_.Back. intros Hnd [l' ->]%last_Some.
  apply NoDup_app in Hnd as (_ & Hdisj & _).
  rewrite Remove_snoc; [done|]. intros Hin. apply (Hdisj _ Hin). left.
Qed.

Lemma MoveToFront_length el l :
  length (List_.MoveToFront el l) = length l.
Proof.
  unfold List_.MoveToFront. case_decide as Hel; [|done].
  simpl. by apply Remove_length.
Qed.

Lemma elem_of_MoveToFront q el l :
  q ∈ List_.MoveToFront el l ↔ q ∈ l.
Proof.
  unfold List_.MoveToFront. case_decide as Hel; [|done].
  rewrite elem_of_cons. split.
  - intros [->|?%elem_of_Remove_1]; done.
  - intros Hq. destruct (decide (q = el)); [by left|right].
    by apply elem_of_Remove_ne.
Qed.

Lemma NoDup_MoveToFront el l : NoDup l → NoDup (List_.MoveToFront el l).
Proof.
  unfold List_.MoveToFront. intros Hnd. case_decide as Hel; [|done].
  apply NoDup_cons. split; [|by apply NoDup_Remove].
  rewrite elem_of_Remove; [|done]. by intros [_ ?].
Qed.

#[global] Arguments remove : simpl never.
#[global] Arguments callOnRemove : simpl never.
#[global] Arguments entryPool_Get : simpl never.
#[global] Arguments getShard : simpl never.
#[global] Arguments getEntry : simpl never.
#[global] Arguments genExp : simpl never.
#[global] Arguments inserted : simpl never.
#[global] Arguments enforce : simpl never.

Section Properties.

Context {V : Type}.
Implicit Types (c : @LRU V) (s : lruShard) (e : @Entry V).
Implicit Types (key k : string) (p el : ptr) (i shard : nat).

(** ** Shards and the store *)

Lemma shardOf_lookup c i s : shards c !! i = Some s → shardOf c i = s.
Proof. apply list_lookup_total_correct. Qed.

Lemma lookup_shardOf c i :
  (i < length (shards c))%nat → shards c !! i = Some (shardOf c i).
Proof.
  intros Hi. destruct (lookup_lt_is_Some_2 _ _ Hi) as [s Hs].
  by rewrite (shardOf_lookup _ _ _ Hs).
Qed.

Lemma shardOf_setShard c i s :
  (i < length (shards c))%nat → shardOf (setShard i s c) i = s.
Proof. intros Hi. apply shardOf_lookup. simpl. by apply list_lookup_insert_eq. Qed.

Lemma shards_setShard_Some c i j s t :
  shards (setShard i s c) !! j = Some t →
  (j = i ∧ t = s ∧ (i < length (shards c))%nat) ∨ (j ≠ i ∧ shards c !! j = Some t).
Proof.
  simpl. intros [(-> & -> & ?)|[? ?]]%list_lookup_insert_Some; [left|right]; done.
Qed.

Lemma entryAt_poke c p f : entryAt (poke p f c) p = f (entryAt c p).
Proof. unfold entryAt. simpl. apply lookup_total_insert_eq. Qed.

Lemma entryAt_poke_ne c p q f : p ≠ q → entryAt (poke p f c) q = entryAt c q.
Proof. intros. unfold entryAt. simpl. by apply lookup_total_insert_ne. Qed.

Lemma getShard_Ok c k i :
  getShard c k = Ok i ↔
  uint (shardSize c) ≠ 0 ∧ i = hashIndex c k ∧ (i < length (shards c))%nat.
Proof.
  unfold getShard, shardAt. case_decide as Hz.
  - split; [done|]. by intros [? _].
  - case_decide as Hi.
    + split; [by intros [= <-]|]. by intros (_ & -> & _).
    + split; [done|]. intros (_ & -> & ?). done.
Qed.

(** The routing of a key depends on the shard count alone. *)
Lemma getShard_same c c' k :
  shardSize c' = shardSize c → length (shards c') = length (shards c) →
  getShard c' k = getShard c k.
Proof.
  intros Hsz Hlen. unfold getShard, shardAt, hashIndex. by rewrite Hsz, Hlen.
Qed.

(** ** Preservation of well-formedness by the primitive steps *)

Lemma shardInv_mono c c' j s :
  shardInv c j s →
  shardSize c' = shardSize c →
  (∀ q, q ∈ lst s → Key (entryAt c' q) = Key (entryAt c q)
                    ∧ (q ∉ entryPool c') ∧ (q < brk c')%nat) →
  shardInv c' j s.
Proof.
  intros [Hnd Htl Hrt Hown] Hsz Hq. split.
  - done.
  - intros k p. rewrite Htl. split; intros [Hp Hk]; (split; [done|]);
      destruct (Hq p Hp) as (HK & _); congruence.
  - intros p Hp. destruct (Hq p Hp) as (HK & _).
    unfold hashIndex. rewrite HK, Hsz. by apply Hrt.
  - intros p Hp. by destruct (Hq p Hp) as (_ & ? & ?).
Qed.

Lemma Inv_shardOf c i :
  Inv c → (i < length (shards c))%nat → shardInv c i (shardOf c i).
Proof. intros HI Hi. apply HI. by apply lookup_shardOf. Qed.

(** A listed entry is in one shard only. *)
Lemma Inv_listed_once c i j s t p :
  Inv c → shards c !! i = Some s → shards c !! j = Some t →
  p ∈ lst s → p ∈ lst t → i = j.
Proof.
  intros HI Hs Ht Hps Hpt.
  rewrite <-(lst_route _ _ _ (Inv_shard _ HI _ _ Hs) p Hps).
  apply (lst_route _ _ _ (Inv_shard _ HI _ _ Ht) p Hpt).
Qed.

Lemma Inv_withFired c log : Inv c → Inv (withFired log c).
Proof. intros [? ? Hsh ? ?]. split; try done. intros i s Hs. by destruct (Hsh i s Hs). Qed.

(** A write to an entry that is in no shard and not in the pool. *)
Lemma Inv_poke_free c p f : Inv c → free c p → Inv (poke p f c).
Proof.
  intros [Hsz Hlen Hsh Hnd Hpool] [Hfp Hfl]. split; try done.
  - intros i s Hs. apply (shardInv_mono c); [by apply Hsh|done|].
    intros q Hq. destruct (lst_owned _ _ _ (Hsh i s Hs) q Hq) as [? ?].
    rewrite entryAt_poke_ne; [done|]. intros ->. by apply (Hfl i s Hs).
  - intros q Hq. simpl. rewrite entryAt_poke_ne; [by apply Hpool|].
    by intros ->.
Qed.

(** A write that keeps the key, to an entry that is not in the pool. *)
Lemma Inv_poke_Key c p f :
  Inv c → (∀ e, Key (f e) = Key e) → p ∉ entryPool c → Inv (poke p f c).
Proof.
  intros [Hsz Hlen Hsh Hnd Hpool] Hf Hp. split; try done.
  - intros i s Hs. apply (shardInv_mono c); [by apply Hsh|done|].
    intros q Hq. destruct (lst_owned _ _ _ (Hsh i s Hs) q Hq) as [? ?].
    split; [|done]. destruct (decide (p = q)) as [->|Hne].
    + by rewrite entryAt_poke.
    + by rewrite entryAt_poke_ne.
  - intros q Hq. simpl. rewrite entryAt_poke_ne; [by apply Hpool|].
    by intros ->.
Qed.

Lemma free_poke c p q f : free c p → free (poke q f c) p.
Proof. done. Qed.

Lemma Inv_offer c i el : Inv c → Inv (lruShard_offer c i el).
Proof.
  intros HI. pose proof HI as [Hsz Hlen Hsh Hnd Hpool].
  split; try done.
  - simpl. by rewrite length_insert.
  - intros j t [(-> & -> & Hi)|[Hne Ht]]%shards_setShard_Some.
    + destruct (Inv_shardOf c i HI Hi) as [Hnd' Htl Hrt Hown]. split; simpl.
      * by apply NoDup_MoveToFront.
      * intros k p. rewrite elem_of_MoveToFront. apply Htl.
      * intros p Hp%elem_of_MoveToFront. by apply Hrt.
      * intros p Hp%elem_of_MoveToFront. by apply Hown.
    + by destruct (Hsh j t Ht).
Qed.

(** Detaching a listed element leaves it in no shard. *)
Lemma Inv_lruShard_remove c i el :
  Inv c → (i < length (shards c))%nat → el ∈ lst (shardOf c i) →
  Inv (lruShard_remove c i el) ∧ free (lruShard_remove c i el) el
  ∧ (el < brk c)%nat.
Proof.
  intros HI Hi Hel. pose proof HI as [Hsz Hlen Hsh Hnd Hpool].
  destruct (Inv_shardOf c i HI Hi) as [Hnd' Htl Hrt Hown].
  split; [|split].
  - split; try done.
    + simpl. by rewrite length_insert.
    + intros j t [(-> & -> & _)|[Hne Ht]]%shards_setShard_Some.
      * split; simpl.
        -- by apply NoDup_Remove.
        -- intros k p. rewrite elem_of_Remove by done.
           destruct (decide (k = Key (entryAt c el))) as [->|Hk].
           ++ rewrite lookup_delete_eq. split; [done|].
              intros [[Hp Hne] HK]. exfalso. apply Hne.
              assert (H1 : table (shardOf c i) !! Key (entryAt c el) = Some p)
                by (by apply Htl).
              assert (H2 : table (shardOf c i) !! Key (entryAt c el) = Some el)
                by (by apply Htl).
              congruence.
           ++ rewrite lookup_delete_ne by done. rewrite Htl.
              split; [|by intros [[? ?] ?]].
              intros [Hp HK]. repeat split; try done. intros ->. by apply Hk.
        -- intros p Hp%elem_of_Remove_1. by apply Hrt.
        -- intros p Hp%elem_of_Remove_1. by apply Hown.
      * by destruct (Hsh j t Ht).
  - split; [by apply Hown|].
    intros j t [(-> & -> & _)|[Hne Ht]]%shards_setShard_Some; simpl.
    + rewrite elem_of_Remove by done. by intros [_ ?].
    + intros Hin. apply Hne. symmetry.
      by apply (Inv_listed_once c i j (shardOf c i) t el HI (lookup_shardOf c i Hi) Ht).
  - by apply Hown.
Qed.

Lemma Inv_entryPool_Put c p :
  Inv c → free c p → (p < brk c)%nat → Expiration (entryAt c p) = None →
  Inv (entryPool_Put p c).
Proof.
  intros [Hsz Hlen Hsh Hnd Hpool] [Hfp Hfl] Hbrk Hexp. split; try done.
  - intros i s Hs. apply (shardInv_mono c); [by apply Hsh|done|].
    intros q Hq. destruct (lst_owned _ _ _ (Hsh i s Hs) q Hq) as [? ?].
    split; [done|]. split; [|done]. simpl. intros [->|?]%elem_of_cons; [|done].
    by apply (Hfl i s Hs).
  - simpl. by apply NoDup_cons.
  - simpl. intros q [->|Hq]%elem_of_cons; [done|by apply Hpool].
Qed.

Lemma Inv_alloc c e :
  Inv c →
  Inv (alloc e c).1 ∧ free (alloc e c).1 (alloc e c).2
  ∧ ((alloc e c).2 < brk (alloc e c).1)%nat
  ∧ entryAt (alloc e c).1 (alloc e c).2 = e.
Proof.
  intros [Hsz Hlen Hsh Hnd Hpool]. simpl. split; [|split; [|split]].
  - split; try done.
    + intros i s Hs. apply (shardInv_mono c); [by apply Hsh|done|].
      intros q Hq. destruct (lst_owned _ _ _ (Hsh i s Hs) q Hq) as [? ?].
      split; [|split]; simpl; [|done|lia].
      unfold entryAt. simpl. rewrite lookup_total_insert_ne; [done|lia].
    + intros q Hq. destruct (Hpool q Hq) as [? ?]. split; simpl; [lia|].
      unfold entryAt. simpl. rewrite lookup_total_insert_ne; [done|lia].
  - split; simpl.
    + intros Hin. destruct (Hpool _ Hin). lia.
    + intros i s Hs Hin. destruct (lst_owned _ _ _ (Hsh i s Hs) _ Hin). lia.
  - lia.
  - unfold entryAt. simpl. apply lookup_total_insert_eq.
Qed.

Lemma Inv_entryPool_Get c c' p :
  Inv c → entryPool_Get c = (c', p) →
  Inv c' ∧ free c' p ∧ (p < brk c')%nat ∧ Expiration (entryAt c' p) = None.
Proof.
  intros HI. unfold entryPool_Get. destruct (entryPool c) as [|q pool] eqn:Hp.
  - intros Heq. destruct (Inv_alloc c zeroEntry HI) as (H1 & H2 & H3 & H4).
    rewrite Heq in *. simpl in *. by rewrite H4.
  - intros [= <- <-]. destruct HI as [Hsz Hlen Hsh Hnd Hpool].
    rewrite Hp in *. apply NoDup_cons in Hnd as [Hq Hnd].
    assert (Hfl : ∀ i s, shards c !! i = Some s → q ∉ lst s).
    { intros i s Hs Hin. destruct (lst_owned _ _ _ (Hsh i s Hs) q Hin) as [Hn _].
      apply Hn. rewrite Hp. by left. }
    split; [|split; [|split]].
    + split; try done.
      * intros i s Hs. apply (shardInv_mono c); [by apply Hsh|done|].
        intros r Hr. destruct (lst_owned _ _ _ (Hsh i s Hs) r Hr) as [Hn ?].
        split; [done|]. split; [|done]. simpl. intros Hin. apply Hn.
        rewrite Hp. by right.
      * intros r Hr. apply Hpool. by right.
    + by split.
    + apply Hpool. by left.
    + apply Hpool. by left.
Qed.

(** Attaching a free entry whose key is routed to [i] and not in the
    index of [i]. *)
Lemma Inv_lruShard_add c i p :
  Inv c → (i < length (shards c))%nat → free c p → (p < brk c)%nat →
  hashIndex c (Key (entryAt c p)) = i →
  table (shardOf c i) !! Key (entryAt c p) = None →
  Inv (lruShard_add c i p).
Proof.
  intros HI Hi [Hfp Hfl] Hbrk Hroute Hmiss.
  pose proof HI as [Hsz Hlen Hsh Hnd Hpool].
  destruct (Inv_shardOf c i HI Hi) as [Hnd' Htl Hrt Hown].
  pose proof (Hfl i _ (lookup_shardOf c i Hi)) as Hpi.
  assert (HE : ∀ q, entryAt (lruShard_add c i p) q = entryAt c q) by done.
  split; try done.
  - simpl. by rewrite length_insert.
  - intros j t [(-> & -> & _)|[Hne Ht]]%shards_setShard_Some.
    + split; simpl.
      * by apply NoDup_cons.
      * intros k q. unfold List_.PushFrontElement. rewrite elem_of_cons, HE.
        destruct (decide (k = Key (entryAt c p))) as [->|Hk].
        -- rewrite lookup_insert_eq. split.
           ++ intros [= <-]. split; [by left|done].
           ++ intros [[->|Hq] HK]; [done|].
              assert (table (shardOf c i) !! Key (entryAt c p) = Some q)
                by (by apply Htl). congruence.
        -- rewrite lookup_insert_ne by done. rewrite Htl. split.
           ++ intros [? ?]. split; [by right|done].
           ++ intros [[->|Hq] HK]; [congruence|done].
      * intros q [->|Hq]%elem_of_cons; [done|by apply Hrt].
      * intros q [->|Hq]%elem_of_cons; [done|by apply Hown].
    + by destruct (Hsh j t Ht).
Qed.

(** ** What the steps leave alone *)

Lemma same_config_refl c : same_config c c.
Proof. by repeat split. Qed.

Lemma same_config_trans c1 c2 c3 :
  same_config c1 c2 → same_config c2 c3 → same_config c1 c3.
Proof.
  unfold same_config. intros (?&?&?&?&?) (?&?&?&?&?).
  repeat split; congruence.
Qed.

Lemma same_config_poke c p f : same_config c (poke p f c).
Proof. by repeat split. Qed.

Lemma same_config_setShard c i s : same_config c (setShard i s c).
Proof. repeat split; try done. simpl. apply length_insert. Qed.

Lemma same_config_callOnRemove c p : same_config c (callOnRemove c p).
Proof.
  unfold callOnRemove, same_config.
  destruct (OnRemove c) eqn:E; simpl; rewrite ?E; done.
Qed.

Lemma same_config_remove c i el : same_config c (remove c i el).
Proof.
  unfold remove.
  eapply same_config_trans; [apply (same_config_setShard c i)|].
  eapply same_config_trans; [apply same_config_callOnRemove|].
  by repeat split.
Qed.

Lemma same_config_entryPool_Get c c' p :
  entryPool_Get c = (c', p) → same_config c c'.
Proof.
  unfold entryPool_Get.
  destruct (entryPool c); intros [= <- <-]; by repeat split.
Qed.

Lemma same_config_getShard c c' k :
  same_config c c' → getShard c' k = getShard c k.
Proof. intros (_&_&?&_&?). by apply getShard_same. Qed.

Lemma shards_callOnRemove c p : shards (callOnRemove c p) = shards c.
Proof. unfold callOnRemove. by destruct (OnRemove c). Qed.

Lemma entryPool_callOnRemove c p : entryPool (callOnRemove c p) = entryPool c.
Proof. unfold callOnRemove. by destruct (OnRemove c). Qed.

Lemma fired_callOnRemove c p :
  fired (callOnRemove c p) = fired c ++ hookCalls c [entryAt c p].
Proof.
  unfold callOnRemove, hookCalls. destruct (OnRemove c); simpl; [done|].
  by rewrite app_nil_r.
Qed.

Lemma entryAt_callOnRemove_ne c p q :
  p ≠ q → entryAt (callOnRemove c p) q = entryAt c q.
Proof.
  intros Hne. unfold callOnRemove. destruct (OnRemove c); [|done].
  by rewrite entryAt_poke_ne.
Qed.

(** What [remove] does to each part of the state. *)
Lemma shards_remove c i el :
  shards (remove c i el)
  = <[i := mkShard (List_.Remove el (lst (shardOf c i)))
                   (delete (Key (entryAt c el)) (table (shardOf c i)))]>
      (shards c).
Proof. unfold remove. simpl. by rewrite shards_callOnRemove. Qed.

Lemma entryPool_remove c i el : entryPool (remove c i el) = el :: entryPool c.
Proof. unfold remove. simpl. by rewrite entryPool_callOnRemove. Qed.

Lemma fired_remove c i el :
  fired (remove c i el) = fired c ++ hookCalls c [entryAt c el].
Proof. unfold remove. simpl. by rewrite fired_callOnRemove. Qed.

Lemma entryAt_remove_ne c i el q :
  el ≠ q → entryAt (remove c i el) q = entryAt c q.
Proof.
  intros Hne. unfold remove.
  change (entryAt (entryPool_Put el ?x) q) with (entryAt x q).
  rewrite entryAt_poke_ne by done. by rewrite entryAt_callOnRemove_ne.
Qed.

Lemma Expiration_remove c i el : Expiration (entryAt (remove c i el) el) = None.
Proof.
  unfold remove.
  change (entryAt (entryPool_Put el ?x) el) with (entryAt x el).
  by rewrite entryAt_poke.
Qed.

Lemma shards_entryPool_Get c c' p :
  entryPool_Get c = (c', p) → shards c' = shards c.
Proof. unfold entryPool_Get. destruct (entryPool c); by intros [= <- <-]. Qed.

(** ** Preservation of well-formedness by the operations *)

Lemma Inv_callOnRemove c p :
  Inv c → free c p →
  Inv (callOnRemove c p) ∧ free (callOnRemove c p) p
  ∧ brk (callOnRemove c p) = brk c.
Proof.
  intros HI Hf. unfold callOnRemove. destruct (OnRemove c); [|done].
  split; [|done]. apply Inv_poke_free; [|done]. by apply Inv_withFired.
Qed.

Lemma Inv_remove c i el :
  Inv c → (i < length (shards c))%nat → el ∈ lst (shardOf c i) →
  Inv (remove c i el).
Proof.
  intros HI Hi Hel. unfold remove.
  destruct (Inv_lruShard_remove c i el HI Hi Hel) as (H1 & Hf1 & Hb1).
  destruct (Inv_callOnRemove _ el H1 Hf1) as (H2 & Hf2 & Hb2).
  apply Inv_entryPool_Put.
  - by apply Inv_poke_free.
  - done.
  - simpl. by rewrite Hb2.
  - by rewrite entryAt_poke.
Qed.

(** An indexed element is listed. *)
Lemma Inv_get_listed c i k el :
  Inv c → (i < length (shards c))%nat → lruShard_get c i k = Some el →
  el ∈ lst (shardOf c i) ∧ Key (entryAt c el) = k ∧ el ∉ entryPool c.
Proof.
  intros HI Hi Hget. destruct (Inv_shardOf c i HI Hi) as [_ Htl _ Hown].
  apply Htl in Hget as [Hel HK]. split; [done|]. split; [done|].
  by apply Hown.
Qed.

Lemma Inv_getEntry c i k now exp c' r :
  Inv c → (i < length (shards c))%nat →
  getEntry c i k now exp = Ok (c', r) →
  Inv c' ∧ same_config c c'.
Proof.
  intros HI Hi. unfold getEntry.
  destruct (lruShard_get c i k) as [el|] eqn:Hget.
  - destruct (Inv_get_listed c i k el HI Hi Hget) as (Hel & HK & Hnp).
    destruct (if decide _ then _ else _) as [[]|]; cbn; [| |done];
      intros [= <- <-].
    + split; [by apply Inv_remove|apply same_config_remove].
    + split.
      * apply Inv_offer. by apply Inv_poke_Key.
      * eapply same_config_trans; [apply (same_config_poke c el)|].
        apply same_config_setShard.
  - intros [= <- <-]. split; [done|apply same_config_refl].
Qed.

(** ** The outcomes of [getEntry] *)

Lemma getEntry_miss c i k now exp :
  lruShard_get c i k = None → getEntry c i k now exp = Ok (c, None).
Proof. unfold getEntry. by intros ->. Qed.

Lemma getEntry_hit_NoExpiration c i k p now exp :
  TTL c = NoExpiration → lruShard_get c i k = Some p →
  getEntry c i k now exp
  = Ok (lruShard_offer (poke p (setExpiration exp) c) i p, Some p).
Proof.
  unfold getEntry. intros HT ->. case_decide; [done|]. reflexivity.
Qed.

Lemma getEntry_hit_live c i k p d now exp :
  lruShard_get c i k = Some p → Expiration (entryAt c p) = Some d →
  ¬ d < now →
  getEntry c i k now exp
  = Ok (lruShard_offer (poke p (setExpiration exp) c) i p, Some p).
Proof.
  unfold getEntry. intros -> Hd Hlive.
  case_decide; [|reflexivity]. rewrite Hd. cbn.
  by rewrite bool_decide_eq_false_2.
Qed.

Lemma getEntry_expired c i k p d now exp :
  TTL c ≠ NoExpiration → lruShard_get c i k = Some p →
  Expiration (entryAt c p) = Some d → d < now →
  getEntry c i k now exp = Ok (remove c i p, None).
Proof.
  unfold getEntry. intros HT -> Hd Hexp.
  case_decide; [|done]. rewrite Hd. cbn.
  by rewrite bool_decide_eq_true_2.
Qed.

Lemma getEntry_nil_deadline c i k p now exp :
  TTL c ≠ NoExpiration → lruShard_get c i k = Some p →
  Expiration (entryAt c p) = None →
  getEntry c i k now exp = Panic NilDereference.
Proof.
  unfold getEntry. intros HT -> Hd. case_decide; [|done]. by rewrite Hd.
Qed.

Lemma getEntry_Some_inv c i k now exp c' p :
  getEntry c i k now exp = Ok (c', Some p) →
  lruShard_get c i k = Some p
  ∧ c' = lruShard_offer (poke p (setExpiration exp) c) i p.
Proof.
  unfold getEntry. destruct (lruShard_get c i k) as [el|]; [|done].
  destruct (if decide (TTL c ≠ _) then _ else _) as [[]|]; cbn; [done| |done].
  by intros [= <- <-].
Qed.

Lemma getEntry_None_inv c i k now exp c' :
  getEntry c i k now exp = Ok (c', None) →
  (lruShard_get c i k = None ∧ c' = c)
  ∨ (∃ el, lruShard_get c i k = Some el ∧ c' = remove c i el).
Proof.
  unfold getEntry. destruct (lruShard_get c i k) as [el|].
  - destruct (if decide (TTL c ≠ _) then _ else _) as [[]|]; cbn; [|done..].
    intros [= <-]. right. by exists el.
  - intros [= <-]. by left.
Qed.

(** After a lookup that reports the key as not found, the key is not in
    the index. *)
Lemma getEntry_None_miss c i k now exp c' :
  Inv c → (i < length (shards c))%nat →
  getEntry c i k now exp = Ok (c', None) →
  table (shardOf c' i) !! k = None.
Proof.
  intros HI Hi [[Hget ->]|(el & Hget & ->)]%getEntry_None_inv; [done|].
  destruct (Inv_get_listed c i k el HI Hi Hget) as (Hel & HK & Hnp).
  unfold shardOf at 1. rewrite shards_remove.
  rewrite list_lookup_total_insert_eq by done. simpl.
  rewrite HK. apply lookup_delete_eq.
Qed.

Lemma Inv_SetWithTTL c k v ttl now c' :
  Inv c → SetWithTTL c k v ttl now = Ok c' → Inv c' ∧ same_config c c'.
Proof.
  intros HI. unfold SetWithTTL.
  destruct (genExp now ttl) as [now' exp].
  destruct (getShard c k) as [i|] eqn:Hgs; cbn; [|done].
  apply getShard_Ok in Hgs as (Hz & Hi & Hlt).
  destruct (getEntry _ _ _ _ _) as [[c1 found]|] eqn:Hge; cbn; [|done].
  destruct (Inv_getEntry _ _ _ _ _ _ _ HI Hlt Hge) as (HI1 & Hcfg1).
  assert (Hlt1 : (i < length (shards c1))%nat).
  { destruct Hcfg1 as (_&_&_&_&->). done. }
  destruct found as [entry|].
  - intros [= <-]. split.
    + apply Inv_poke_Key; [done..|].
      apply getEntry_Some_inv in Hge as [Hget ->].
      by apply (Inv_get_listed c i k entry HI Hlt Hget).
    + eapply same_config_trans; [exact Hcfg1|apply same_config_poke].
  - pose proof (getEntry_None_miss _ _ _ _ _ _ HI Hlt Hge) as Hmiss.
    destruct (entryPool_Get c1) as [c2 entry] eqn:Hpool.
    destruct (Inv_entryPool_Get _ _ _ HI1 Hpool) as (HI2 & Hf2 & Hb2 & _).
    pose proof (same_config_entryPool_Get _ _ _ Hpool) as Hcfg2.
    pose proof (shards_entryPool_Get _ _ _ Hpool) as Hsh2.
    set (c3 := poke entry (setValue v)
                 (poke entry (λ e, mkEntry k (Value e) (Expiration e)) c2)).
    set (c4 := if decide (ttl ≠ NoExpiration)
               then poke entry (setExpiration exp) c3 else c3).
    assert (H4 : Inv c4 ∧ free c4 entry ∧ brk c4 = brk c2
                 ∧ shards c4 = shards c2 ∧ same_config c2 c4
                 ∧ Key (entryAt c4 entry) = k).
    { subst c4 c3. case_decide.
      - split; [by repeat (apply Inv_poke_free; [|done])|]. split; [done|].
        split; [done|]. split; [done|]. split; [by repeat split|].
        by rewrite !entryAt_poke.
      - split; [by repeat (apply Inv_poke_free; [|done])|]. split; [done|].
        split; [done|]. split; [done|]. split; [by repeat split|].
        by rewrite !entryAt_poke. }
    clearbody c4. clear c3.
    destruct H4 as (HI4 & Hf4 & Hb4 & Hsh4 & Hcfg4 & HK4).
    pose proof (same_config_trans _ _ _ Hcfg1
                  (same_config_trans _ _ _ Hcfg2 Hcfg4)) as Hcfg.
    assert (Hlt4 : (i < length (shards c4))%nat).
    { destruct Hcfg as (_&_&_&_&->). done. }
    assert (HI5 : Inv (lruShard_add c4 i entry)).
    { apply Inv_lruShard_add; try done.
      - by rewrite Hb4.
      - rewrite HK4, Hi. unfold hashIndex.
        by destruct Hcfg as (_&_&->&_).
      - rewrite HK4. unfold shardOf. by rewrite Hsh4, Hsh2. }
    assert (Hcfg5 : same_config c (lruShard_add c4 i entry)).
    { eapply same_config_trans; [exact Hcfg|apply same_config_setShard]. }
    case_decide as Hover.
    + destruct (lruShard_oldest _ _) as [el|] eqn:Hold; [|done].
      intros [= <-]. split.
      * apply Inv_remove; [done| |by apply Back_elem_of].
        simpl. by rewrite length_insert.
      * eapply same_config_trans; [exact Hcfg5|apply same_config_remove].
    + by intros [= <-].
Qed.

Lemma Inv_NewLRU entrySize shardSize ttl c :
  shardSize < 2 ^ 63 →
  NewLRU entrySize shardSize ttl = Ok (c : @LRU V) → Inv c.
Proof.
  intros Hmax. unfold NewLRU.
  set (n := if decide (entrySize < 128) then 1 else shardSize).
  assert (Hn : n < 2 ^ 63) by (subst n; case_decide; lia).
  clearbody n. case_decide as Hz; [done|]. case_decide as Hneg; [done|].
  intros [= <-]. split; simpl.
  - lia.
  - apply length_replicate.
  - intros i s [-> _]%lookup_replicate. split; simpl.
    + apply NoDup_nil_2.
    + intros k p. rewrite lookup_empty. split; [done|].
      by intros [?%elem_of_nil _].
    + by intros p ?%elem_of_nil.
    + by intros p ?%elem_of_nil.
  - apply NoDup_nil_2.
  - by intros p ?%elem_of_nil.
Qed.

Lemma Inv_withOnRemove c cb : Inv c → Inv (withOnRemove cb c).
Proof.
  intros [? ? Hsh ? ?]. split; try done.
  intros i s Hs. by destruct (Hsh i s Hs).
Qed.

Lemma Inv_GetEntry c k now c' r :
  Inv c → GetEntry c k now = Ok (c', r) → Inv c' ∧ same_config c c'.
Proof.
  intros HI. unfold GetEntry. destruct (genExp now (TTL c)) as [now' exp].
  destruct (getShard c k) as [i|] eqn:Hgs; cbn; [|done].
  apply getShard_Ok in Hgs as (Hz & Hi & Hlt).
  by apply Inv_getEntry.
Qed.

Lemma Inv_Get c k now c' r :
  Inv c → Get c k now = Ok (c', r) → Inv c' ∧ same_config c c'.
Proof.
  intros HI. unfold Get. destruct (genExp now (TTL c)) as [now' exp].
  destruct (getShard c k) as [i|] eqn:Hgs; cbn; [|done].
  apply getShard_Ok in Hgs as (Hz & Hi & Hlt).
  destruct (getEntry _ _ _ _ _) as [[c1 found]|] eqn:Hge; cbn; [|done].
  apply Inv_getEntry in Hge; [|done..].
  destruct found; by intros [= <- <-].
Qed.

Lemma Inv_Remove c k c' :
  Inv c → Remove c k = Ok c' → Inv c' ∧ same_config c c'.
Proof.
  intros HI. unfold Remove.
  destruct (getShard c k) as [i|] eqn:Hgs; cbn; [|done].
  apply getShard_Ok in Hgs as (Hz & Hi & Hlt).
  destruct (lruShard_get c i k) as [el|] eqn:Hget; intros [= <-].
  - split; [|apply same_config_remove].
    apply Inv_remove; [done..|].
    by apply (Inv_get_listed c i k el).
  - split; [done|apply same_config_refl].
Qed.

Lemma Inv_Load r : ∀ c c' err,
  Inv c → Load c r = Ok (c', err) → Inv c' ∧ same_config c c'.
Proof.
  induction r as [|[e|] r IH]; intros c c' err HI; cbn [Load].
  - intros [= <- <-]. split; [done|apply same_config_refl].
  - destruct (Inv_alloc c e HI) as (HI1 & Hf1 & Hb1 & He1).
    assert (Hcfg1 : same_config c (alloc e c).1) by done.
    destruct (alloc e c) as [c1 entry]. cbn [fst snd] in *.
    destruct (getShard c1 _) as [i|] eqn:Hgs; cbn; [|done].
    apply getShard_Ok in Hgs as (Hz & Hi & Hlt).
    intros HL. apply IH in HL as [HI' Hcfg'].
    + split; [done|]. eapply same_config_trans; [exact Hcfg1|].
      eapply same_config_trans; [|exact Hcfg'].
      unfold lruShard_putIfAbsent. destruct (_ !! _).
      * apply same_config_refl.
      * apply same_config_setShard.
    + unfold lruShard_putIfAbsent.
      destruct (_ !! _) eqn:Hmiss; [done|].
      by apply Inv_lruShard_add.
  - intros [= <- <-]. split; [done|apply same_config_refl].
Qed.

(** ** The write path on a miss *)

Lemma SetWithTTL_unfold c k v ttl now :
  SetWithTTL c k v ttl now =
  (shard ← getShard c k;
   '(c1, found) ← getEntry c shard k now (genExp now ttl).2;
   match found with
   | Some entry => Ok (poke entry (setValue v) c1)
   | None => enforce (inserted c1 shard k v ttl (genExp now ttl).2).1 shard
   end).
Proof.
  unfold SetWithTTL, genExp, enforce, inserted. cbn [fst snd].
  destruct (getShard c k) as [i|]; cbn; [|done].
  destruct (getEntry _ _ _ _ _) as [[c1 [entry|]]|]; cbn; [done| |done].
  by destruct (entryPool_Get c1) as [c2 entry].
Qed.

Lemma inserted_spec c i k v ttl exp c' p :
  Inv c → (i < length (shards c))%nat → hashIndex c k = i →
  table (shardOf c i) !! k = None →
  (ttl = NoExpiration → exp = None) →
  inserted c i k v ttl exp = (c', p) →
  Inv c' ∧ same_config c c' ∧ fired c' = fired c
  ∧ shards c' = <[i := mkShard (p :: lst (shardOf c i))
                            (<[k := p]> (table (shardOf c i)))]> (shards c)
  ∧ entryAt c' p = mkEntry k v exp
  ∧ (∀ q, q ≠ p → entryAt c' q = entryAt c q)
  ∧ (∀ j s, shards c !! j = Some s → p ∉ lst s).
Proof.
  intros HI Hlt Hi Hmiss Hexp. unfold inserted.
  destruct (entryPool_Get c) as [c2 entry] eqn:Hpool.
  destruct (Inv_entryPool_Get _ _ _ HI Hpool) as (HI2 & Hf2 & Hb2 & He2).
  pose proof (same_config_entryPool_Get _ _ _ Hpool) as Hcfg2.
  pose proof (shards_entryPool_Get _ _ _ Hpool) as Hsh2.
  set (c3 := poke entry (setValue v)
               (poke entry (λ e, mkEntry k (Value e) (Expiration e)) c2)).
  set (c4 := if decide (ttl ≠ NoExpiration)
             then poke entry (setExpiration exp) c3 else c3).
  assert (Hfc : (∀ j s, shards c !! j = Some s → entry ∉ lst s)
                ∧ fired c2 = fired c
                ∧ ∀ q, q ≠ entry → entryAt c2 q = entryAt c q).
  { split; [by rewrite <-Hsh2; apply Hf2|].
    unfold entryPool_Get in Hpool. destruct (entryPool c) as [|q pool].
    - injection Hpool as <- <-. split; [done|].
      intros q Hq. unfold entryAt. simpl.
      by rewrite lookup_total_insert_ne.
    - by injection Hpool as <- <-. }
  destruct Hfc as (Hfc & Hfired & Hother).
  assert (H4 : Inv c4 ∧ free c4 entry ∧ brk c4 = brk c2
               ∧ shards c4 = shards c2 ∧ same_config c2 c4
               ∧ fired c4 = fired c2
               ∧ entryAt c4 entry = mkEntry k v exp
               ∧ ∀ q, q ≠ entry → entryAt c4 q = entryAt c2 q).
  { subst c4 c3. case_decide as Httl.
    - split; [by repeat (apply Inv_poke_free; [|done])|]. split; [done|].
      split; [done|]. split; [done|]. split; [by repeat split|].
      split; [done|]. split; [by rewrite !entryAt_poke|].
      intros q Hq. by rewrite !entryAt_poke_ne.
    - split; [by repeat (apply Inv_poke_free; [|done])|]. split; [done|].
      split; [done|]. split; [done|]. split; [by repeat split|].
      split; [done|]. split.
      + rewrite !entryAt_poke. unfold setValue. simpl. rewrite He2.
        rewrite Hexp; [done|]. by destruct (decide (ttl = NoExpiration)).
      + intros q Hq. by rewrite !entryAt_poke_ne. }
  clearbody c4. clear c3.
  destruct H4 as (HI4 & Hf4 & Hb4 & Hsh4 & Hcfg4 & Hfired4 & He4 & Hother4).
  pose proof (same_config_trans _ _ _ Hcfg2 Hcfg4) as Hcfg.
  assert (Hlt4 : (i < length (shards c4))%nat).
  { destruct Hcfg as (_&_&_&_&->). done. }
  assert (HK4 : Key (entryAt c4 entry) = k) by (by rewrite He4).
  assert (Hshard : shardOf c4 i = shardOf c i).
  { unfold shardOf. by rewrite Hsh4, Hsh2. }
  intros [= <- <-].
  split; [|split; [|split; [|split; [|split; [|split]]]]].
  - apply Inv_lruShard_add; try done.
    + by rewrite Hb4.
    + rewrite HK4. unfold hashIndex in *. by destruct Hcfg as (_&_&->&_).
    + by rewrite HK4, Hshard.
  - eapply same_config_trans; [exact Hcfg|apply same_config_setShard].
  - simpl. by rewrite Hfired4.
  - unfold lruShard_add. simpl. by rewrite HK4, Hshard, Hsh4, Hsh2.
  - exact He4.
  - intros q Hq. change (entryAt c4 q = entryAt c q).
    rewrite Hother4 by done. by apply Hother.
  - done.
Qed.

(** ** Successful lookups *)

Lemma shardOf_looked_up c i p exp j :
  table (shardOf (looked_up c i p exp) j) = table (shardOf c j).
Proof.
  unfold looked_up, lruShard_offer, shardOf. simpl.
  destruct (decide (j = i)) as [->|Hne].
  - destruct (decide (i < length (shards c))%nat) as [Hi|Hi].
    + by rewrite list_lookup_total_insert_eq.
    + by rewrite list_insert_ge by lia.
  - by rewrite list_lookup_total_insert_ne.
Qed.

Lemma entryAt_looked_up c i p exp :
  entryAt (looked_up c i p exp) p = setExpiration exp (entryAt c p).
Proof. unfold looked_up. apply entryAt_poke. Qed.

Lemma same_config_looked_up c i p exp : same_config c (looked_up c i p exp).
Proof.
  unfold looked_up.
  eapply same_config_trans; [apply (same_config_poke c p)|].
  apply same_config_setShard.
Qed.

(** A lookup moves the element to the front and keeps the others in order. *)
Lemma lst_looked_up c i p exp :
  (i < length (shards c))%nat → p ∈ lst (shardOf c i) →
  lst (shardOf (looked_up c i p exp) i)
  = p :: List_.Remove p (lst (shardOf c i)).
Proof.
  intros Hi Hp. unfold looked_up, lruShard_offer.
  rewrite shardOf_setShard by done. simpl.
  change (shardOf (poke p (setExpiration exp) c) i) with (shardOf c i).
  unfold List_.MoveToFront. by rewrite decide_True.
Qed.

Lemma Get_unfold c k now :
  Get c k now =
  (shard ← getShard c k;
   '(c1, found) ← getEntry c shard k now (genExp now (TTL c)).2;
   match found with
   | Some entry => Ok (c1, (Value (entryAt c1 entry), true))
   | None => Ok (c1, (None, false))
   end).
Proof. reflexivity. Qed.

Lemma GetEntry_unfold c k now :
  GetEntry c k now =
  (shard ← getShard c k; getEntry c shard k now (genExp now (TTL c)).2).
Proof. reflexivity. Qed.

Lemma Update_unfold c k cb now :
  Update c k cb now =
  (shard ← getShard c k;
   '(c1, found) ← getEntry c shard k now (genExp now (TTL c)).2;
   match found with
   | Some entry => Ok (poke entry cb c1, found)
   | None => Ok (c1, found)
   end).
Proof. reflexivity. Qed.

Lemma genExp_NoExpiration now : (genExp now NoExpiration).2 = None.
Proof. reflexivity. Qed.

Lemma genExp_ttl now ttl :
  ttl ≠ NoExpiration → (genExp now ttl).2 = Some (now + ttl).
Proof. intros. unfold genExp. simpl. by rewrite decide_True. Qed.

(** ** The capacity check *)

Lemma enforce_under c i : lruShard_len c i ≤ eps c → enforce c i = Ok c.
Proof. intros. unfold enforce. by rewrite decide_False by lia. Qed.

Lemma enforce_over c i l el :
  lst (shardOf c i) = l ++ [el] → lruShard_len c i > eps c →
  enforce c i = Ok (remove c i el).
Proof.
  intros Hl Hover. unfold enforce. rewrite decide_True by done.
  unfold lruShard_oldest, List_.Back. by rewrite Hl, last_snoc.
Qed.

(** With room for at least one entry, the capacity check keeps the entry
    at the front. *)
Lemma enforce_keeps_front c i p l :
  Inv c → (i < length (shards c))%nat → lst (shardOf c i) = p :: l →
  1 ≤ eps c →
  ∃ c', enforce c i = Ok c' ∧ Inv c' ∧ same_config c c'
        ∧ lruShard_get c' i (Key (entryAt c p)) = Some p
        ∧ entryAt c' p = entryAt c p.
Proof.
  intros HI Hi Hl Heps.
  destruct (Inv_shardOf c i HI Hi) as [Hnd Htl Hrt Hown].
  assert (Hp : lruShard_get c i (Key (entryAt c p)) = Some p).
  { apply Htl. rewrite Hl. split; [by left|done]. }
  destruct (decide (lruShard_len c i > eps c)) as [Hover|Hunder].
  - destruct (last l) as [el|] eqn:Hlast.
    + apply last_Some in Hlast as [l' ->].
      rewrite Hl in Hnd. apply NoDup_cons in Hnd as [Hpl Hnd].
      assert (Hne : el ≠ p) by (intros ->; apply Hpl, elem_of_snoc).
      assert (Hel : el ∈ lst (shardOf c i))
        by (rewrite Hl; right; apply elem_of_snoc).
      exists (remove c i el). split; [|split; [|split; [|split]]].
      * by apply (enforce_over c i (p :: l')).
      * by apply Inv_remove.
      * apply same_config_remove.
      * unfold lruShard_get, shardOf at 1. rewrite shards_remove.
        rewrite list_lookup_total_insert_eq by done. simpl.
        rewrite lookup_delete_ne; [done|].
        intros HK. apply Hne.
        assert (lruShard_get c i (Key (entryAt c p)) = Some el)
          by (apply Htl; split; [done|congruence]).
        congruence.
      * by apply entryAt_remove_ne.
    + apply last_None in Hlast as ->.
      unfold lruShard_len, List_.Len in Hover. rewrite Hl in Hover.
      simpl in Hover. lia.
  - exists c. split; [apply enforce_under; lia|].
    split; [done|]. split; [apply same_config_refl|]. done.
Qed.

(** ** What a write leaves in the cache *)

Lemma SetWithTTL_stores c k v ttl now c' :
  Inv c → 1 ≤ eps c → SetWithTTL c k v ttl now = Ok c' →
  ∃ i p, getShard c' k = Ok i ∧ lruShard_get c' i k = Some p
         ∧ entryAt c' p = mkEntry k v (genExp now ttl).2.
Proof.
  intros HI Heps. rewrite SetWithTTL_unfold.
  destruct (getShard c k) as [i|] eqn:Hgs; cbn; [|done].
  pose proof Hgs as (Hz & Hi & Hlt)%getShard_Ok.
  destruct (getEntry _ _ _ _ _) as [[c1 found]|] eqn:Hge; cbn; [|done].
  destruct (Inv_getEntry _ _ _ _ _ _ _ HI Hlt Hge) as (HI1 & Hcfg1).
  assert (Hlt1 : (i < length (shards c1))%nat).
  { destruct Hcfg1 as (_&_&_&_&->). done. }
  destruct found as [entry|].
  - intros [= <-]. apply getEntry_Some_inv in Hge as [Hget ->].
    fold (looked_up c i entry (genExp now ttl).2) in *.
    destruct (Inv_get_listed c i k entry HI Hlt Hget) as (Hel & HK & Hnp).
    exists i, entry. split; [|split].
    + rewrite <-Hgs. apply same_config_getShard.
      eapply same_config_trans; [exact Hcfg1|apply same_config_poke].
    + unfold lruShard_get.
      change (shardOf (poke entry (setValue v) ?x) i) with (shardOf x i).
      by rewrite shardOf_looked_up.
    + rewrite entryAt_poke, entryAt_looked_up. unfold setValue. simpl.
      by rewrite HK.
  - pose proof (getEntry_None_miss _ _ _ _ _ _ HI Hlt Hge) as Hmiss.
    destruct (inserted c1 i k v ttl _) as [c5 p] eqn:Hins. cbn [fst].
    assert (Hi1 : hashIndex c1 k = i).
    { rewrite Hi. unfold hashIndex. by destruct Hcfg1 as (_&_&->&_). }
    assert (Hexp : ttl = NoExpiration → (genExp now ttl).2 = None)
      by (by intros ->).
    destruct (inserted_spec _ _ _ _ _ _ _ _ HI1 Hlt1 Hi1 Hmiss Hexp Hins)
      as (HI5 & Hcfg5 & _ & Hsh5 & He5 & _ & _).
    assert (Hlt5 : (i < length (shards c5))%nat).
    { destruct Hcfg5 as (_&_&_&_&->). done. }
    assert (Hl5 : lst (shardOf c5 i) = p :: lst (shardOf c1 i)).
    { unfold shardOf at 1. rewrite Hsh5.
      by rewrite list_lookup_total_insert_eq. }
    assert (Heps5 : 1 ≤ eps c5).
    { destruct Hcfg5 as (_&_&_&->&_). by destruct Hcfg1 as (_&_&_&->&_). }
    destruct (enforce_keeps_front c5 i p _ HI5 Hlt5 Hl5 Heps5)
      as (c6 & -> & HI6 & Hcfg6 & Hget6 & He6).
    intros [= <-]. exists i, p. rewrite He5 in Hget6. simpl in Hget6.
    split; [|split; [done|congruence]].
    rewrite <-Hgs. apply same_config_getShard.
    eapply same_config_trans; [exact Hcfg1|].
    eapply same_config_trans; [exact Hcfg5|exact Hcfg6].
Qed.

(** ** Writes return *)

Lemma Inv_getShard c k : Inv c → getShard c k = Ok (hashIndex c k).
Proof.
  intros [Hsz Hlen _ _ _]. apply getShard_Ok.
  assert (Hu : uint (shardSize c) = shardSize c).
  { unfold uint. apply Z.mod_small. lia. }
  split; [lia|]. split; [done|].
  unfold hashIndex. rewrite Hlen, Hu.
  pose proof (Z.mod_pos_bound (uint (Fnv.sum32 k)) (shardSize c)). lia.
Qed.

Lemma getEntry_Ok c i k now exp :
  getShard c k = Ok i → lookup_safe c k →
  ∃ c1 found, getEntry c i k now exp = Ok (c1, found).
Proof.
  intros Hgs Hsafe. unfold getEntry.
  destruct (lruShard_get c i k) as [el|] eqn:Hget; [|by eexists _, _].
  case_decide as HT.
  - destruct Hsafe as [?|Hsafe]; [done|].
    specialize (Hsafe i el Hgs Hget).
    destruct (Expiration (entryAt c el)) as [d|]; [|done]. cbn.
    destruct (bool_decide (d < now)); by eexists _, _.
  - cbn. by eexists _, _.
Qed.

Lemma enforce_Ok c i :
  lst (shardOf c i) ≠ [] → ∃ c', enforce c i = Ok c'.
Proof.
  intros Hne. unfold enforce. case_decide; [|by eexists].
  unfold lruShard_oldest, List_.Back.
  destruct (last _) eqn:Hlast; [by eexists|]. by apply last_None in Hlast.
Qed.

(** A write returns unless the lookup meets an entry without deadline. *)
Lemma SetWithTTL_Ok c k v ttl now :
  Inv c → lookup_safe c k → ∃ c', SetWithTTL c k v ttl now = Ok c'.
Proof.
  intros HI Hsafe. rewrite SetWithTTL_unfold.
  pose proof (Inv_getShard c k HI) as Hgs. rewrite Hgs. cbn.
  set (i := hashIndex c k) in *.
  pose proof Hgs as (Hz & _ & Hlt)%getShard_Ok.
  destruct (getEntry_Ok c i k now (genExp now ttl).2 Hgs Hsafe)
    as (c1 & found & Hge).
  rewrite Hge. cbn.
  destruct (Inv_getEntry _ _ _ _ _ _ _ HI Hlt Hge) as (HI1 & Hcfg1).
  destruct found as [entry|]; [by eexists|].
  pose proof (getEntry_None_miss _ _ _ _ _ _ HI Hlt Hge) as Hmiss.
  destruct (inserted c1 i k v ttl _) as [c5 p] eqn:Hins. cbn [fst].
  assert (Hlt1 : (i < length (shards c1))%nat).
  { destruct Hcfg1 as (_&_&_&_&->). done. }
  assert (Hi1 : hashIndex c1 k = i).
  { subst i. unfold hashIndex. by destruct Hcfg1 as (_&_&->&_). }
  assert (Hexp : ttl = NoExpiration → (genExp now ttl).2 = None)
    by (by intros ->).
  destruct (inserted_spec _ _ _ _ _ _ _ _ HI1 Hlt1 Hi1 Hmiss Hexp Hins)
    as (_ & _ & _ & Hsh5 & _).
  apply enforce_Ok. unfold shardOf. rewrite Hsh5.
  by rewrite list_lookup_total_insert_eq.
Qed.

(** ** The operations on a hit *)

Lemma getEntry_hit c i k p now exp :
  lruShard_get c i k = Some p → live c p now →
  getEntry c i k now exp = Ok (looked_up c i p exp, Some p).
Proof.
  intros Hget [HT|(d & Hd & Hlive)].
  - by apply getEntry_hit_NoExpiration.
  - by eapply getEntry_hit_live.
Qed.

Lemma GetEntry_hit c k i p now :
  getShard c k = Ok i → lruShard_get c i k = Some p → live c p now →
  GetEntry c k now = Ok (looked_up c i p (genExp now (TTL c)).2, Some p).
Proof.
  intros Hgs Hget Hlive. rewrite GetEntry_unfold, Hgs. cbn.
  by apply getEntry_hit.
Qed.

Lemma Get_hit c k i p now :
  getShard c k = Ok i → lruShard_get c i k = Some p → live c p now →
  Get c k now = Ok (looked_up c i p (genExp now (TTL c)).2,
                    (Value (entryAt c p), true)).
Proof.
  intros Hgs Hget Hlive. rewrite Get_unfold, Hgs. cbn.
  rewrite (getEntry_hit c i k p) by done. cbn.
  by rewrite entryAt_looked_up.
Qed.

Lemma Update_hit c k cb i p now :
  getShard c k = Ok i → lruShard_get c i k = Some p → live c p now →
  Update c k cb now
  = Ok (poke p cb (looked_up c i p (genExp now (TTL c)).2), Some p).
Proof.
  intros Hgs Hget Hlive. rewrite Update_unfold, Hgs. cbn.
  by rewrite (getEntry_hit c i k p) by done.
Qed.

Lemma SetWithTTL_hit c k v ttl i p now :
  getShard c k = Ok i → lruShard_get c i k = Some p → live c p now →
  SetWithTTL c k v ttl now
  = Ok (poke p (setValue v) (looked_up c i p (genExp now ttl).2)).
Proof.
  intros Hgs Hget Hlive. rewrite SetWithTTL_unfold, Hgs. cbn.
  by rewrite (getEntry_hit c i k p) by done.
Qed.

Lemma Get_miss c k i now :
  getShard c k = Ok i → lruShard_get c i k = None →
  Get c k now = Ok (c, (None, false)).
Proof.
  intros Hgs Hget. rewrite Get_unfold, Hgs. cbn.
  by rewrite getEntry_miss.
Qed.

(** ** The capacity bound under writes *)

Lemma inserted_shards c i k v ttl exp c' p :
  inserted c i k v ttl exp = (c', p) →
  same_config c c' ∧
  ∃ t, shards c' = <[i := mkShard (p :: lst (shardOf c i)) t]> (shards c).
Proof.
  unfold inserted. destruct (entryPool_Get c) as [c2 entry] eqn:Hpool.
  pose proof (same_config_entryPool_Get _ _ _ Hpool) as Hcfg2.
  pose proof (shards_entryPool_Get _ _ _ Hpool) as Hsh2.
  intros [= <- <-]. split.
  - eapply same_config_trans; [exact Hcfg2|].
    eapply same_config_trans; [|apply same_config_setShard].
    case_decide; by repeat split.
  - unfold lruShard_add, setShard, shardOf.
    case_decide; eexists; simpl; rewrite Hsh2; reflexivity.
Qed.

Lemma getEntry_shards c i k now exp c' r :
  getEntry c i k now exp = Ok (c', r) →
  same_config c c' ∧
  (shards c' = shards c ∨
   ∃ s', shards c' = <[i := s']> (shards c)
         ∧ (length (lst s') ≤ length (lst (shardOf c i)))%nat).
Proof.
  unfold getEntry. destruct (lruShard_get c i k) as [el|].
  - destruct (if decide (TTL c ≠ _) then _ else _) as [[]|]; cbn; [| |done];
      intros [= <- <-].
    + split; [apply same_config_remove|]. right. eexists.
      split; [apply shards_remove|]. simpl. apply Remove_length_le.
    + split; [apply same_config_looked_up|]. right. eexists.
      split; [reflexivity|]. simpl. by rewrite MoveToFront_length.
  - intros [= <- <-]. split; [apply same_config_refl|by left].
Qed.

Lemma enforce_shards c i c' :
  enforce c i = Ok c' →
  same_config c c' ∧
  ((shards c' = shards c ∧ lruShard_len c i ≤ eps c) ∨
   ∃ s', shards c' = <[i := s']> (shards c)
         ∧ S (length (lst s')) = length (lst (shardOf c i))).
Proof.
  unfold enforce. case_decide as Hover.
  - destruct (lruShard_oldest c i) as [el|] eqn:Hold; [|done].
    intros [= <-]. split; [apply same_config_remove|]. right. eexists.
    split; [apply shards_remove|]. simpl.
    by apply Remove_length, Back_elem_of.
  - intros [= <-]. split; [apply same_config_refl|]. left. split; [done|lia].
Qed.

Lemma bounded_insert c c' i s' :
  bounded c → eps c' = eps c → shards c' = <[i := s']> (shards c) →
  List_.Len (lst s') ≤ eps c → bounded c'.
Proof.
  intros Hb Heps Hsh Hlen j t. rewrite Hsh, Heps.
  intros [(-> & <- & _)|[_ Hj]]%list_lookup_insert_Some; [done|].
  by apply (Hb j).
Qed.

Lemma SetWithTTL_bounded c k v ttl now c' :
  bounded c → SetWithTTL c k v ttl now = Ok c' → bounded c'.
Proof.
  intros Hb. rewrite SetWithTTL_unfold.
  destruct (getShard c k) as [i|] eqn:Hgs; cbn; [|done].
  apply getShard_Ok in Hgs as (_ & _ & Hlt).
  pose proof (Hb i _ (lookup_shardOf c i Hlt)) as Hbi.
  unfold List_.Len in Hbi.
  destruct (getEntry _ _ _ _ _) as [[c1 found]|] eqn:Hge; cbn; [|done].
  apply getEntry_shards in Hge as (Hcfg1 & Hsh1).
  assert (Hlt1 : (i < length (shards c1))%nat).
  { destruct Hcfg1 as (_&_&_&_&->). done. }
  assert (Heps1 : eps c1 = eps c) by apply Hcfg1.
  assert (Hb1 : bounded c1 ∧
                (length (lst (shardOf c1 i)) ≤ length (lst (shardOf c i)))%nat).
  { destruct Hsh1 as [Hsh1|(s' & Hsh1 & Hlen)].
    - split; [|unfold shardOf; by rewrite Hsh1].
      intros j t. rewrite Hsh1, Heps1. apply Hb.
    - split.
      + apply (bounded_insert c c1 i s'); try done. unfold List_.Len. lia.
      + unfold shardOf at 1. rewrite Hsh1.
        by rewrite list_lookup_total_insert_eq. }
  destruct Hb1 as [Hb1 Hlen1].
  destruct found as [entry|].
  - intros [= <-]. intros j t. apply (Hb1 j t).
  - destruct (inserted c1 i k v ttl _) as [c5 p] eqn:Hins. cbn [fst].
    apply inserted_shards in Hins as (Hcfg5 & t5 & Hsh5).
    assert (Hlt5 : (i < length (shards c5))%nat).
    { destruct Hcfg5 as (_&_&_&_&->). done. }
    assert (Heps5 : eps c5 = eps c1) by apply Hcfg5.
    assert (Hl5 : lst (shardOf c5 i) = p :: lst (shardOf c1 i)).
    { unfold shardOf at 1. rewrite Hsh5.
      by rewrite list_lookup_total_insert_eq. }
    intros (Hcfg6 & Hsh6)%enforce_shards.
    assert (Heps6 : eps c' = eps c5) by apply Hcfg6.
    destruct Hsh6 as [[Hsh6 Hunder]|(s' & Hsh6 & Hlen6)].
    + apply (bounded_insert c1 c' i (shardOf c5 i)); [done|congruence|..].
      * rewrite Hsh6, Hsh5. f_equal. unfold shardOf. rewrite Hsh5.
        by rewrite list_lookup_total_insert_eq.
      * unfold lruShard_len in Hunder. lia.
    + apply (bounded_insert c1 c' i s'); [done|congruence|..].
      * rewrite Hsh6, Hsh5. apply list_insert_insert_eq.
      * rewrite Hl5 in Hlen6. simpl in Hlen6. unfold List_.Len. lia.
Qed.

(** ** Restoration *)

Lemma Load_additive r : ∀ c,
  Inv c →
  ∃ c' err,
    Load c r = Ok (c', err) ∧ same_config c c'
    ∧ (∀ j k p, table (shardOf c j) !! k = Some p →
                table (shardOf c' j) !! k = Some p)
    ∧ (∀ q, (q < brk c)%nat → entryAt c' q = entryAt c q)
    ∧ (∀ j, lst (shardOf c j) `suffix_of` lst (shardOf c' j)).
Proof.
  induction r as [|[e|] r IH]; intros c HI; cbn [Load].
  - exists c, false. split; [done|]. split; [apply same_config_refl|done].
  - destruct (Inv_alloc c e HI) as (HI1 & Hf1 & Hb1 & He1).
    assert (Hcfg1 : same_config c (alloc e c).1) by done.
    assert (Hsh1 : shards (alloc e c).1 = shards c) by done.
    assert (Hbrk1 : (alloc e c).2 = brk c
                    ∧ brk (alloc e c).1 = S (brk c)) by done.
    assert (Hheap1 : ∀ q, (q < brk c)%nat →
              entryAt (alloc e c).1 q = entryAt c q).
    { intros q Hq. unfold entryAt. simpl.
      rewrite lookup_total_insert_ne; [done|lia]. }
    destruct (alloc e c) as [c1 entry]. cbn [fst snd] in *.
    destruct Hbrk1 as [-> Hbrk1].
    rewrite (Inv_getShard c1 _ HI1). cbn.
    set (i := hashIndex c1 (Key (entryAt c1 (brk c)))).
    assert (Hlt : (i < length (shards c1))%nat).
    { by pose proof (Inv_getShard c1 (Key (entryAt c1 (brk c))) HI1)
        as (_ & _ & ?)%getShard_Ok. }
    unfold lruShard_putIfAbsent.
    destruct (table (shardOf c1 i) !! Key (entryAt c1 (brk c))) as [q|] eqn:Hq.
    + destruct (IH c1 HI1) as (c' & err & HL & Hcfg & Htab & Hheap & Hsuf).
      exists c', err. split; [done|].
      split; [by eapply same_config_trans|].
      split; [|split].
      * intros j k p Hp. apply Htab. unfold shardOf. by rewrite Hsh1.
      * intros p Hp. rewrite Hheap by lia. by apply Hheap1.
      * intros j. etrans; [|apply Hsuf]. unfold shardOf. by rewrite Hsh1.
    + assert (HI2 : Inv (lruShard_add c1 i (brk c)))
        by (by apply Inv_lruShard_add).
      destruct (IH _ HI2) as (c' & err & HL & Hcfg & Htab & Hheap & Hsuf).
      exists c', err. split; [done|].
      split.
      { eapply same_config_trans; [exact Hcfg1|].
        eapply same_config_trans; [apply same_config_setShard|exact Hcfg]. }
      split; [|split].
      * intros j k p Hp. apply Htab.
        unfold lruShard_add, shardOf at 1. simpl.
        destruct (decide (j = i)) as [->|Hne].
        -- rewrite list_lookup_total_insert_eq by done. simpl.
           rewrite lookup_insert_ne; [by unfold shardOf; rewrite Hsh1|].
           intros HK. unfold shardOf in Hq, Hp. rewrite Hsh1 in Hq.
           rewrite <-HK in Hp. congruence.
        -- rewrite list_lookup_total_insert_ne by done.
           by unfold shardOf in Hp; rewrite Hsh1.
      * intros p Hp. rewrite Hheap by (simpl; lia).
        change (entryAt c1 p = entryAt c p). by apply Hheap1.
      * intros j. etrans; [|apply Hsuf].
        unfold lruShard_add, shardOf at 2. simpl.
        destruct (decide (j = i)) as [->|Hne].
        -- rewrite list_lookup_total_insert_eq by done. simpl.
           unfold shardOf. rewrite Hsh1. by apply suffix_cons_r.
        -- rewrite list_lookup_total_insert_ne by done.
           unfold shardOf. by rewrite Hsh1.
  - exists c, true. split; [done|]. split; [apply same_config_refl|done].
Qed.

(** ** Flush and Len *)

Lemma NoDup_join_lookup {A} (ls : list (list A)) :
  (∀ i l, ls !! i = Some l → NoDup l) →
  (∀ i j l1 l2 x, ls !! i = Some l1 → ls !! j = Some l2 →
                  x ∈ l1 → x ∈ l2 → i = j) →
  NoDup (mjoin ls).
Proof.
  induction ls as [|l ls IH]; intros Hnd Hdisj; simpl; [apply NoDup_nil_2|].
  apply NoDup_app. split; [by apply (Hnd 0%nat)|]. split.
  - intros x Hx (l2 & Hx2 & Hl2)%list_elem_of_join.
    apply list_elem_of_lookup in Hl2 as [j Hj].
    by specialize (Hdisj 0%nat (S j) l l2 x eq_refl Hj Hx Hx2).
  - apply IH.
    + intros i l'. apply (Hnd (S i)).
    + intros i j l1 l2 x Hi Hj Hx1 Hx2.
      by specialize (Hdisj (S i) (S j) l1 l2 x Hi Hj Hx1 Hx2) as [= ->].
Qed.

Lemma Inv_stored_NoDup c : Inv c → NoDup (stored c).
Proof.
  intros HI. apply NoDup_join_lookup.
  - intros i l (s & -> & Hs)%list_lookup_fmap_Some.
    apply (lst_NoDup _ _ _ (Inv_shard _ HI _ _ Hs)).
  - intros i j l1 l2 x (s1 & -> & Hs1)%list_lookup_fmap_Some
                       (s2 & -> & Hs2)%list_lookup_fmap_Some.
    by apply (Inv_listed_once c i j s1 s2 x).
Qed.

Lemma Len_from_spec c n : ∀ i len,
  (i + n ≤ length (shards c))%nat →
  Len_from c n i len
  = Ok (len + Z.of_nat (length (mjoin (lst <$> take n (drop i (shards c)))))).
Proof.
  induction n as [|n IH]; intros i len Hle; simpl.
  - f_equal. lia.
  - unfold shardAt. rewrite decide_True by lia. cbn.
    rewrite IH by lia. f_equal.
    assert (Hi : (i < length (shards c))%nat) by lia.
    rewrite (drop_S _ _ _ (lookup_shardOf c i Hi)).
    rewrite firstn_cons, fmap_cons.
    change (mjoin (?a :: ?l)) with (a ++ mjoin l).
    rewrite length_app. unfold lruShard_len, List_.Len. lia.
Qed.

Lemma Inv_Len c : Inv c → Len c = Ok (Z.of_nat (length (stored c))).
Proof.
  intros [_ Hlen _ _ _]. unfold Len. rewrite Len_from_spec by (simpl; lia).
  rewrite Z.add_0_l, drop_0, take_ge by lia. done.
Qed.

(** Emptying shard [i] leaves its former elements in no shard. *)
Lemma Inv_reset_shard c i :
  Inv c → (i < length (shards c))%nat →
  Inv (setShard i newShard c)
  ∧ ∀ q, q ∈ lst (shardOf c i) → free (setShard i newShard c) q.
Proof.
  intros HI Hi. pose proof HI as [Hsz Hlen Hsh Hnd Hpool]. split.
  - split; try done.
    + simpl. by rewrite length_insert.
    + intros j t [(-> & -> & _)|[Hne Ht]]%shards_setShard_Some.
      * split; simpl.
        -- apply NoDup_nil_2.
        -- intros k p. rewrite lookup_empty. split; [done|].
           by intros [?%elem_of_nil _].
        -- by intros p ?%elem_of_nil.
        -- by intros p ?%elem_of_nil.
      * by destruct (Hsh j t Ht).
  - intros q Hq. split.
    + by apply (lst_owned _ _ _ (Inv_shardOf c i HI Hi)).
    + intros j t [(-> & -> & _)|[Hne Ht]]%shards_setShard_Some.
      * by intros ?%elem_of_nil.
      * intros Hqt. apply Hne.
        by apply (Inv_listed_once c j i t (shardOf c i) q HI Ht
                    (lookup_shardOf c i Hi)).
Qed.

(** The hook, called on distinct entries that are in no shard, receives
    each of them as it was before the first call. *)
Lemma foldl_callOnRemove l : ∀ c,
  Inv c → NoDup l → (∀ q, q ∈ l → free c q) →
  Inv (foldl callOnRemove c l)
  ∧ same_config c (foldl callOnRemove c l)
  ∧ shards (foldl callOnRemove c l) = shards c
  ∧ fired (foldl callOnRemove c l) = fired c ++ hookCalls c (entryAt c <$> l)
  ∧ ∀ q, q ∉ l → entryAt (foldl callOnRemove c l) q = entryAt c q.
Proof.
  induction l as [|a l IH]; intros c HI Hnd Hfree; simpl.
  - split; [done|]. split; [apply same_config_refl|]. split; [done|].
    split; [|done]. unfold hookCalls. destruct (OnRemove c); simpl;
      by rewrite app_nil_r.
  - apply NoDup_cons in Hnd as [Ha Hnd].
    destruct (Inv_callOnRemove c a HI) as (HI1 & _ & _);
      [apply Hfree; by left|].
    pose proof (same_config_callOnRemove c a) as Hcfg1.
    destruct (IH (callOnRemove c a) HI1 Hnd) as (HI2 & Hcfg2 & Hsh2 & Hf2 & He2).
    { intros q Hq. destruct (Hfree q) as [Hqp Hql]; [by right|].
      split.
      - by rewrite entryPool_callOnRemove.
      - by rewrite shards_callOnRemove. }
    split; [done|]. split; [by eapply same_config_trans|].
    split; [by rewrite Hsh2, shards_callOnRemove|]. split.
    + rewrite Hf2, fired_callOnRemove, <-app_assoc. f_equal.
      assert (HO : OnRemove (callOnRemove c a) = OnRemove c) by apply Hcfg1.
      unfold hookCalls. rewrite HO. destruct (OnRemove c); [|done].
      simpl. f_equal. apply list_fmap_ext. intros j q Hq.
      apply entryAt_callOnRemove_ne. intros ->.
      apply Ha. by apply list_elem_of_lookup_2 in Hq.
    + intros q Hq. apply not_elem_of_cons in Hq as [Hne Hq].
      rewrite He2 by done. by apply entryAt_callOnRemove_ne.
Qed.

Lemma Flush_from_spec n : ∀ c i,
  Inv c → (i + n = length (shards c))%nat →
  ∃ c', Flush_from c n i = Ok c' ∧ Inv c' ∧ same_config c c'
        ∧ (∀ j, (i ≤ j < length (shards c))%nat →
                shards c' !! j = Some newShard)
        ∧ (∀ j, (j < i)%nat → shards c' !! j = shards c !! j)
        ∧ fired c'
          = fired c
            ++ hookCalls c (entryAt c <$> mjoin (lst <$> drop i (shards c))).
Proof.
  induction n as [|n IH]; intros c i HI Hlen; simpl.
  - exists c. split; [done|]. split; [done|]. split; [apply same_config_refl|].
    split; [intros j; lia|]. split; [done|].
    rewrite drop_ge by lia. simpl. unfold hookCalls.
    destruct (OnRemove c); by rewrite app_nil_r.
  - assert (Hi : (i < length (shards c))%nat) by lia.
    unfold shardAt. rewrite decide_True by done. cbn.
    destruct (Inv_reset_shard c i HI Hi) as [HI1 Hfree1].
    destruct (foldl_callOnRemove (lst (shardOf c i)) _ HI1
                (lst_NoDup _ _ _ (Inv_shardOf c i HI Hi)) Hfree1)
      as (HI2 & Hcfg2 & Hsh2 & Hf2 & He2).
    set (c2 := foldl callOnRemove (setShard i newShard c) (lst (shardOf c i)))
      in *.
    assert (Hsh2' : shards c2 = <[i := newShard]> (shards c)) by done.
    assert (Hcfg : same_config c c2).
    { eapply same_config_trans; [apply same_config_setShard|exact Hcfg2]. }
    destruct (IH c2 (S i) HI2) as (c' & HF & HI' & Hcfg' & Hnew & Hold & Hfired).
    { rewrite Hsh2', length_insert. lia. }
    exists c'. split; [done|]. split; [done|].
    split; [by eapply same_config_trans|].
    split; [|split].
    + intros j Hj. destruct (decide (j = i)) as [->|Hne].
      * rewrite Hold by lia. rewrite Hsh2'. by apply list_lookup_insert_eq.
      * apply Hnew. rewrite Hsh2', length_insert. lia.
    + intros j Hj. rewrite Hold by lia. rewrite Hsh2'.
      apply list_lookup_insert_ne. lia.
    + rewrite Hfired, Hf2. change (fired (setShard i newShard c)) with (fired c).
      rewrite <-app_assoc. f_equal.
      assert (HO : OnRemove c2 = OnRemove c) by apply Hcfg.
      rewrite (drop_S _ _ _ (lookup_shardOf c i Hi)), fmap_cons.
      change (mjoin (?a :: ?l)) with (a ++ mjoin l).
      rewrite Hsh2', drop_insert_lt by lia.
      unfold hookCalls. rewrite HO.
      change (OnRemove (setShard i newShard c)) with (OnRemove c).
      destruct (OnRemove c); [|done]. rewrite fmap_app. f_equal.
      apply list_fmap_ext. intros j q Hq.
      apply list_elem_of_lookup_2 in Hq.
      rewrite He2; [done|].
      apply list_elem_of_join in Hq as (l2 & Hq & Hl2).
      apply list_elem_of_fmap in Hl2 as (t & -> & Ht).
      apply list_elem_of_lookup in Ht as [j' Hj'].
      rewrite lookup_drop in Hj'. intros Hqi.
      pose proof (Inv_listed_once c _ _ _ _ q HI Hj'
                    (lookup_shardOf c i Hi) Hq Hqi). lia.
Qed.

Lemma Len_from_empty c n : ∀ i len,
  (∀ j, (i ≤ j < i + n)%nat → shards c !! j = Some newShard) →
  Len_from c n i len = Ok len.
Proof.
  induction n as [|n IH]; intros i len Hnew; simpl; [done|].
  assert (Hi : shards c !! i = Some newShard) by (apply Hnew; lia).
  unfold shardAt. rewrite decide_True by (by eapply lookup_lt_Some). cbn.
  unfold lruShard_len. rewrite (shardOf_lookup _ _ _ Hi). simpl.
  rewrite Z.add_0_r. apply IH. intros j Hj. apply Hnew. lia.
Qed.

Lemma Inv_Flush c : Inv c → ∃ c', Flush c = Ok c' ∧ Inv c' ∧ same_config c c'.
Proof.
  intros HI. pose proof HI as [Hsz Hlen _ _ _].
  destruct (Flush_from_spec (Z.to_nat (shardSize c)) c 0 HI)
    as (c' & HF & HI' & Hcfg & _); [lia|].
  by exists c'.
Qed.

(** A callback that keeps the key of the entry keeps the cache well-formed. *)
Lemma Inv_Update c k cb now c' r :
  Inv c → (∀ e, Key (cb e) = Key e) →
  Update c k cb now = Ok (c', r) → Inv c' ∧ same_config c c'.
Proof.
  intros HI Hcb. rewrite Update_unfold.
  destruct (getShard c k) as [i|] eqn:Hgs; cbn; [|done].
  apply getShard_Ok in Hgs as (Hz & Hi & Hlt).
  destruct (getEntry _ _ _ _ _) as [[c1 found]|] eqn:Hge; cbn; [|done].
  destruct (Inv_getEntry _ _ _ _ _ _ _ HI Hlt Hge) as (HI1 & Hcfg1).
  destruct found as [entry|]; intros [= <- <-]; [|done].
  split; [|eapply same_config_trans; [exact Hcfg1|apply same_config_poke]].
  apply Inv_poke_Key; [done..|].
  apply getEntry_Some_inv in Hge as [Hget ->].
  by apply (Inv_get_listed c i k entry HI Hlt Hget).
Qed.

(** ** Calls on other keys *)

Lemma slot_same_shards c c' k :
  shardSize c' = shardSize c → shards c' = shards c → slot c' k = slot c k.
Proof.
  intros Hsz Hsh. unfold slot, lruShard_get, shardOf, hashIndex.
  by rewrite Hsz, Hsh.
Qed.

Lemma slot_setShard c j s' k :
  slot (setShard j s' c) k
  = if decide (j = hashIndex c k ∧ (j < length (shards c))%nat)
    then table s' !! k else slot c k.
Proof.
  unfold slot, lruShard_get, shardOf. simpl.
  change (hashIndex (setShard j s' c) k) with (hashIndex c k).
  case_decide as Hj.
  - destruct Hj as [<- Hlt]. by rewrite list_lookup_total_insert_eq.
  - destruct (decide (j = hashIndex c k)) as [Heq|Hne].
    + rewrite list_insert_ge; [done|].
      destruct (decide (j < length (shards c))%nat); [|lia]. by destruct Hj.
    + by rewrite list_lookup_total_insert_ne.
Qed.

Lemma slot_listed c k p :
  Inv c → slot c k = Some p →
  p ∈ lst (shardOf c (hashIndex c k)) ∧ Key (entryAt c p) = k.
Proof.
  intros HI Hp.
  pose proof (Inv_getShard c k HI) as (_ & _ & Hlt)%getShard_Ok.
  by destruct (Inv_get_listed c _ k p HI Hlt Hp) as (? & ? & _).
Qed.

(** A listed entry with key [k] is the one the index has for [k]. *)
Lemma listed_slot c j el :
  Inv c → (j < length (shards c))%nat → el ∈ lst (shardOf c j) →
  j = hashIndex c (Key (entryAt c el)) ∧ slot c (Key (entryAt c el)) = Some el.
Proof.
  intros HI Hj Hel. destruct (Inv_shardOf c j HI Hj) as [_ Htl Hrt _].
  assert (Hr : hashIndex c (Key (entryAt c el)) = j) by (by apply Hrt).
  split; [done|]. unfold slot, lruShard_get. rewrite Hr. by apply Htl.
Qed.

Lemma keeps_refl k c : keeps k c c.
Proof.
  split; [apply same_config_refl|]. split; [|done]. intros p Hp. by left.
Qed.

Lemma keeps_trans k c1 c2 c3 : keeps k c1 c2 → keeps k c2 c3 → keeps k c1 c3.
Proof.
  intros (Hcfg1 & Hs1 & Hn1) (Hcfg2 & Hs2 & Hn2).
  split; [by eapply same_config_trans|]. split.
  - intros p Hp. destruct (Hs1 p Hp) as [[Hp2 He2]|Hnone].
    + destruct (Hs2 p Hp2) as [[Hp3 He3]|Hnone]; [left|by right].
      split; [done|congruence].
    + right. by apply Hn2.
  - intros Hnone. by apply Hn2, Hn1.
Qed.

Lemma keeps_poke k c q f : slot c k ≠ Some q → keeps k c (poke q f c).
Proof.
  intros Hq. split; [apply same_config_poke|]. split; [|done].
  intros p Hp. left. split; [done|].
  apply entryAt_poke_ne. intros ->. done.
Qed.

Lemma keeps_offer k c j el : keeps k c (lruShard_offer c j el).
Proof.
  split; [apply same_config_setShard|].
  assert (Hs : slot (lruShard_offer c j el) k = slot c k).
  { unfold lruShard_offer. rewrite slot_setShard. case_decide as Hj; [|done].
    destruct Hj as [-> _]. done. }
  rewrite Hs. split; [|done]. intros p Hp. by left.
Qed.

Lemma slot_remove c j el k :
  slot (remove c j el) k
  = if decide (j = hashIndex c k ∧ (j < length (shards c))%nat)
    then delete (Key (entryAt c el)) (table (shardOf c j)) !! k
    else slot c k.
Proof.
  rewrite (slot_same_shards
             (setShard j (mkShard (List_.Remove el (lst (shardOf c j)))
                            (delete (Key (entryAt c el)) (table (shardOf c j))))
                       c));
    [|by destruct (same_config_remove c j el) as (_&_&?&_)
      |apply shards_remove].
  apply slot_setShard.
Qed.

Lemma keeps_remove k c j el :
  Inv c → (j < length (shards c))%nat → el ∈ lst (shardOf c j) →
  keeps k c (remove c j el).
Proof.
  intros HI Hj Hel. split; [apply same_config_remove|].
  destruct (listed_slot c j el HI Hj Hel) as [Hroute Hslot].
  rewrite slot_remove. split.
  - intros p Hp. destruct (decide (el = p)) as [->|Hne].
    + right. destruct (slot_listed c k p HI Hp) as [_ HK].
      rewrite HK in *. rewrite decide_True by done. apply lookup_delete_eq.
    + left. split; [|by apply entryAt_remove_ne].
      case_decide as Hjk; [|done]. destruct Hjk as [-> _].
      rewrite lookup_delete_ne; [done|].
      intros HK. rewrite HK in Hslot. congruence.
  - intros Hnone. case_decide as Hjk; [|done]. destruct Hjk as [-> _].
    apply lookup_delete_None. by right.
Qed.

Lemma keeps_enforce k c j c' :
  Inv c → (j < length (shards c))%nat → enforce c j = Ok c' → keeps k c c'.
Proof.
  intros HI Hj. unfold enforce. case_decide.
  - destruct (lruShard_oldest c j) as [el|] eqn:Hold; [|done].
    intros [= <-]. apply keeps_remove; [done..|]. by apply Back_elem_of.
  - intros [= <-]. apply keeps_refl.
Qed.

Lemma keeps_inserted k c j k' v ttl exp c' q :
  Inv c → (j < length (shards c))%nat → hashIndex c k' = j →
  table (shardOf c j) !! k' = None → (ttl = NoExpiration → exp = None) →
  k' ≠ k → inserted c j k' v ttl exp = (c', q) → keeps k c c'.
Proof.
  intros HI Hj Hroute Hmiss Hexp Hne Hins.
  destruct (inserted_spec _ _ _ _ _ _ _ _ HI Hj Hroute Hmiss Hexp Hins)
    as (_ & Hcfg & _ & Hsh & _ & Hother & Hq).
  split; [done|].
  assert (Hs : slot c' k = slot c k).
  { rewrite (slot_same_shards
               (setShard j (mkShard (q :: lst (shardOf c j))
                                    (<[k' := q]> (table (shardOf c j)))) c)
               c' k);
      [|by destruct Hcfg as (_&_&?&_)|exact Hsh].
    rewrite slot_setShard. case_decide as Hjk; [|done].
    destruct Hjk as [-> _]. simpl. by rewrite lookup_insert_ne. }
  rewrite Hs. split; [|done]. intros p Hp. left. split; [done|].
  apply Hother. intros ->.
  destruct (slot_listed c k q HI Hp) as [Hin _].
  pose proof (Inv_getShard c k HI) as (_ & _ & Hlt)%getShard_Ok.
  by apply (Hq _ _ (lookup_shardOf c _ Hlt)).
Qed.

(** A lookup of another key keeps [k], and the entry it finds is not the
    one of [k]. *)
Lemma keeps_getEntry k c j k' now exp c' r :
  Inv c → getShard c k' = Ok j → k' ≠ k →
  getEntry c j k' now exp = Ok (c', r) →
  keeps k c c' ∧ ∀ q, r = Some q → slot c' k ≠ Some q.
Proof.
  intros HI (_ & Hroute & Hj)%getShard_Ok Hne Hge.
  assert (Hel : ∀ el, lruShard_get c j k' = Some el → slot c k ≠ Some el).
  { intros el Hget Hs.
    destruct (Inv_get_listed c j k' el HI Hj Hget) as (_ & HK & _).
    destruct (slot_listed c k el HI Hs) as [_ HK']. congruence. }
  destruct r as [q|].
  - apply getEntry_Some_inv in Hge as [Hget ->].
    assert (Hk : keeps k c (lruShard_offer (poke q (setExpiration exp) c) j q)).
    { eapply keeps_trans; [apply keeps_poke; by apply Hel|apply keeps_offer]. }
    split; [done|]. intros ? [= <-] Hs.
    destruct Hk as (_ & Hsome & Hnone).
    destruct (slot c k) as [p|] eqn:Hp.
    + destruct (Hsome p eq_refl) as [[Hp' _]|Hp']; [|congruence].
      rewrite Hp' in Hs. injection Hs as ->. by apply (Hel q).
    + rewrite Hnone in Hs; done.
  - split; [|done].
    apply getEntry_None_inv in Hge as [[_ ->]|(el & Hget & ->)];
      [apply keeps_refl|].
    apply keeps_remove; [done..|].
    by apply (Inv_get_listed c j k' el HI Hj Hget).
Qed.

Lemma keeps_SetWithTTL k c k' v ttl now c' :
  Inv c → k' ≠ k → SetWithTTL c k' v ttl now = Ok c' → keeps k c c'.
Proof.
  intros HI Hne. rewrite SetWithTTL_unfold.
  destruct (getShard c k') as [j|] eqn:Hgs; cbn; [|done].
  pose proof Hgs as (_ & Hroute & Hj)%getShard_Ok.
  destruct (getEntry _ _ _ _ _) as [[c1 found]|] eqn:Hge; cbn; [|done].
  destruct (Inv_getEntry _ _ _ _ _ _ _ HI Hj Hge) as (HI1 & Hcfg1).
  destruct (keeps_getEntry k _ _ _ _ _ _ _ HI Hgs Hne Hge) as [Hk1 Hfound].
  assert (Hj1 : (j < length (shards c1))%nat).
  { destruct Hcfg1 as (_&_&_&_&->). done. }
  destruct found as [entry|].
  - intros [= <-]. eapply keeps_trans; [exact Hk1|].
    apply keeps_poke. by apply Hfound.
  - pose proof (getEntry_None_miss _ _ _ _ _ _ HI Hj Hge) as Hmiss.
    destruct (inserted c1 j k' v ttl _) as [c5 q] eqn:Hins. cbn [fst].
    assert (Hr1 : hashIndex c1 k' = j).
    { rewrite Hroute. unfold hashIndex. by destruct Hcfg1 as (_&_&->&_). }
    assert (Hexp : ttl = NoExpiration → (genExp now ttl).2 = None)
      by (by intros ->).
    pose proof (keeps_inserted k _ _ _ _ _ _ _ _ HI1 Hj1 Hr1 Hmiss Hexp Hne Hins)
      as Hk5.
    destruct (inserted_spec _ _ _ _ _ _ _ _ HI1 Hj1 Hr1 Hmiss Hexp Hins)
      as (HI5 & Hcfg5 & _).
    intros Henf. eapply keeps_trans; [exact Hk1|].
    eapply keeps_trans; [exact Hk5|].
    apply (keeps_enforce k c5 j); [done| |done].
    destruct Hcfg5 as (_&_&_&_&->). done.
Qed.

Lemma exec_keeps k c o c' :
  Inv c → callKey o ≠ k → keepsKey o → exec c o = Ok c' →
  Inv c' ∧ keeps k c c'.
Proof.
  intros HI Hne Hcb. destruct o as [k' t|k' t|k' v t|k' v ttl t|k' cb t|k'];
    simpl in Hne, Hcb; simpl.
  - destruct (Get c k' t) as [[c1 r]|] eqn:HG; [|done]. intros [= <-].
    split; [by apply (Inv_Get c k' t c1 r)|].
    rewrite Get_unfold in HG.
    destruct (getShard c k') as [j|] eqn:Hgs; cbn in HG; [|done].
    destruct (getEntry _ _ _ _ _) as [[c2 found]|] eqn:Hge; cbn in HG; [|done].
    destruct (keeps_getEntry k _ _ _ _ _ _ _ HI Hgs Hne Hge) as [Hk _].
    by destruct found; injection HG as <- _.
  - destruct (GetEntry c k' t) as [[c1 r]|] eqn:HG; [|done]. intros [= <-].
    split; [by apply (Inv_GetEntry c k' t c1 r)|].
    rewrite GetEntry_unfold in HG.
    destruct (getShard c k') as [j|] eqn:Hgs; cbn in HG; [|done].
    by destruct (keeps_getEntry k _ _ _ _ _ _ _ HI Hgs Hne HG) as [Hk _].
  - intros Hset. split; [by apply (Inv_SetWithTTL c k' v (TTL c) t)|].
    by apply (keeps_SetWithTTL k c k' v (TTL c) t).
  - intros Hset. split; [by apply (Inv_SetWithTTL c k' v ttl t)|].
    by apply (keeps_SetWithTTL k c k' v ttl t).
  - destruct (Update c k' cb t) as [[c1 r]|] eqn:HU; [|done]. intros [= <-].
    split; [by apply (Inv_Update c k' cb t c1 r)|].
    rewrite Update_unfold in HU.
    destruct (getShard c k') as [j|] eqn:Hgs; cbn in HU; [|done].
    destruct (getEntry _ _ _ _ _) as [[c2 found]|] eqn:Hge; cbn in HU; [|done].
    destruct (keeps_getEntry k _ _ _ _ _ _ _ HI Hgs Hne Hge) as [Hk Hfound].
    destruct found as [entry|]; injection HU as <- _; [|done].
    eapply keeps_trans; [exact Hk|]. apply keeps_poke. by apply Hfound.
  - intros HR. split; [by apply (Inv_Remove c k')|].
    unfold Remove in HR.
    destruct (getShard c k') as [j|] eqn:Hgs; cbn in HR; [|done].
    pose proof Hgs as (_ & _ & Hj)%getShard_Ok.
    destruct (lruShard_get c j k') as [el|] eqn:Hget; injection HR as <-.
    + apply keeps_remove; [done..|].
      by apply (Inv_get_listed c j k' el HI Hj Hget).
    + apply keeps_refl.
Qed.

Lemma execs_keeps k os : ∀ c c',
  Inv c → Forall (λ o, callKey o ≠ k ∧ keepsKey o) os →
  execs c os = Ok c' → Inv c' ∧ keeps k c c'.
Proof.
  induction os as [|o os IH]; intros c c' HI Hos; simpl.
  - intros [= <-]. split; [done|apply keeps_refl].
  - apply Forall_cons in Hos as [[Hne Hcb] Hos].
    destruct (exec c o) as [c1|] eqn:Hex; cbn; [|done].
    destruct (exec_keeps k c o c1 HI Hne Hcb Hex) as [HI1 Hk1].
    intros Hrest. destruct (IH c1 c' HI1 Hos Hrest) as [HI' Hk'].
    split; [done|by eapply keeps_trans].
Qed.

(** Without default TTL no call panics. *)
Lemma exec_Ok c o :
  Inv c → TTL c = NoExpiration → ∃ c', exec c o = Ok c'.
Proof.
  intros HI HT.
  assert (Hsafe : ∀ k, lookup_safe c k) by (by left).
  assert (Hge : ∀ k exp now, ∃ c1 found,
             getEntry c (hashIndex c k) k now exp = Ok (c1, found)).
  { intros k exp now. apply getEntry_Ok; [by apply Inv_getShard|done]. }
  destruct o as [k t|k t|k v t|k v ttl t|k cb t|k]; simpl.
  - rewrite Get_unfold, (Inv_getShard c k HI). cbn.
    destruct (Hge k (genExp t (TTL c)).2 t) as (c1 & found & ->). cbn.
    destruct found; by eexists.
  - rewrite GetEntry_unfold, (Inv_getShard c k HI). cbn.
    destruct (Hge k (genExp t (TTL c)).2 t) as (c1 & found & ->). cbn.
    by eexists.
  - by apply SetWithTTL_Ok.
  - by apply SetWithTTL_Ok.
  - rewrite Update_unfold, (Inv_getShard c k HI). cbn.
    destruct (Hge k (genExp t (TTL c)).2 t) as (c1 & found & ->). cbn.
    destruct found; by eexists.
  - unfold Remove. rewrite (Inv_getShard c k HI). cbn.
    destruct (lruShard_get _ _ _); by eexists.
Qed.

Lemma execs_Ok k os : ∀ c,
  Inv c → TTL c = NoExpiration →
  Forall (λ o, callKey o ≠ k ∧ keepsKey o) os →
  ∃ c', execs c os = Ok c'.
Proof.
  induction os as [|o os IH]; intros c HI HT Hos; simpl; [by eexists|].
  apply Forall_cons in Hos as [[Hne Hcb] Hos].
  destruct (exec_Ok c o HI HT) as [c1 Hex]. rewrite Hex. cbn.
  destruct (exec_keeps k c o c1 HI Hne Hcb Hex) as [HI1 (Hcfg & _)].
  apply IH; [done| |done]. destruct Hcfg as (->&_). done.
Qed.

(** The entry a write leaves for its key, if the key is still in the
    index when the write returns. *)
Lemma SetWithTTL_slot c k v ttl now c' p :
  Inv c → SetWithTTL c k v ttl now = Ok c' → slot c' k = Some p →
  entryAt c' p = mkEntry k v (genExp now ttl).2.
Proof.
  intros HI. rewrite SetWithTTL_unfold.
  pose proof (Inv_getShard c k HI) as Hgs. rewrite Hgs. cbn.
  pose proof Hgs as (_ & _ & Hlt)%getShard_Ok.
  set (i := hashIndex c k) in *.
  destruct (getEntry _ _ _ _ _) as [[c1 found]|] eqn:Hge; cbn; [|done].
  destruct (Inv_getEntry _ _ _ _ _ _ _ HI Hlt Hge) as (HI1 & Hcfg1).
  assert (Hlt1 : (i < length (shards c1))%nat).
  { destruct Hcfg1 as (_&_&_&_&->). done. }
  assert (Hi1 : hashIndex c1 k = i).
  { subst i. unfold hashIndex. by destruct Hcfg1 as (_&_&->&_). }
  destruct found as [entry|].
  - intros [= <-]. apply getEntry_Some_inv in Hge as [Hget ->].
    fold (looked_up c i entry (genExp now ttl).2) in *.
    destruct (Inv_get_listed c i k entry HI Hlt Hget) as (Hel & HK & Hnp).
    unfold slot, lruShard_get.
    change (hashIndex (poke entry (setValue v) ?x) k) with (hashIndex x k).
    change (shardOf (poke entry (setValue v) ?x) ?j) with (shardOf x j).
    rewrite Hi1, shardOf_looked_up. unfold lruShard_get in Hget.
    rewrite Hget. intros [= <-].
    rewrite entryAt_poke, entryAt_looked_up. unfold setValue. simpl.
    by rewrite HK.
  - pose proof (getEntry_None_miss _ _ _ _ _ _ HI Hlt Hge) as Hmiss.
    destruct (inserted c1 i k v ttl _) as [c5 q] eqn:Hins. cbn [fst].
    assert (Hexp : ttl = NoExpiration → (genExp now ttl).2 = None)
      by (by intros ->).
    destruct (inserted_spec _ _ _ _ _ _ _ _ HI1 Hlt1 Hi1 Hmiss Hexp Hins)
      as (HI5 & Hcfg5 & _ & Hsh5 & He5 & _ & _).
    assert (Hlt5 : (i < length (shards c5))%nat).
    { destruct Hcfg5 as (_&_&_&_&->). done. }
    assert (Hs5 : slot c5 k = Some q).
    { rewrite (slot_same_shards
                 (setShard i (mkShard (q :: lst (shardOf c1 i))
                                      (<[k := q]> (table (shardOf c1 i)))) c1)
                 c5 k);
        [|by destruct Hcfg5 as (_&_&?&_)|exact Hsh5].
      rewrite slot_setShard, decide_True by done. simpl.
      apply lookup_insert_eq. }
    intros Henf Hp.
    destruct (keeps_enforce k c5 i c' HI5 Hlt5 Henf) as (_ & Hsome & _).
    destruct (Hsome q Hs5) as [[Hq Heq]|Hnone]; [|congruence].
    rewrite Hq in Hp. injection Hp as <-. congruence.
Qed.

(** ** The claims *)

(** C1.  On a well-formed cache without default TTL, [Set(k, v)] returns,
    and so does every sequence of calls on other keys after it ([Get],
    [GetEntry], [Set], [SetWithTTL], [Remove], and [Update] with a callback
    that keeps the key of its entry).  Such calls cannot bring [k] back
    into the index, so [k] is in the index after them exactly when no
    capacity eviction has taken it out; in that case [Get(k)] returns
    [(v, true)], whatever the clock readings.  With room for at least one
    entry per shard [k] is in the index when [Set] returns. *)
Theorem Get_after_Set c k v now os now' :
  Inv c → TTL c = NoExpiration →
  Forall (λ o, callKey o ≠ k ∧ keepsKey o) os →
  ∃ c1 c2,
    Set_ c k v now = Ok c1
    ∧ (1 ≤ eps c → is_Some (slot c1 k))
    ∧ execs c1 os = Ok c2
    ∧ (is_Some (slot c2 k) → ∃ c3, Get c2 k now' = Ok (c3, (v, true))).
Proof.
  intros HI HT Hos. unfold Set_.
  destruct (SetWithTTL_Ok c k v (TTL c) now HI) as [c1 Hset]; [by left|].
  destruct (Inv_SetWithTTL _ _ _ _ _ _ HI Hset) as [HI1 Hcfg1].
  assert (HT1 : TTL c1 = NoExpiration) by (destruct Hcfg1 as (->&_); done).
  destruct (execs_Ok k os c1 HI1 HT1 Hos) as [c2 Hex].
  destruct (execs_keeps k os c1 c2 HI1 Hos Hex) as [HI2 (Hcfg2 & Hsome & Hnone)].
  exists c1, c2. split; [done|]. split; [|split; [done|]].
  - intros Heps.
    destruct (SetWithTTL_stores _ _ _ _ _ _ HI Heps Hset) as (i & p & Hgs & Hget & _).
    exists p. rewrite (Inv_getShard c1 k HI1) in Hgs. by injection Hgs as <-.
  - intros [p Hp2].
    destruct (slot c1 k) as [p1|] eqn:Hp1; [|rewrite Hnone in Hp2; done].
    destruct (Hsome p1 eq_refl) as [[Hp2' He2]|Hp2']; [|congruence].
    rewrite Hp2' in Hp2. injection Hp2 as <-.
    pose proof (SetWithTTL_slot c k v (TTL c) now c1 p1 HI Hset Hp1) as He1.
    rewrite HT, genExp_NoExpiration in He1.
    eexists. rewrite (Get_hit c2 k _ p1 now' (Inv_getShard c2 k HI2) Hp2').
    + by rewrite He2, He1.
    + left. destruct Hcfg2 as (->&_). done.
Qed.


(** C3.  On a cache with a default TTL, a [Get] of a key whose entry has
    a deadline strictly before the clock reading reports the key as not
    found, takes the entry out of the index and of the list of its shard,
    and calls the removal hook, if one is set, once, with that entry. *)
Theorem Get_expired c k i p d now :
  Inv c → TTL c ≠ NoExpiration →
  getShard c k = Ok i → lruShard_get c i k = Some p →
  Expiration (entryAt c p) = Some d → d < now →
  ∃ c', Get c k now = Ok (c', (None, false))
        ∧ lruShard_get c' i k = None
        ∧ lst (shardOf c' i) = List_.Remove p (lst (shardOf c i))
        ∧ (p ∉ lst (shardOf c' i))
        ∧ fired c' = fired c ++ hookCalls c [entryAt c p].
Proof.
  intros HI HT Hgs Hget Hd Hexp.
  pose proof Hgs as (_ & _ & Hlt)%getShard_Ok.
  destruct (Inv_get_listed c i k p HI Hlt Hget) as (Hel & HK & _).
  destruct (Inv_shardOf c i HI Hlt) as [Hnd _ _ _].
  exists (remove c i p).
  assert (Hsh : shardOf (remove c i p) i
                = mkShard (List_.Remove p (lst (shardOf c i)))
                          (delete k (table (shardOf c i)))).
  { unfold shardOf at 1. rewrite shards_remove, HK.
    by rewrite list_lookup_total_insert_eq. }
  split; [|split; [|split; [|split]]].
  - rewrite Get_unfold, Hgs. cbn.
    by rewrite (getEntry_expired c i k p d).
  - unfold lruShard_get. rewrite Hsh. apply lookup_delete_eq.
  - by rewrite Hsh.
  - rewrite Hsh. simpl. rewrite elem_of_Remove by done. by intros [_ ?].
  - apply fired_remove.
Qed.

(** C4.  On a cache with a default TTL, a successful read ([GetEntry],
    [Get], [Update]) of an entry whose deadline is not before the clock
    reading sets the deadline to the reading plus the TTL and moves the
    element to the front of the list of its shard.  A second [GetEntry],
    at whatever reading at which the entry is still live, finds the
    deadline of its own reading: it differs from the first by what the
    clock has moved between the two reads, so it is strictly later exactly
    when the second reading is later, and the same when the readings are
    the same. *)
Theorem read_slides_deadline c k i p d now1 now2 :
  Inv c → TTL c ≠ NoExpiration →
  getShard c k = Ok i → lruShard_get c i k = Some p →
  Expiration (entryAt c p) = Some d → ¬ d < now1 →
  ∃ c1 d1,
    GetEntry c k now1 = Ok (c1, Some p)
    ∧ Get c k now1 = Ok (c1, (Value (entryAt c p), true))
    ∧ (∀ cb, Update c k cb now1 = Ok (poke p cb c1, Some p))
    ∧ Expiration (entryAt c1 p) = Some d1
    ∧ d1 = now1 + TTL c
    ∧ lst (shardOf c1 i) = p :: List_.Remove p (lst (shardOf c i))
    ∧ (¬ d1 < now2 →
       ∃ c2 d2,
         GetEntry c1 k now2 = Ok (c2, Some p)
         ∧ Expiration (entryAt c2 p) = Some d2
         ∧ d2 = now2 + TTL c
         ∧ lst (shardOf c2 i) = lst (shardOf c1 i)
         ∧ d2 - d1 = now2 - now1
         ∧ (d1 < d2 ↔ now1 < now2)
         ∧ (d1 = d2 ↔ now1 = now2)).
Proof.
  intros HI HT Hgs Hget Hd Hlive.
  pose proof Hgs as (_ & _ & Hlt)%getShard_Ok.
  destruct (Inv_get_listed c i k p HI Hlt Hget) as (Hel & HK & _).
  assert (Hl : live c p now1) by (right; eauto).
  set (c1 := looked_up c i p (Some (now1 + TTL c))).
  assert (Hexp : ∀ now, (genExp now (TTL c)).2 = Some (now + TTL c))
    by (intros; by apply genExp_ttl).
  assert (He1 : Expiration (entryAt c1 p) = Some (now1 + TTL c))
    by (subst c1; by rewrite entryAt_looked_up).
  assert (Hcfg1 : same_config c c1) by apply same_config_looked_up.
  assert (HT1 : TTL c1 = TTL c) by apply Hcfg1.
  assert (Hl1 : lst (shardOf c1 i) = p :: List_.Remove p (lst (shardOf c i)))
    by (by apply lst_looked_up).
  exists c1, (now1 + TTL c).
  split; [by rewrite (GetEntry_hit c k i p), Hexp|].
  split; [by rewrite (Get_hit c k i p), Hexp|].
  split; [intros cb; by rewrite (Update_hit c k cb i p), Hexp|].
  split; [exact He1|]. split; [done|]. split; [exact Hl1|].
  intros Hlive2.
  set (c2 := looked_up c1 i p (Some (now2 + TTL c))).
  assert (Hlt1 : (i < length (shards c1))%nat).
  { destruct Hcfg1 as (_&_&_&_&->). done. }
  exists c2, (now2 + TTL c). split; [|split; [|split; [done|split]]].
  - rewrite (GetEntry_hit c1 k i p).
    + by rewrite HT1, Hexp.
    + rewrite <-Hgs. by apply same_config_getShard.
    + unfold lruShard_get. subst c1. by rewrite shardOf_looked_up.
    + right. exists (now1 + TTL c). by split.
  - subst c2. by rewrite entryAt_looked_up.
  - subst c2. rewrite lst_looked_up by (rewrite ?Hl1; by try left).
    rewrite Hl1. cbn [List_.Remove]. by rewrite decide_True.
  - split; [lia|]. split; lia.
Qed.

(** C7.  [SetOrUpdate(k, v, fn)] on a well-formed cache.  If [k] is not
    in the index and every shard has room for at least one entry, it
    returns [false] and leaves the cache as [Set(k, v)] does, with an
    entry for [k] that holds [v] itself.  If [k] is in the index and its
    entry passes the expiration check, it returns [true] and the entry
    is [fn] of what the lookup left of it; nothing else is written. *)
Theorem SetOrUpdate_inserts_or_transforms c k v fn now i :
  Inv c → getShard c k = Ok i →
  (lruShard_get c i k = None → 1 ≤ eps c →
   ∃ c' p, SetOrUpdate c k v fn now = Ok (c', false)
           ∧ Set_ c k v now = Ok c'
           ∧ lruShard_get c' i k = Some p
           ∧ entryAt c' p = mkEntry k v (genExp now (TTL c)).2)
  ∧ (∀ p, lruShard_get c i k = Some p → live c p now →
     let c1 := looked_up c i p (genExp now (TTL c)).2 in
     SetOrUpdate c k v fn now = Ok (poke p fn c1, true)
     ∧ entryAt (poke p fn c1) p
       = fn (setExpiration (genExp now (TTL c)).2 (entryAt c p))).
Proof.
  intros HI Hgs. split.
  - intros Hmiss Heps.
    assert (Hsafe : lookup_safe c k).
    { right. intros j p Hj Hp. congruence. }
    destruct (SetWithTTL_Ok c k v (TTL c) now HI Hsafe) as [c' Hset].
    destruct (SetWithTTL_stores _ _ _ _ _ _ HI Heps Hset)
      as (j & p & Hgs' & Hget & He).
    destruct (Inv_SetWithTTL _ _ _ _ _ _ HI Hset) as [_ Hcfg].
    rewrite (same_config_getShard _ _ k Hcfg), Hgs in Hgs'.
    injection Hgs' as <-.
    exists c', p. split; [|done].
    unfold SetOrUpdate. rewrite Update_unfold, Hgs. cbn.
    rewrite getEntry_miss by done. cbn. unfold Set_. by rewrite Hset.
  - intros p Hget Hlive c1. split.
    + unfold SetOrUpdate. by rewrite (Update_hit c k fn i p).
    + subst c1. by rewrite entryAt_poke, entryAt_looked_up.
Qed.

(** C8.  On a well-formed cache with a default TTL and room for at least
    one entry per shard, once [SetWithTTL(k, v, NoExpiration)] has
    returned, every lookup of [k] ([Get], [GetEntry], [Update], [Set] and
    [SetWithTTL]) panics on the nil deadline of its entry, whatever the
    clock reads. *)
Theorem lookup_after_SetWithTTL_NoExpiration_panics c k v now c1 :
  Inv c → TTL c ≠ NoExpiration → 1 ≤ eps c →
  SetWithTTL c k v NoExpiration now = Ok c1 →
  ∀ now',
    Get c1 k now' = Panic NilDereference
    ∧ GetEntry c1 k now' = Panic NilDereference
    ∧ (∀ cb, Update c1 k cb now' = Panic NilDereference)
    ∧ (∀ v', Set_ c1 k v' now' = Panic NilDereference)
    ∧ (∀ v' ttl, SetWithTTL c1 k v' ttl now' = Panic NilDereference).
Proof.
  intros HI HT Heps Hset now'.
  destruct (SetWithTTL_stores _ _ _ _ _ _ HI Heps Hset)
    as (i & p & Hgs & Hget & He).
  destruct (Inv_SetWithTTL _ _ _ _ _ _ HI Hset) as [_ (HT1 & _)].
  assert (Hnil : ∀ exp, getEntry c1 i k now' exp = Panic NilDereference).
  { intros exp. apply (getEntry_nil_deadline c1 i k p); [congruence|done|].
    by rewrite He. }
  repeat split.
  - rewrite Get_unfold, Hgs. cbn. by rewrite Hnil.
  - rewrite GetEntry_unfold, Hgs. cbn. by rewrite Hnil.
  - intros cb. rewrite Update_unfold, Hgs. cbn. by rewrite Hnil.
  - intros v'. unfold Set_. rewrite SetWithTTL_unfold, Hgs. cbn.
    by rewrite Hnil.
  - intros v' ttl. rewrite SetWithTTL_unfold, Hgs. cbn. by rewrite Hnil.
Qed.

(** C5.  On a well-formed cache, [Flush] returns and leaves [Len] at 0.
    No entry is stored twice, [Len] before the flush is the number of
    stored entries, and the removal hook, if one is set, has been called
    once for each of them, with the entry as it was before the flush. *)
Theorem Flush_empties_and_notifies c :
  Inv c →
  ∃ c', Flush c = Ok c'
        ∧ Len c' = Ok 0
        ∧ Len c = Ok (Z.of_nat (length (stored c)))
        ∧ NoDup (stored c)
        ∧ fired c' = fired c ++ hookCalls c (entryAt c <$> stored c).
Proof.
  intros HI. pose proof HI as [Hsz Hlen _ _ _].
  destruct (Flush_from_spec (Z.to_nat (shardSize c)) c 0 HI)
    as (c' & HF & _ & Hcfg & Hnew & _ & Hfired); [lia|].
  exists c'. split; [done|]. split; [|split; [|split]].
  - unfold Len. apply Len_from_empty. intros j Hj. apply Hnew.
    destruct Hcfg as (_&_&Hsz'&_). rewrite Hsz' in Hj. lia.
  - by apply Inv_Len.
  - by apply Inv_stored_NoDup.
  - by rewrite Hfired, drop_0.
Qed.

(** C6.  On a well-formed cache, [Load] returns for every record stream,
    and every key that was in the index before is still there, bound to
    the same entry, whose key, value and deadline are as they were; the
    list of every shard keeps its former elements, in order, behind the
    restored ones. *)
Theorem Load_keeps_present_keys c r k i p :
  Inv c → getShard c k = Ok i → lruShard_get c i k = Some p →
  ∃ c' err,
    Load c r = Ok (c', err)
    ∧ getShard c' k = Ok i
    ∧ lruShard_get c' i k = Some p
    ∧ entryAt c' p = entryAt c p
    ∧ ∀ j, lst (shardOf c j) `suffix_of` lst (shardOf c' j).
Proof.
  intros HI Hgs Hget.
  pose proof Hgs as (_ & _ & Hlt)%getShard_Ok.
  destruct (Inv_get_listed c i k p HI Hlt Hget) as (Hel & _ & _).
  destruct (lst_owned _ _ _ (Inv_shardOf c i HI Hlt) p Hel) as [_ Hbrk].
  destruct (Load_additive r c HI) as (c' & err & HL & Hcfg & Htab & Hheap & Hsuf).
  exists c', err. split; [done|]. split; [|split; [|split]].
  - rewrite <-Hgs. by apply same_config_getShard.
  - by apply Htab.
  - by apply Hheap.
  - done.
Qed.

(** C9.  [SetWithTTL], and so [Set], keeps every shard within the
    per-shard bound [eps].  [Load] does not: the cache made by
    [NewLRU(1, 1, NoExpiration)] is within the bound, and after loading
    two records with different keys its only shard holds two entries
    against a bound of one, and [Len] is 2 against a requested capacity
    of 1. *)
Theorem bound_kept_by_Set_broken_by_Load :
  (∀ c k v ttl now c',
     bounded c → SetWithTTL c k v ttl now = Ok c' → bounded c')
  ∧ (∀ c k v now c', bounded c → Set_ c k v now = Ok c' → bounded c')
  ∧ ∃ c c',
      NewLRU 1 1 NoExpiration = Ok c
      ∧ bounded c
      ∧ Load c [Record_ (mkEntry "a" None None);
                Record_ (mkEntry "b" None None)] = Ok (c', false)
      ∧ eps c' = 1
      ∧ lruShard_len c' 0 = 2
      ∧ ¬ bounded c'
      ∧ Len c' = Ok 2.
Proof.
  split; [|split].
  - intros c k v ttl now c'. apply SetWithTTL_bounded.
  - intros c k v now c'. apply SetWithTTL_bounded.
  - eexists _, _. split; [reflexivity|].
    split; [|split; [vm_compute; reflexivity|]].
    + intros i s [-> _]%lookup_replicate. done.
    + split; [reflexivity|]. split; [reflexivity|]. split; [|reflexivity].
      intros Hb. specialize (Hb 0%nat _ eq_refl). vm_compute in Hb.
      by apply Hb.
Qed.

(** C10.  On a cache whose default TTL is [NoExpiration], a lookup of a
    key that is in the index succeeds whatever the deadline of its entry
    and whatever the clock reads: the key stays in the index, no hook is
    called, and the entry is left with its key and value and with no
    deadline, through [Get], [GetEntry], [Update] (the callback is handed
    the entry without deadline) and the overwrite path of [Set]. *)
Theorem NoExpiration_lookup_erases_deadline c k i p now :
  TTL c = NoExpiration →
  getShard c k = Ok i →
  lruShard_get c i k = Some p →
  let e := entryAt c p in
  let c1 := looked_up c i p None in
  entryAt c1 p = mkEntry (Key e) (Value e) None
  ∧ Expiration (entryAt c1 p) = None
  ∧ lruShard_get c1 i k = Some p
  ∧ fired c1 = fired c
  ∧ Get c k now = Ok (c1, (Value e, true))
  ∧ GetEntry c k now = Ok (c1, Some p)
  ∧ (∀ cb, ∃ c2, Update c k cb now = Ok (c2, Some p)
           ∧ entryAt c2 p = cb (mkEntry (Key e) (Value e) None)
           ∧ fired c2 = fired c)
  ∧ (∀ v, ∃ c2, Set_ c k v now = Ok c2
          ∧ entryAt c2 p = mkEntry (Key e) v None
          ∧ lruShard_get c2 i k = Some p
          ∧ fired c2 = fired c).
Proof.
  intros HT Hgs Hp e c1.
  assert (Hlive : live c p now) by (by left).
  pose proof (entryAt_looked_up c i p None) as Hh. fold c1 e in Hh.
  assert (Hexp : (genExp now (TTL c)).2 = None) by (by rewrite HT).
  assert (Hidx : lruShard_get c1 i k = Some p).
  { unfold lruShard_get. subst c1. by rewrite shardOf_looked_up. }
  split; [exact Hh|]. split; [by rewrite Hh|]. split; [exact Hidx|].
  split; [done|]. split; [|split; [|split]].
  - by rewrite (Get_hit c k i p), Hexp.
  - by rewrite (GetEntry_hit c k i p), Hexp.
  - intros cb. eexists. split; [|split].
    + by rewrite (Update_hit c k cb i p), Hexp.
    + by rewrite entryAt_poke, entryAt_looked_up.
    + done.
  - intros v. eexists. split; [|split; [|split]].
    + unfold Set_. by rewrite (SetWithTTL_hit c k v _ i p), Hexp.
    + by rewrite entryAt_poke, entryAt_looked_up.
    + exact Hidx.
    + done.
Qed.

End Properties.

(** ** The example caches are well-formed *)

Lemma empty1_Inv ttl : Inv (empty1 ttl).
Proof. apply (Inv_NewLRU 1 1 ttl); [lia|reflexivity]. Qed.

Lemma empty2_Inv : Inv empty2.
Proof. apply (Inv_NewLRU 2 1 NoExpiration); [lia|reflexivity]. Qed.

Lemma cacheA_Inv : Inv cacheA.
Proof.
  apply (Inv_SetWithTTL (withOnRemove (Some id) (empty1 0)) "a" (Some 1) 0 10).
  - apply Inv_withOnRemove, empty1_Inv.
  - vm_compute. reflexivity.
Qed.

Lemma cacheT_Inv : Inv cacheT.
Proof.
  apply (Inv_SetWithTTL (empty1 100) "key" (Some 1) 100 0).
  - apply empty1_Inv.
  - vm_compute. reflexivity.
Qed.

(** ** The tests of the repository, run on the model *)

(** [TestEvict]: the hook sees the value 1, and the key is gone.
    [TestUpdate]: with room for one entry, the new key takes the place of
    the old one, is stored as given and then incremented.  [TestTTL]: the
    entry set at time 0 with a TTL of 100 is gone at 101; the entry then set
    without deadline makes the next [Get] panic. *)
Example TestEvict : TestEvict_run = Ok ([Some 1], (None, false)).
Proof. vm_compute. reflexivity. Qed.

Example TestUpdate :
  TestUpdate_run = Ok (Some 2, false, (Some 3, true), true, (Some 4, true)).
Proof. vm_compute. reflexivity. Qed.

Example TestTTL : TestTTL_run = Panic NilDereference.
Proof. vm_compute. reflexivity. Qed.

(** ** Instances of the claims *)

Lemma Get_after_Set_witness :
  ∃ c1 c2,
    Set_ empty2 "key" (Some 123) 10 = Ok c1
    ∧ execs c1 [CallSet "other" (Some 7) 11; CallGet "other" 12] = Ok c2
    ∧ ∃ c3, Get c2 "key" 13 = Ok (c3, (Some 123, true)).
Proof.
  destruct (Get_after_Set empty2 "key" (Some 123) 10
              [CallSet "other" (Some 7) 11; CallGet "other" 12] 13
              empty2_Inv eq_refl)
    as (c1 & c2 & Hset & _ & Hex & Hget).
  - repeat constructor; simpl; congruence.
  - exists c1, c2. split; [exact Hset|]. split; [exact Hex|].
    apply Hget. vm_compute in Hset. injection Hset as <-.
    vm_compute in Hex. injection Hex as <-. vm_compute. by eexists.
Defined.


Lemma Get_expired_witness :
  ∃ c', Get cacheT "key" 101 = Ok (c', (None, false))
        ∧ lruShard_get c' 0 "key" = None.
Proof.
  destruct (Get_expired cacheT "key" 0%nat 0%nat 100 101 cacheT_Inv)
    as (c' & Hget & Hgone & _); [done|reflexivity|reflexivity|reflexivity|lia|].
  exists c'. split; [exact Hget|exact Hgone].
Defined.

Lemma read_slides_deadline_witness :
  ∃ c1 c2, GetEntry cacheT "key" 50 = Ok (c1, Some 0%nat)
           ∧ Expiration (entryAt c1 0%nat) = Some 150
           ∧ GetEntry c1 "key" 60 = Ok (c2, Some 0%nat)
           ∧ Expiration (entryAt c2 0%nat) = Some 160.
Proof.
  destruct (read_slides_deadline cacheT "key" 0%nat 0%nat 100 50 60 cacheT_Inv)
    as (c1 & d1 & H1 & _ & _ & H2 & Hd1 & _ & Hnext);
    [done|reflexivity|reflexivity|reflexivity|lia|].
  destruct Hnext as (c2 & d2 & H3 & H4 & Hd2 & _); [subst d1; simpl; lia|].
  subst d1 d2. exists c1, c2.
  split; [exact H1|]. split; [exact H2|]. split; [exact H3|exact H4].
Defined.

(** Two consecutive [GetEntry] calls at the same clock reading both find
    the entry and leave it with the same deadline. *)
Lemma read_slides_deadline_counterexample :
  ∃ c1 c2, GetEntry cacheT "key" 50 = Ok (c1, Some 0%nat)
           ∧ GetEntry c1 "key" 50 = Ok (c2, Some 0%nat)
           ∧ Expiration (entryAt c1 0%nat) = Some 150
           ∧ Expiration (entryAt c2 0%nat) = Some 150.
Proof.
  set (c1 := (orElse (GetEntry cacheT "key" 50) (cacheT, None)).1).
  set (c2 := (orElse (GetEntry c1 "key" 50) (c1, None)).1).
  exists c1, c2.
  split; [vm_compute; reflexivity|]. split; [vm_compute; reflexivity|].
  split; vm_compute; reflexivity.
Qed.

Lemma Flush_empties_and_notifies_witness :
  ∃ c', Flush cacheA = Ok c' ∧ Len c' = Ok 0
        ∧ fired c' = [mkEntry "a" (Some 1) None].
Proof.
  destruct (Flush_empties_and_notifies cacheA cacheA_Inv)
    as (c' & HF & HL & _ & _ & Hfired).
  exists c'. split; [exact HF|]. split; [exact HL|exact Hfired].
Defined.

Lemma Load_keeps_present_keys_witness :
  ∃ c' err,
    Load cacheA [Record_ (mkEntry "a" (Some 9) None);
                 Record_ (mkEntry "b" (Some 2) None)] = Ok (c', err)
    ∧ lruShard_get c' 0 "a" = Some 0%nat
    ∧ entryAt c' 0%nat = mkEntry "a" (Some 1) None.
Proof.
  destruct (Load_keeps_present_keys cacheA
              [Record_ (mkEntry "a" (Some 9) None);
               Record_ (mkEntry "b" (Some 2) None)]
              "a" 0%nat 0%nat cacheA_Inv eq_refl eq_refl)
    as (c' & err & HL & _ & Hget & He & _).
  exists c', err. split; [exact HL|]. split; [exact Hget|]. exact He.
Defined.

Lemma SetOrUpdate_inserts_or_transforms_witness :
  ∃ c' p, SetOrUpdate (empty1 0) "newKey" (Some 3) Inc 2 = Ok (c', false)
          ∧ lruShard_get c' 0 "newKey" = Some p
          ∧ entryAt c' p = mkEntry "newKey" (Some 3) None.
Proof.
  destruct (SetOrUpdate_inserts_or_transforms (empty1 0) "newKey" (Some 3) Inc 2
              0%nat (empty1_Inv 0) eq_refl) as [Hmiss _].
  destruct (Hmiss eq_refl) as (c' & p & H1 & _ & H2 & H3); [simpl; lia|].
  exists c', p. split; [exact H1|]. split; [exact H2|exact H3].
Defined.

Lemma lookup_after_SetWithTTL_NoExpiration_panics_witness :
  Get cacheN "key1" 200 = Panic NilDereference.
Proof.
  apply (lookup_after_SetWithTTL_NoExpiration_panics
           (empty1 100) "key1" (Some 2) 0 cacheN);
    [apply empty1_Inv|done|simpl; lia|vm_compute; reflexivity].
Defined.

Lemma NoExpiration_lookup_erases_deadline_witness :
  Expiration (entryAt cacheD 0%nat) = Some 100
  ∧ ∃ c1, Get cacheD "a" 1000 = Ok (c1, (Some 1, true))
          ∧ entryAt c1 0%nat = mkEntry "a" (Some 1) None
          ∧ lruShard_get c1 0 "a" = Some 0%nat.
Proof.
  split; [reflexivity|].
  destruct (NoExpiration_lookup_erases_deadline cacheD "a" 0%nat 0%nat 1000)
    as (He & _ & Hidx & _ & HG & _); [reflexivity|reflexivity|reflexivity|].
  exists (looked_up cacheD 0 0 None).
  split; [exact HG|]. split; [exact He|exact Hidx].
Defined.

(** * Further properties of the code *)

Section Further.

Context {V : Type}.
Implicit Types (c : @LRU V) (s : lruShard) (e : @Entry V).
Implicit Types (key k : string) (p el : ptr) (i shard : nat).
Implicit Types (o : @call V) (os : list (@call V)).

(** ** Construction *)

Lemma NewLRU_Ok_inv entrySize nshards ttl c :
  NewLRU entrySize nshards ttl = Ok c →
  0 < shardSize c
  ∧ shardSize c = (if decide (entrySize < 128) then 1 else nshards)
  ∧ shards c = replicate (Z.to_nat (shardSize c)) newShard
  ∧ eps c = Z.quot entrySize (shardSize c)
            + (if decide (Z.rem entrySize (shardSize c) > 0) then 1 else 0)
  ∧ TTL c = ttl ∧ OnRemove c = None ∧ fired c = [].
Proof.
  unfold NewLRU.
  set (n := if decide (entrySize < 128) then 1 else nshards).
  case_decide as Hz; [done|]. case_decide as Hneg; [done|].
  intros [= <-]. simpl. split; [lia|]. split; [done|]. split; [done|].
  split; [|done]. case_decide; lia.
Qed.

(** X1.  [NewLRU] on a capacity that is not negative and a positive shard
    count below 2^32 returns a well-formed, empty cache with one shard
    below a capacity of 128 and the requested shards otherwise; the
    per-shard bound is the capacity divided by the shard count, rounded up,
    so the shards together have room for the capacity and for less than one
    entry more per shard.  (The bound on the shard count keeps the length
    of the slice of shards within what [make] accepts on a 64-bit
    platform; beyond its allocation limit [make] panics.) *)
Theorem NewLRU_rounds_capacity_up entrySize nshards ttl :
  0 ≤ entrySize → 0 < nshards < 2 ^ 32 →
  ∃ c, NewLRU entrySize nshards ttl = Ok c
       ∧ Inv c
       ∧ shardSize c = (if decide (entrySize < 128) then 1 else nshards)
       ∧ entrySize ≤ eps c * shardSize c < entrySize + shardSize c
       ∧ stored c = []
       ∧ Len c = Ok 0
       ∧ TTL c = ttl ∧ OnRemove c = None.
Proof.
  intros Hcap Hn.
  destruct (NewLRU entrySize nshards ttl) as [c|e] eqn:HN.
  - assert (Hint : nshards < 2 ^ 63) by lia.
    pose proof (Inv_NewLRU _ _ _ _ Hint HN) as HI.
    destruct (NewLRU_Ok_inv _ _ _ _ HN) as (Hpos & Hsz & Hsh & Heps & HT & HO & _).
    exists c. split; [done|]. split; [done|]. split; [done|].
    assert (Hst : stored c = []).
    { unfold stored. rewrite Hsh. apply join_nil_2, Forall_fmap.
      by apply Forall_replicate. }
    split; [|split; [done|]; split; [|done]].
    + pose proof (Z.quot_rem' entrySize (shardSize c)) as Hqr.
      pose proof (Z.rem_bound_pos entrySize (shardSize c) Hcap Hpos) as Hr.
      rewrite Heps. case_decide; nia.
    + by rewrite (Inv_Len c HI), Hst.
  - exfalso. unfold NewLRU in HN. repeat case_decide; try done; lia.
Qed.

(** ** The capacity after any calls *)

Lemma getEntry_bounded c i k now exp c' r :
  bounded c → (i < length (shards c))%nat →
  getEntry c i k now exp = Ok (c', r) → bounded c' ∧ same_config c c'.
Proof.
  intros Hb Hi (Hcfg & Hsh)%getEntry_shards. split; [|done].
  assert (Heps : eps c' = eps c) by apply Hcfg.
  destruct Hsh as [Hsh|(s' & Hsh & Hlen)].
  - intros j t. rewrite Hsh, Heps. apply Hb.
  - apply (bounded_insert c c' i s'); [done..|].
    pose proof (Hb i _ (lookup_shardOf c i Hi)). unfold List_.Len in *. lia.
Qed.

Lemma bounded_poke c p f : bounded c → bounded (poke p f c).
Proof. done. Qed.

Lemma remove_bounded c i el : bounded c → bounded (remove c i el).
Proof.
  intros Hb j t. rewrite shards_remove.
  destruct (same_config_remove c i el) as (_&_&_&->&_).
  intros [(<- & <- & Hi)|[_ Hj]]%list_lookup_insert_Some; [|by apply (Hb j)].
  simpl. pose proof (Hb i _ (lookup_shardOf c i Hi)).
  pose proof (Remove_length_le el (lst (shardOf c i))).
  unfold List_.Len in *. lia.
Qed.

Lemma SetWithTTL_same_config c k v ttl now c' :
  SetWithTTL c k v ttl now = Ok c' → same_config c c'.
Proof.
  rewrite SetWithTTL_unfold.
  destruct (getShard c k) as [i|]; cbn; [|done].
  destruct (getEntry _ _ _ _ _) as [[c1 found]|] eqn:Hge; cbn; [|done].
  apply getEntry_shards in Hge as [Hcfg1 _].
  destruct found as [entry|].
  - intros [= <-]. eapply same_config_trans; [exact Hcfg1|apply same_config_poke].
  - destruct (inserted c1 i k v ttl _) as [c5 p] eqn:Hins. cbn [fst].
    apply inserted_shards in Hins as [Hcfg5 _].
    intros [Hcfg6 _]%enforce_shards.
    eapply same_config_trans; [exact Hcfg1|].
    by eapply same_config_trans.
Qed.

Lemma exec_bounded c o c' :
  bounded c → exec c o = Ok c' → bounded c' ∧ same_config c c'.
Proof.
  intros Hb. destruct o as [k t|k t|k v t|k v ttl t|k cb t|k]; simpl.
  - destruct (Get c k t) as [[c1 r]|] eqn:HG; [|done]. intros [= <-].
    rewrite Get_unfold in HG.
    destruct (getShard c k) as [i|] eqn:Hgs; cbn in HG; [|done].
    apply getShard_Ok in Hgs as (_ & _ & Hi).
    destruct (getEntry _ _ _ _ _) as [[c2 found]|] eqn:Hge; cbn in HG; [|done].
    apply getEntry_bounded in Hge; [|done..].
    by destruct found; injection HG as <- _.
  - destruct (GetEntry c k t) as [[c1 r]|] eqn:HG; [|done]. intros [= <-].
    rewrite GetEntry_unfold in HG.
    destruct (getShard c k) as [i|] eqn:Hgs; cbn in HG; [|done].
    apply getShard_Ok in Hgs as (_ & _ & Hi).
    by apply getEntry_bounded in HG.
  - intros Hset. split; [by eapply SetWithTTL_bounded|].
    by eapply SetWithTTL_same_config.
  - intros Hset. split; [by eapply SetWithTTL_bounded|].
    by eapply SetWithTTL_same_config.
  - destruct (Update c k cb t) as [[c1 r]|] eqn:HU; [|done]. intros [= <-].
    rewrite Update_unfold in HU.
    destruct (getShard c k) as [i|] eqn:Hgs; cbn in HU; [|done].
    apply getShard_Ok in Hgs as (_ & _ & Hi).
    destruct (getEntry _ _ _ _ _) as [[c2 found]|] eqn:Hge; cbn in HU; [|done].
    apply getEntry_bounded in Hge as [Hb2 Hcfg2]; [|done..].
    destruct found; injection HU as <- _; [|done].
    split; [done|]. eapply same_config_trans; [exact Hcfg2|apply same_config_poke].
  - unfold Remove. destruct (getShard c k) as [i|]; cbn; [|done].
    destruct (lruShard_get c i k) as [el|]; intros [= <-].
    + split; [by apply remove_bounded|apply same_config_remove].
    + split; [done|apply same_config_refl].
Qed.

Lemma execs_bounded os : ∀ c c',
  bounded c → execs c os = Ok c' → bounded c' ∧ same_config c c'.
Proof.
  induction os as [|o os IH]; intros c c' Hb; simpl.
  - intros [= <-]. split; [done|apply same_config_refl].
  - destruct (exec c o) as [c1|] eqn:Hex; cbn; [|done].
    destruct (exec_bounded c o c1 Hb Hex) as [Hb1 Hcfg1].
    intros Hrest. destruct (IH c1 c' Hb1 Hrest) as [Hb' Hcfg'].
    split; [done|by eapply same_config_trans].
Qed.

Lemma length_join_bounded (ls : list (list ptr)) (b : nat) :
  Forall (λ l, length l ≤ b)%nat ls → (length (mjoin ls) ≤ length ls * b)%nat.
Proof.
  induction 1 as [|l ls Hl _ IH]; simpl; [lia|].
  rewrite length_app. lia.
Qed.

(** [Len] of a cache within the per-shard bound. *)
Lemma bounded_Len c :
  bounded c → length (shards c) = Z.to_nat (shardSize c) → 0 < shardSize c →
  ∃ n, Len c = Ok n ∧ 0 ≤ n ≤ eps c * shardSize c.
Proof.
  intros Hb Hlen Hpos. unfold Len. rewrite Len_from_spec by (simpl; lia).
  rewrite Z.add_0_l, drop_0, take_ge by lia.
  eexists. split; [done|]. split; [lia|].
  assert (Heps : 0 ≤ eps c).
  { destruct (shards c) as [|s0 ss] eqn:Hs; [simpl in Hlen; lia|].
    pose proof (Hb 0%nat s0). rewrite Hs in *. unfold List_.Len in *.
    specialize (H eq_refl). lia. }
  pose proof (length_join_bounded (lst <$> shards c) (Z.to_nat (eps c))) as Hj.
  rewrite length_fmap in Hj.
  assert (Hall : Forall (λ l, length l ≤ Z.to_nat (eps c))%nat (lst <$> shards c)).
  { apply Forall_fmap, Forall_lookup. intros j t Ht. simpl.
    pose proof (Hb j t Ht). unfold List_.Len in *. lia. }
  specialize (Hj Hall). nia.
Qed.

(** X2.  Whatever keyed calls follow the construction of a cache with a
    capacity that is not negative (with any hook; the callbacks of
    [Update] keep the key of their entry), as long as they return, every
    shard holds at most its bound and [Len] is at most the per-shard bound
    times the number of shards, which is less than the capacity plus the
    number of shards. *)
Theorem Len_within_capacity entrySize nshards ttl hook os c0 c :
  0 ≤ entrySize → nshards < 2 ^ 63 →
  NewLRU entrySize nshards ttl = Ok c0 →
  Forall keepsKey os →
  execs (withOnRemove hook c0) os = Ok c →
  bounded c
  ∧ ∃ n, Len c = Ok n
         ∧ 0 ≤ n ≤ eps c0 * shardSize c0
         ∧ n < entrySize + shardSize c0.
Proof.
  intros Hcap _ HN _ Hex.
  destruct (NewLRU_Ok_inv _ _ _ _ HN) as (Hpos & Hsz & Hsh & Heps & _).
  pose proof (Z.quot_rem' entrySize (shardSize c0)) as Hqr.
  pose proof (Z.rem_bound_pos entrySize (shardSize c0) Hcap Hpos) as Hr.
  pose proof (Z.quot_pos entrySize (shardSize c0) Hcap Hpos) as Hq.
  assert (Hb0 : bounded (withOnRemove hook c0)).
  { intros j t. simpl. rewrite Hsh. intros [-> _]%lookup_replicate.
    unfold List_.Len. simpl. rewrite Heps. case_decide; lia. }
  destruct (execs_bounded os _ c Hb0 Hex) as [Hb (_&_&Hsz'&Heps'&Hlen')].
  simpl in Hsz', Heps', Hlen'. split; [exact Hb|].
  destruct (bounded_Len c Hb) as (n & HL & Hn).
  - rewrite Hlen', Hsz', Hsh. apply length_replicate.
  - lia.
  - exists n. split; [done|]. rewrite Heps', Hsz' in Hn. split; [done|].
    rewrite Heps in Hn. case_decide; nia.
Qed.

(** ** The index and the list of a shard *)

Lemma exec_Inv c o c' :
  Inv c → keepsKey o → exec c o = Ok c' → Inv c' ∧ same_config c c'.
Proof.
  intros HI Hcb. destruct o as [k t|k t|k v t|k v ttl t|k cb t|k];
    simpl in Hcb; simpl.
  - destruct (Get c k t) as [[c1 r]|] eqn:HG; [|done]. intros [= <-].
    by apply (Inv_Get c k t c1 r).
  - destruct (GetEntry c k t) as [[c1 r]|] eqn:HG; [|done]. intros [= <-].
    by apply (Inv_GetEntry c k t c1 r).
  - by apply Inv_SetWithTTL.
  - by apply Inv_SetWithTTL.
  - destruct (Update c k cb t) as [[c1 r]|] eqn:HU; [|done]. intros [= <-].
    by apply (Inv_Update c k cb t c1 r).
  - by apply Inv_Remove.
Qed.

Lemma execs_Inv os : ∀ c c',
  Inv c → Forall keepsKey os → execs c os = Ok c' → Inv c' ∧ same_config c c'.
Proof.
  induction os as [|o os IH]; intros c c' HI Hos; simpl.
  - intros [= <-]. split; [done|apply same_config_refl].
  - apply Forall_cons in Hos as [Hcb Hos].
    destruct (exec c o) as [c1|] eqn:Hex; cbn; [|done].
    destruct (exec_Inv c o c1 HI Hcb Hex) as [HI1 Hcfg1].
    intros Hrest. destruct (IH c1 c' HI1 Hos Hrest) as [HI' Hcfg'].
    split; [done|by eapply same_config_trans].
Qed.

(** The index of a well-formed shard is the list of its elements, each
    under the key of its entry. *)
Lemma shardInv_map_to_list c i s :
  shardInv c i s →
  map_to_list (table s) ≡ₚ (λ p, (Key (entryAt c p), p)) <$> lst s.
Proof.
  intros [Hnd Htl _ _]. apply NoDup_Permutation.
  - apply NoDup_map_to_list.
  - apply NoDup_fmap_2; [|done]. by intros p q [= _ ->].
  - intros [k p]. rewrite elem_of_map_to_list, Htl, list_elem_of_fmap. split.
    + intros [Hp <-]. by exists p.
    + intros (q & [= -> ->] & Hq). done.
Qed.

Lemma shardInv_size c i s : shardInv c i s → size (table s) = length (lst s).
Proof.
  intros Hs. rewrite <-length_map_to_list.
  rewrite (shardInv_map_to_list c i s Hs). apply length_fmap.
Qed.

(** X3.  After any keyed calls on a new cache (with any hook; the callbacks
    of [Update] keep the key of their entry), in every shard the list has
    no element twice, the index has as many keys as the list has elements,
    it maps a key to an element exactly when the element is in the list
    and its entry has that key, and every listed entry is in the shard its
    key is routed to. *)
Theorem index_agrees_with_list entrySize nshards ttl hook os c0 c i s :
  nshards < 2 ^ 63 →
  NewLRU entrySize nshards ttl = Ok c0 →
  Forall keepsKey os →
  execs (withOnRemove hook c0) os = Ok c →
  shards c !! i = Some s →
  NoDup (lst s)
  ∧ size (table s) = length (lst s)
  ∧ (∀ k p, table s !! k = Some p ↔ (p ∈ lst s) ∧ Key (entryAt c p) = k)
  ∧ (∀ p, p ∈ lst s → hashIndex c (Key (entryAt c p)) = i).
Proof.
  intros Hn HN Hos Hex Hs.
  pose proof (Inv_withOnRemove c0 hook (Inv_NewLRU _ _ _ _ Hn HN)) as HI0.
  destruct (execs_Inv os _ c HI0 Hos Hex) as [HI _].
  pose proof (Inv_shard c HI i s Hs) as Hsi.
  split; [apply Hsi|]. split; [by eapply shardInv_size|].
  split; apply Hsi.
Qed.

(** ** Remove *)

Lemma length_join_insert (ss : list lruShard) i s s' :
  ss !! i = Some s →
  (length (mjoin (lst <$> <[i := s']> ss)) + length (lst s)
   = length (mjoin (lst <$> ss)) + length (lst s'))%nat.
Proof.
  intros Hs. rewrite (insert_take_drop ss i s') by (by eapply lookup_lt_Some).
  rewrite <-(take_drop_middle ss i s Hs) at 3.
  rewrite !fmap_app, !fmap_cons, !join_app.
  change (mjoin (?a :: ?l)) with (a ++ mjoin l).
  rewrite !length_app. lia.
Qed.

(** X4.  [Remove] of a key that is in the index of a well-formed cache
    returns a well-formed cache without the key: a [Get] of it reports not
    found, the removal hook, if one is set, has been called once more, with
    the entry as it was, [Len] is one less, and every other key is bound
    as before to an entry that is as before.  [Remove] of a key that is not
    in the index returns the cache as it is. *)
Theorem Remove_takes_one_key_out c k :
  Inv c →
  (∀ p, slot c k = Some p →
     ∃ c', Remove c k = Ok c'
           ∧ Inv c'
           ∧ (∀ now, Get c' k now = Ok (c', (None, false)))
           ∧ fired c' = fired c ++ hookCalls c [entryAt c p]
           ∧ (∃ n, Len c = Ok (n + 1) ∧ Len c' = Ok n)
           ∧ ∀ k', k' ≠ k →
               slot c' k' = slot c k'
               ∧ ∀ q, slot c k' = Some q → entryAt c' q = entryAt c q)
  ∧ (slot c k = None → Remove c k = Ok c).
Proof.
  intros HI. pose proof (Inv_getShard c k HI) as Hgs.
  pose proof Hgs as (_ & _ & Hlt)%getShard_Ok.
  set (i := hashIndex c k) in *. split.
  - intros p Hp. destruct (slot_listed c k p HI Hp) as [Hel HK]. fold i in Hel.
    assert (HR : Remove c k = Ok (remove c i p)).
    { unfold Remove. rewrite Hgs. cbn. unfold slot in Hp. fold i in Hp.
      by rewrite Hp. }
    pose proof (Inv_remove c i p HI Hlt Hel) as HI'.
    exists (remove c i p). split; [done|]. split; [done|].
    assert (Hgone : slot (remove c i p) k = None).
    { rewrite slot_remove, decide_True by done. rewrite HK.
      apply lookup_delete_eq. }
    split; [|split; [apply fired_remove|split]].
    + intros now. apply (Get_miss _ _ (hashIndex (remove c i p) k)).
      * by apply Inv_getShard.
      * exact Hgone.
    + rewrite (Inv_Len c HI), (Inv_Len _ HI'). unfold stored.
      rewrite shards_remove.
      pose proof (length_join_insert (shards c) i (shardOf c i)
                    (mkShard (List_.Remove p (lst (shardOf c i)))
                       (delete (Key (entryAt c p)) (table (shardOf c i))))
                    (lookup_shardOf c i Hlt)) as Hlen.
      simpl in Hlen. pose proof (Remove_length p _ Hel) as Hrem.
      eexists. split; [|reflexivity]. f_equal. lia.
    + intros k' Hne. split.
      * rewrite slot_remove. case_decide as Hj; [|done].
        rewrite HK, lookup_delete_ne by done. destruct Hj as [Hj _].
        unfold slot, lruShard_get. by rewrite <-Hj.
      * intros q Hq. apply entryAt_remove_ne. intros Heq. subst q.
        destruct (slot_listed c k' p HI Hq) as [_ HK']. congruence.
  - intros Hnone. unfold Remove. rewrite Hgs. cbn.
    unfold slot in Hnone. fold i in Hnone. by rewrite Hnone.
Qed.

(** ** Deadlines *)

(** X5.  On a well-formed cache with a default TTL and room for at least
    one entry per shard, after [SetWithTTL(k, v, ttl)] with a TTL of its
    own has returned at time [t]: a [Get(k)] at a time up to [t + ttl]
    returns [(v, true)] and leaves the entry with the deadline of the
    default TTL; a [Get(k)] after [t + ttl] reports not found, takes the
    key out of the index and calls the removal hook, if one is set, with
    the entry. *)
Theorem Get_within_and_after_TTL c k v ttl t t' c1 :
  Inv c → TTL c ≠ NoExpiration → 1 ≤ eps c → ttl ≠ NoExpiration →
  SetWithTTL c k v ttl t = Ok c1 →
  (t' ≤ t + ttl →
   ∃ c2 p, Get c1 k t' = Ok (c2, (v, true))
           ∧ slot c2 k = Some p
           ∧ entryAt c2 p = mkEntry k v (Some (t' + TTL c)))
  ∧ (t + ttl < t' →
     ∃ c2, Get c1 k t' = Ok (c2, (None, false))
           ∧ slot c2 k = None
           ∧ fired c2 = fired c1 ++ hookCalls c1 [mkEntry k v (Some (t + ttl))]).
Proof.
  intros HI HT Heps Httl Hset.
  destruct (SetWithTTL_stores _ _ _ _ _ _ HI Heps Hset) as (i & p & Hgs & Hget & He).
  destruct (Inv_SetWithTTL _ _ _ _ _ _ HI Hset) as [HI1 (HT1 & _)].
  rewrite genExp_ttl in He by done.
  pose proof Hgs as (_ & Hi & Hlt)%getShard_Ok.
  split.
  - intros Hle. exists (looked_up c1 i p (genExp t' (TTL c1)).2), p.
    split; [|split].
    + rewrite (Get_hit c1 k i p t' Hgs Hget); [by rewrite He|].
      right. exists (t + ttl). rewrite He. split; [done|lia].
    + unfold slot, lruShard_get.
      change (hashIndex (looked_up c1 i p ?x) k) with (hashIndex c1 k).
      rewrite <-Hi, shardOf_looked_up. exact Hget.
    + rewrite entryAt_looked_up, He, HT1, genExp_ttl by done. done.
  - intros Hlt'. exists (remove c1 i p). split; [|split].
    + rewrite Get_unfold, Hgs. cbn.
      rewrite (getEntry_expired c1 i k p (t + ttl)); [done|congruence|done| |done].
      by rewrite He.
    + rewrite slot_remove, decide_True by done. rewrite He. simpl.
      apply lookup_delete_eq.
    + by rewrite fired_remove, He.
Qed.

(** ** Update *)

(** X6.  [Update] of a key whose entry passes the expiration check returns
    the entry, which is then the callback's result on the entry with its
    deadline refreshed; a [Get] that follows returns the value the
    callback left, provided the cache has no default TTL or the callback
    left a deadline that has not passed. *)
Theorem Get_after_Update c k cb i p now now' :
  getShard c k = Ok i → lruShard_get c i k = Some p → live c p now →
  let e' := cb (setExpiration (genExp now (TTL c)).2 (entryAt c p)) in
  (TTL c = NoExpiration ∨ ∃ d, Expiration e' = Some d ∧ ¬ d < now') →
  ∃ c1 c2, Update c k cb now = Ok (c1, Some p)
           ∧ entryAt c1 p = e'
           ∧ Get c1 k now' = Ok (c2, (Value e', true)).
Proof.
  intros Hgs Hget Hlive e' Hlive'.
  set (c1 := poke p cb (looked_up c i p (genExp now (TTL c)).2)).
  assert (He1 : entryAt c1 p = e').
  { subst c1. by rewrite entryAt_poke, entryAt_looked_up. }
  exists c1. eexists. split; [by apply Update_hit|]. split; [done|].
  rewrite (Get_hit c1 k i p now').
  - by rewrite He1.
  - rewrite <-Hgs. apply same_config_getShard.
    eapply same_config_trans; [apply same_config_looked_up|apply same_config_poke].
  - unfold lruShard_get. subst c1.
    change (shardOf (poke p cb ?x) i) with (shardOf x i).
    by rewrite shardOf_looked_up.
  - destruct Hlive' as [HT|(d & Hd & Hnot)]; [by left|].
    right. exists d. by rewrite He1.
Qed.

(** ** Flush *)

Lemma setShard_id c i s : shards c !! i = Some s → setShard i s c = c.
Proof.
  intros Hs. destruct c as [? ? ss ? ? ? ? ? ?]. unfold setShard, withShards.
  simpl in *. by rewrite list_insert_id.
Qed.

Lemma Flush_from_empty c n : ∀ i,
  (∀ j, (i ≤ j < i + n)%nat → shards c !! j = Some newShard) →
  Flush_from c n i = Ok c.
Proof.
  induction n as [|n IH]; intros i Hnew; simpl; [done|].
  assert (Hi : shards c !! i = Some newShard) by (apply Hnew; lia).
  unfold shardAt. rewrite decide_True by (by eapply lookup_lt_Some). cbn.
  rewrite (shardOf_lookup _ _ _ Hi), (setShard_id c i newShard Hi). simpl.
  apply IH. intros j Hj. apply Hnew. lia.
Qed.

(** X7.  [Flush] of a well-formed cache returns a well-formed cache that
    stores nothing: every [Get] reports not found and leaves it as it is,
    and a second [Flush] changes nothing and calls no hook. *)
Theorem Flush_leaves_nothing c :
  Inv c →
  ∃ c', Flush c = Ok c'
        ∧ Inv c'
        ∧ stored c' = []
        ∧ (∀ k now, Get c' k now = Ok (c', (None, false)))
        ∧ Flush c' = Ok c'.
Proof.
  intros HI. pose proof HI as [Hsz Hlen _ _ _].
  destruct (Flush_from_spec (Z.to_nat (shardSize c)) c 0 HI)
    as (c' & HF & HI' & Hcfg & Hnew & _); [lia|].
  assert (Hall : ∀ j, (j < length (shards c'))%nat →
                      shards c' !! j = Some newShard).
  { intros j Hj. apply Hnew. destruct Hcfg as (_&_&_&_&Hl). lia. }
  exists c'. split; [done|]. split; [done|]. split; [|split].
  - unfold stored. apply join_nil_2, Forall_fmap, Forall_lookup.
    intros j t Ht. pose proof (Hall j (lookup_lt_Some _ _ _ Ht)). simpl.
    by assert (t = newShard) as -> by congruence.
  - intros k now. pose proof (Inv_getShard c' k HI') as Hgs.
    apply (Get_miss _ _ _ _ Hgs).
    apply getShard_Ok in Hgs as (_ & _ & Hlt).
    unfold lruShard_get. by rewrite (shardOf_lookup _ _ _ (Hall _ Hlt)).
  - unfold Flush. apply Flush_from_empty. intros j Hj. apply Hall.
    destruct HI' as [_ Hlen' _ _ _]. lia.
Qed.

(** ** Which entry a write may evict *)

Lemma getEntry_spares c j k' now exp c1 r k p :
  Inv c → getShard c k' = Ok j → k' ≠ k → slot c k = Some p →
  getEntry c j k' now exp = Ok (c1, r) →
  slot c1 k = Some p ∧ entryAt c1 p = entryAt c p ∧ r ≠ Some p.
Proof.
  intros HI Hgs Hne Hp Hge.
  pose proof Hgs as (_ & Hroute & Hj)%getShard_Ok.
  assert (Hel : ∀ el, lruShard_get c j k' = Some el →
                      el ≠ p ∧ Key (entryAt c el) = k').
  { intros el Hget.
    destruct (Inv_get_listed c j k' el HI Hj Hget) as (_ & HK & _).
    split; [|done]. intros ->.
    destruct (slot_listed c k p HI Hp) as [_ HK']. congruence. }
  destruct r as [q|].
  - apply getEntry_Some_inv in Hge as [Hget ->].
    destruct (Hel q Hget) as [Hqp _].
    fold (looked_up c j q exp). split; [|split].
    + unfold slot, lruShard_get.
      change (hashIndex (looked_up c j q exp) k) with (hashIndex c k).
      by rewrite shardOf_looked_up.
    + unfold looked_up.
      change (entryAt (lruShard_offer ?x j q) p) with (entryAt x p).
      by apply entryAt_poke_ne.
    + by intros [= ->].
  - apply getEntry_None_inv in Hge as [[_ ->]|(el & Hget & ->)]; [done|].
    destruct (Hel el Hget) as [Hqp HK]. split; [|split; [|done]].
    + rewrite slot_remove. case_decide as Hjk; [|done].
      destruct Hjk as [-> _]. rewrite HK, lookup_delete_ne by done. exact Hp.
    + by apply entryAt_remove_ne.
Qed.

Lemma enforce_spares c j c' k p :
  Inv c → (j < length (shards c))%nat → slot c k = Some p →
  lruShard_len c j ≤ eps c ∨ List_.Back (lst (shardOf c j)) ≠ Some p →
  enforce c j = Ok c' →
  slot c' k = Some p ∧ entryAt c' p = entryAt c p.
Proof.
  intros HI Hj Hp Hsafe. unfold enforce. case_decide as Hover.
  - destruct Hsafe as [?|Hback]; [lia|].
    destruct (lruShard_oldest c j) as [el|] eqn:Hold; [|done].
    intros [= <-]. unfold lruShard_oldest in Hold.
    assert (Hne : el ≠ p) by (intros ->; done).
    destruct (listed_slot c j el HI Hj (Back_elem_of _ _ Hold)) as [_ Hslot].
    split; [|by apply entryAt_remove_ne].
    rewrite slot_remove. case_decide as Hjk; [|done]. destruct Hjk as [-> _].
    rewrite lookup_delete_ne; [done|].
    intros HK. rewrite HK in Hslot. congruence.
  - by intros [= <-].
Qed.

Lemma write_evicts_only_the_oldest_aux c k p k' v ttl now c' :
  Inv c → bounded c → k' ≠ k → slot c k = Some p →
  List_.Back (lst (shardOf c (hashIndex c k))) ≠ Some p
  ∨ lruShard_len c (hashIndex c k) < eps c →
  SetWithTTL c k' v ttl now = Ok c' →
  slot c' k = Some p ∧ entryAt c' p = entryAt c p.
Proof.
  intros HI Hb Hne Hp Hsafe. rewrite SetWithTTL_unfold.
  destruct (getShard c k') as [j|] eqn:Hgs; cbn; [|done].
  pose proof Hgs as (_ & Hroute & Hj)%getShard_Ok.
  destruct (getEntry _ _ _ _ _) as [[c1 found]|] eqn:Hge; cbn; [|done].
  destruct (Inv_getEntry _ _ _ _ _ _ _ HI Hj Hge) as (HI1 & Hcfg1).
  destruct (getEntry_spares _ _ _ _ _ _ _ _ _ HI Hgs Hne Hp Hge)
    as (Hp1 & He1 & Hfound).
  assert (Hj1 : (j < length (shards c1))%nat).
  { destruct Hcfg1 as (_&_&_&_&->). done. }
  destruct found as [entry|].
  - intros [= <-]. split; [done|].
    rewrite entryAt_poke_ne; [done|]. intros ->. done.
  - pose proof (getEntry_None_miss _ _ _ _ _ _ HI Hj Hge) as Hmiss.
    destruct (inserted c1 j k' v ttl _) as [c5 q] eqn:Hins. cbn [fst].
    assert (Hr1 : hashIndex c1 k' = j).
    { rewrite Hroute. unfold hashIndex. by destruct Hcfg1 as (_&_&->&_). }
    assert (Hexp : ttl = NoExpiration → (genExp now ttl).2 = None)
      by (by intros ->).
    destruct (inserted_spec _ _ _ _ _ _ _ _ HI1 Hj1 Hr1 Hmiss Hexp Hins)
      as (HI5 & Hcfg5 & _ & Hsh5 & _ & Hother5 & Hq).
    assert (Hj5 : (j < length (shards c5))%nat).
    { destruct Hcfg5 as (_&_&_&_&->). done. }
    destruct (slot_listed c1 k p HI1 Hp1) as [Hpl1 _].
    pose proof (Inv_getShard c1 k HI1) as (_ & _ & Hlt1)%getShard_Ok.
    assert (Hqp : p ≠ q).
    { intros ->. by apply (Hq _ _ (lookup_shardOf c1 _ Hlt1)). }
    assert (Hp5 : slot c5 k = Some p).
    { rewrite (slot_same_shards
                 (setShard j (mkShard (q :: lst (shardOf c1 j))
                                      (<[k' := q]> (table (shardOf c1 j)))) c1)
                 c5 k); [|by destruct Hcfg5 as (_&_&?&_)|exact Hsh5].
      rewrite slot_setShard. case_decide as Hjk; [|done].
      destruct Hjk as [-> _]. simpl. by rewrite lookup_insert_ne. }
    assert (Hl5 : lst (shardOf c5 j) = q :: lst (shardOf c1 j)).
    { unfold shardOf at 1. rewrite Hsh5.
      by rewrite list_lookup_total_insert_eq. }
    intros Henf.
    destruct (enforce_spares c5 j c' k p HI5 Hj5 Hp5) as [Hp' He']; [|done|].
    + (* the shard of [k'] after the insertion *)
      assert (Heps5 : eps c5 = eps c).
      { destruct Hcfg5 as (_&_&_&->&_). by destruct Hcfg1 as (_&_&_&->&_). }
      assert (Hi1 : hashIndex c1 k = hashIndex c k).
      { unfold hashIndex. by destruct Hcfg1 as (_&_&->&_). }
      destruct (decide (j = hashIndex c k)) as [Hjk|Hjk].
      * apply getEntry_None_inv in Hge as [[_ ->]|(el & Hget & ->)].
        -- (* miss: the list of the shard is as before *)
           destruct Hsafe as [Hback|Hroom].
           ++ right. rewrite Hl5, Hjk.
              destruct (lst (shardOf c (hashIndex c k))) as [|x l] eqn:Hl.
              ** simpl. by intros [= ->].
              ** intros Hb5. apply Hback. unfold List_.Back in *.
                 by rewrite last_cons_cons in Hb5.
           ++ left. unfold lruShard_len, List_.Len in *. rewrite Hl5, Heps5.
              rewrite Hjk. simpl. lia.
        -- (* expired: one element left and one came *)
           left. unfold lruShard_len, List_.Len. rewrite Hl5, Heps5.
           unfold shardOf. rewrite shards_remove.
           rewrite list_lookup_total_insert_eq by done. simpl.
           destruct (Inv_get_listed c j k' el HI Hj Hget) as (Hel & _ & _).
           pose proof (Remove_length el _ Hel) as Hrem.
           pose proof (Hb j _ (lookup_shardOf c j Hj)) as Hbj.
           unfold List_.Len in Hbj. lia.
      * (* another shard: its elements are not the entry of [k] *)
        right. intros Hback%Back_elem_of. apply Hjk.
        rewrite <-Hi1.
        assert (Hp5l : p ∈ lst (shardOf c5 (hashIndex c1 k))).
        { destruct (slot_listed c5 k p HI5 Hp5) as [Hin _].
          replace (hashIndex c5 k) with (hashIndex c1 k) in Hin; [done|].
          unfold hashIndex. by destruct Hcfg5 as (_&_&->&_). }
        assert (Hlt5 : (hashIndex c1 k < length (shards c5))%nat).
        { destruct Hcfg5 as (_&_&_&_&->). done. }
        apply (Inv_listed_once c5 j (hashIndex c1 k) _ _ p HI5
                 (lookup_shardOf c5 j Hj5) (lookup_shardOf c5 _ Hlt5) Hback Hp5l).
    + split; [done|]. rewrite He', <-He1. by apply Hother5.
Qed.

(** X8.  A write of another key takes [k] out of the index only from the
    back of a full shard: in a well-formed cache within the per-shard
    bound, if the entry of [k] is not at the back of the list of its
    shard, or the shard is below its bound, then after [SetWithTTL] of any
    other key [k] is bound to the same entry, which is as it was. *)
Theorem write_evicts_only_the_oldest c k p k' v ttl now c' :
  Inv c → bounded c → k' ≠ k → slot c k = Some p →
  List_.Back (lst (shardOf c (hashIndex c k))) ≠ Some p
  ∨ lruShard_len c (hashIndex c k) < eps c →
  SetWithTTL c k' v ttl now = Ok c' →
  slot c' k = Some p ∧ entryAt c' p = entryAt c p.
Proof. apply write_evicts_only_the_oldest_aux. Qed.

(** The entry at the front of a list of two elements or more is not at its
    back. *)
Lemma front_not_Back (p : ptr) l :
  NoDup (p :: l) → l ≠ [] → List_.Back (p :: l) ≠ Some p.
Proof.
  intros [Hp _]%NoDup_cons Hl Hback. destruct l as [|x l]; [done|].
  unfold List_.Back in Hback. rewrite last_cons_cons in Hback.
  apply Hp. by apply (Back_elem_of (x :: l)).
Qed.

Lemma front_spared c k p l k' v ttl now c' :
  Inv c → bounded c → 2 ≤ eps c → k' ≠ k →
  slot c k = Some p → lst (shardOf c (hashIndex c k)) = p :: l →
  SetWithTTL c k' v ttl now = Ok c' →
  slot c' k = Some p ∧ entryAt c' p = entryAt c p.
Proof.
  intros HI Hb Heps Hne Hp Hl.
  apply write_evicts_only_the_oldest_aux; try done.
  pose proof (Inv_getShard c k HI) as (_ & _ & Hlt)%getShard_Ok.
  destruct (Inv_shardOf c _ HI Hlt) as [Hnd _ _ _]. rewrite Hl in *.
  destruct l as [|x l'].
  - right. unfold lruShard_len, List_.Len. rewrite Hl. simpl. lia.
  - left. by apply front_not_Back.
Qed.

(** After a write that returns, with room for an entry, the key is bound to
    the entry at the front of the list of its shard. *)
Lemma SetWithTTL_front c k v ttl now c' :
  Inv c → 1 ≤ eps c → SetWithTTL c k v ttl now = Ok c' →
  ∃ p l, slot c' k = Some p ∧ lst (shardOf c' (hashIndex c' k)) = p :: l.
Proof.
  intros HI Heps Hset. pose proof Hset as Hset'.
  rewrite SetWithTTL_unfold in Hset.
  pose proof (Inv_getShard c k HI) as Hgs. rewrite Hgs in Hset. cbn in Hset.
  pose proof Hgs as (_ & _ & Hlt)%getShard_Ok.
  destruct (Inv_SetWithTTL _ _ _ _ _ _ HI Hset') as [HI' Hcfg'].
  assert (Hi' : hashIndex c' k = hashIndex c k).
  { unfold hashIndex. by destruct Hcfg' as (_&_&->&_). }
  rewrite Hi'. set (i := hashIndex c k) in *.
  destruct (getEntry _ _ _ _ _) as [[c1 found]|] eqn:Hge; cbn in Hset; [|done].
  destruct (Inv_getEntry _ _ _ _ _ _ _ HI Hlt Hge) as (HI1 & Hcfg1).
  assert (Hlt1 : (i < length (shards c1))%nat).
  { destruct Hcfg1 as (_&_&_&_&->). done. }
  assert (Hi1 : hashIndex c1 k = i).
  { subst i. unfold hashIndex. by destruct Hcfg1 as (_&_&->&_). }
  destruct found as [entry|].
  - injection Hset as <-. apply getEntry_Some_inv in Hge as [Hget ->].
    fold (looked_up c i entry (genExp now ttl).2) in *.
    destruct (Inv_get_listed c i k entry HI Hlt Hget) as (Hel & _ & _).
    exists entry, (List_.Remove entry (lst (shardOf c i))). split.
    + unfold slot, lruShard_get. rewrite Hi'.
      change (shardOf (poke entry (setValue v) ?x) ?j) with (shardOf x j).
      by rewrite shardOf_looked_up.
    + change (shardOf (poke entry (setValue v) ?x) ?j) with (shardOf x j).
      by apply lst_looked_up.
  - pose proof (getEntry_None_miss _ _ _ _ _ _ HI Hlt Hge) as Hmiss.
    destruct (inserted c1 i k v ttl _) as [c5 q] eqn:Hins. cbn [fst] in Hset.
    assert (Hexp : ttl = NoExpiration → (genExp now ttl).2 = None)
      by (by intros ->).
    destruct (inserted_spec _ _ _ _ _ _ _ _ HI1 Hlt1 Hi1 Hmiss Hexp Hins)
      as (HI5 & Hcfg5 & _ & Hsh5 & He5 & _ & _).
    assert (Hlt5 : (i < length (shards c5))%nat).
    { destruct Hcfg5 as (_&_&_&_&->). done. }
    assert (Hl5 : lst (shardOf c5 i) = q :: lst (shardOf c1 i)).
    { unfold shardOf at 1. rewrite Hsh5.
      by rewrite list_lookup_total_insert_eq. }
    assert (Heps5 : 1 ≤ eps c5).
    { destruct Hcfg5 as (_&_&_&->&_). by destruct Hcfg1 as (_&_&_&->&_). }
    destruct (enforce_keeps_front c5 i q _ HI5 Hlt5 Hl5 Heps5)
      as (c6 & Henf & _ & _ & Hget6 & _).
    rewrite Hset in Henf. injection Henf as <-.
    rewrite He5 in Hget6. simpl in Hget6.
    exists q. unfold slot. rewrite Hi'. 
    unfold enforce in Hset. case_decide as Hover.
    + destruct (lruShard_oldest c5 i) as [el|] eqn:Hold; [|done].
      injection Hset as <-. eexists. split; [done|].
      unfold shardOf at 1. rewrite shards_remove.
      rewrite list_lookup_total_insert_eq by done. simpl. rewrite Hl5.
      simpl. rewrite decide_False; [done|].
      intros Heq. subst el. unfold lruShard_oldest in Hold. rewrite Hl5 in Hold.
      destruct (Inv_shardOf c5 i HI5 Hlt5) as [Hnd _ _ _]. rewrite Hl5 in Hnd.
      apply (front_not_Back q _ Hnd); [|done].
      intros Hnil. unfold lruShard_len, List_.Len in Hover.
      rewrite Hl5, Hnil in Hover. simpl in Hover. lia.
    + injection Hset as <-. eexists. by split.
Qed.

(** X9.  In a well-formed cache within the per-shard bound, with room for
    at least two entries per shard, the key last read or last written is
    not the one the next write evicts: after a [Get] that found [k], or a
    [SetWithTTL] of [k], a [SetWithTTL] of another key leaves [k] bound to
    its entry, which is as the read or the write left it. *)
Theorem last_used_key_survives_next_write c k k' v' ttl' now' :
  Inv c → bounded c → 2 ≤ eps c → k' ≠ k →
  (∀ now c1 r c2,
     Get c k now = Ok (c1, (r, true)) →
     SetWithTTL c1 k' v' ttl' now' = Ok c2 →
     ∃ p, slot c1 k = Some p ∧ slot c2 k = Some p
          ∧ entryAt c2 p = entryAt c1 p ∧ Value (entryAt c2 p) = r)
  ∧ (∀ v ttl now c1 c2,
       SetWithTTL c k v ttl now = Ok c1 →
       SetWithTTL c1 k' v' ttl' now' = Ok c2 →
       ∃ p, slot c2 k = Some p
            ∧ entryAt c2 p = mkEntry k v (genExp now ttl).2).
Proof.
  intros HI Hb Heps Hne. split.
  - intros now c1 r c2 HG Hset.
    destruct (Inv_Get c k now c1 _ HI HG) as [HI1 Hcfg1].
    assert (Hb1 : bounded c1).
    { by destruct (exec_bounded c (CallGet k now) c1 Hb) as [? _];
        [simpl; rewrite HG|]. }
    rewrite Get_unfold in HG.
    pose proof (Inv_getShard c k HI) as Hgs. rewrite Hgs in HG. cbn in HG.
    pose proof Hgs as (_ & _ & Hlt)%getShard_Ok.
    destruct (getEntry _ _ _ _ _) as [[c1' [p|]]|] eqn:Hge; cbn in HG; [|done..].
    injection HG as -> <-.
    apply getEntry_Some_inv in Hge as [Hget ->].
    fold (looked_up c (hashIndex c k) p (genExp now (TTL c)).2) in *.
    set (c1 := looked_up c (hashIndex c k) p (genExp now (TTL c)).2) in *.
    destruct (Inv_get_listed c _ k p HI Hlt Hget) as (Hel & _ & _).
    assert (Hp1 : slot c1 k = Some p).
    { unfold slot, lruShard_get. subst c1.
      change (hashIndex (looked_up c ?i p ?x) k) with (hashIndex c k).
      by rewrite shardOf_looked_up. }
    assert (Hl1 : lst (shardOf c1 (hashIndex c1 k))
                  = p :: List_.Remove p (lst (shardOf c (hashIndex c k)))).
    { subst c1. by apply lst_looked_up. }
    assert (Heps1 : 2 ≤ eps c1) by (destruct Hcfg1 as (_&_&_&->&_); done).
    destruct (front_spared c1 k p _ k' v' ttl' now' c2 HI1 Hb1 Heps1 Hne Hp1 Hl1 Hset)
      as [Hp2 He2].
    exists p. by rewrite He2.
  - intros v ttl now c1 c2 Hset1 Hset2.
    destruct (Inv_SetWithTTL _ _ _ _ _ _ HI Hset1) as [HI1 Hcfg1].
    pose proof (SetWithTTL_bounded _ _ _ _ _ _ Hb Hset1) as Hb1.
    assert (Heps1 : 2 ≤ eps c1) by (destruct Hcfg1 as (_&_&_&->&_); done).
    destruct (SetWithTTL_front c k v ttl now c1 HI) as (p & l & Hp1 & Hl1);
      [lia|done|].
    pose proof (SetWithTTL_slot c k v ttl now c1 p HI Hset1 Hp1) as He1.
    destruct (front_spared c1 k p l k' v' ttl' now' c2 HI1 Hb1 Heps1 Hne Hp1 Hl1 Hset2)
      as [Hp2 He2].
    exists p. split; [done|congruence].
Qed.

(** ** Load *)

Lemma Load_err r : ∀ c c' err,
  Load c r = Ok (c', err) → err = true ↔ DecodeFailure ∈ r.
Proof.
  induction r as [|[e|] r IH]; intros c c' err; cbn [Load].
  - intros [= _ <-]. split; [done|]. by intros ?%elem_of_nil.
  - destruct (alloc e c) as [c1 entry].
    destruct (getShard c1 _) as [i|]; cbn; [|done].
    intros HL%IH. rewrite HL, elem_of_cons. split; [by right|].
    by intros [?|?].
  - intros [= _ <-]. split; [by left|done].
Qed.

Lemma slot_lruShard_add c j p k :
  (j < length (shards c))%nat → hashIndex c (Key (entryAt c p)) = j →
  slot (lruShard_add c j p) k
  = if decide (Key (entryAt c p) = k) then Some p else slot c k.
Proof.
  intros Hj Hroute. unfold lruShard_add. rewrite slot_setShard. simpl.
  destruct (decide (Key (entryAt c p) = k)) as [HK|HK].
  - subst k. rewrite decide_True by done. apply lookup_insert_eq.
  - case_decide as Hjk; [|done]. rewrite lookup_insert_ne by done.
    destruct Hjk as [Hjk _]. by rewrite Hjk.
Qed.

(** X10.  [Load] into a well-formed cache returns a well-formed cache and
    reports an error exactly when the stream has a record that does not
    decode.  A key that was not in the index is bound afterwards to the
    first record of the stream with that key that comes before any such
    record (later records with the key are dropped), and is still not in
    the index when there is none. *)
Theorem Load_inserts_first_record r : ∀ c k,
  Inv c → slot c k = None →
  ∃ c' err,
    Load c r = Ok (c', err)
    ∧ Inv c'
    ∧ (err = true ↔ DecodeFailure ∈ r)
    ∧ match firstRecord k r with
      | Some e => ∃ p, slot c' k = Some p ∧ entryAt c' p = e
      | None => slot c' k = None
      end.
Proof.
  induction r as [|[e|] r IH]; intros c k HI Hnone; cbn [Load firstRecord].
  - exists c, false. split; [done|]. split; [done|]. split; [|done].
    split; [done|]. by intros ?%elem_of_nil.
  - destruct (Inv_alloc c e HI) as (HI1 & Hf1 & Hb1 & He1).
    assert (Hcfg1 : same_config c (alloc e c).1) by done.
    assert (Hsh1 : shards (alloc e c).1 = shards c) by done.
    assert (Hbrk1 : (alloc e c).2 = brk c) by done.
    destruct (alloc e c) as [c1 entry]. cbn [fst snd] in *. subst entry.
    rewrite (Inv_getShard c1 _ HI1). cbn.
    set (j := hashIndex c1 (Key (entryAt c1 (brk c)))).
    assert (Hj : (j < length (shards c1))%nat).
    { by pose proof (Inv_getShard c1 (Key (entryAt c1 (brk c))) HI1)
        as (_ & _ & ?)%getShard_Ok. }
    assert (Hnone1 : slot c1 k = None).
    { rewrite <-Hnone. apply slot_same_shards; [apply Hcfg1|done]. }
    assert (Herr : ∀ err, err = true ↔ DecodeFailure ∈ r →
              err = true ↔ DecodeFailure ∈ Record_ e :: r).
    { intros err ->. rewrite elem_of_cons. split; [by right|].
      by intros [?|?]. }
    unfold lruShard_putIfAbsent.
    destruct (decide (Key e = k)) as [HK|HK].
    + (* the first record with the key: it is attached and stays *)
      assert (Hmiss : table (shardOf c1 j) !! Key (entryAt c1 (brk c)) = None).
      { unfold slot, lruShard_get in Hnone1. subst j. by rewrite He1, HK. }
      rewrite Hmiss.
      assert (HI2 : Inv (lruShard_add c1 j (brk c)))
        by (by apply Inv_lruShard_add).
      destruct (Load_additive r _ HI2)
        as (c' & err & HL' & Hcfg & Htab & Hheap & _).
      exists c', err. split; [done|].
      split; [by apply (Inv_Load r _ c' err HI2)|].
      split; [apply Herr, (Load_err r _ c' err HL')|].
      exists (brk c). split.
      * assert (Hs2 : slot (lruShard_add c1 j (brk c)) k = Some (brk c)).
        { rewrite slot_lruShard_add by done. rewrite He1.
          by rewrite decide_True. }
        unfold slot, lruShard_get in *.
        replace (hashIndex c' k)
          with (hashIndex (lruShard_add c1 j (brk c)) k)
          by (unfold hashIndex; by destruct Hcfg as (_&_&->&_)).
        by apply Htab.
      * rewrite Hheap by done. exact He1.
    + (* a record with another key *)
      set (c2 := match table (shardOf c1 j) !! Key (entryAt c1 (brk c)) with
                 | Some _ => c1
                 | None => lruShard_add c1 j (brk c)
                 end).
      assert (H2 : Inv c2 ∧ slot c2 k = None).
      { subst c2.
        destruct (table (shardOf c1 j) !! Key (entryAt c1 (brk c))) eqn:Hmiss;
          [done|].
        split; [by apply Inv_lruShard_add|].
        rewrite slot_lruShard_add by done. rewrite He1.
        by rewrite decide_False. }
      destruct H2 as [HI2 Hnone2].
      destruct (IH c2 k HI2 Hnone2) as (c' & err & HL' & HI' & Herr' & Hfirst).
      exists c', err. split; [done|]. split; [done|]. split; [|done].
      by apply Herr.
  - exists c, true. split; [done|]. split; [done|]. split; [|done].
    split; [by left|done].
Qed.

(** ** Iter and Keys *)

Lemma elem_of_stored c p :
  p ∈ stored c ↔ ∃ j, (j < length (shards c))%nat ∧ p ∈ lst (shardOf c j).
Proof.
  unfold stored. rewrite list_elem_of_join. split.
  - intros (l & Hp & Hl). apply list_elem_of_fmap in Hl as (s & -> & Hs).
    apply list_elem_of_lookup in Hs as [j Hj]. exists j.
    split; [by eapply lookup_lt_Some|]. by rewrite (shardOf_lookup _ _ _ Hj).
  - intros (j & Hj & Hp). exists (lst (shardOf c j)). split; [done|].
    apply list_elem_of_fmap. exists (shardOf c j). split; [done|].
    eapply list_elem_of_lookup_2. by apply lookup_shardOf.
Qed.

Lemma stored_slot c p :
  Inv c → p ∈ stored c → slot c (Key (entryAt c p)) = Some p.
Proof.
  intros HI (j & Hj & Hp)%elem_of_stored.
  by destruct (listed_slot c j p HI Hj Hp).
Qed.

Lemma slot_stored c k p : Inv c → slot c k = Some p → p ∈ stored c.
Proof.
  intros HI Hp. apply elem_of_stored. exists (hashIndex c k).
  pose proof (Inv_getShard c k HI) as (_ & _ & Hlt)%getShard_Ok.
  split; [done|]. by destruct (slot_listed c k p HI Hp).
Qed.

Lemma Permutation_join_fmap {A B} (f g : A → list B) (l : list A) :
  (∀ x, x ∈ l → f x ≡ₚ g x) → mjoin (f <$> l) ≡ₚ mjoin (g <$> l).
Proof.
  induction l as [|x l IH]; intros Hfg; [done|].
  rewrite !fmap_cons. change (mjoin (?a :: ?l)) with (a ++ mjoin l).
  apply Permutation_app; [apply Hfg; by left|].
  apply IH. intros y Hy. apply Hfg. by right.
Qed.

Lemma Iter_from_spec c n : ∀ i sent,
  (i + n ≤ length (shards c))%nat →
  Iter_from c n i sent
  = Ok (sent ++ mjoin ((λ s, reverse (lst s)) <$> take n (drop i (shards c)))).
Proof.
  induction n as [|n IH]; intros i sent Hle; simpl.
  - by rewrite app_nil_r.
  - unfold shardAt. rewrite decide_True by lia. cbn.
    rewrite IH by lia. f_equal.
    assert (Hi : (i < length (shards c))%nat) by lia.
    rewrite (drop_S _ _ _ (lookup_shardOf c i Hi)).
    rewrite firstn_cons, fmap_cons.
    change (mjoin (?a :: ?l)) with (a ++ mjoin l).
    by rewrite <-app_assoc.
Qed.

Lemma Inv_Iter c :
  Inv c → Iter c = Ok (mjoin ((λ s, reverse (lst s)) <$> shards c)).
Proof.
  intros [_ Hlen _ _ _]. unfold Iter. rewrite Iter_from_spec by (simpl; lia).
  by rewrite drop_0, take_ge by lia.
Qed.

Lemma Iter_stored c :
  mjoin ((λ s, reverse (lst s)) <$> shards c) ≡ₚ stored c.
Proof.
  unfold stored. apply Permutation_join_fmap. intros s _.
  apply reverse_Permutation.
Qed.

Lemma Iter_keys_NoDup c :
  Inv c →
  NoDup ((λ p, Key (entryAt c p))
           <$> mjoin ((λ s, reverse (lst s)) <$> shards c)).
Proof.
  intros HI. pose proof (Iter_stored c) as Hperm.
  apply NoDup_fmap_2_strong; [|rewrite Hperm; by apply Inv_stored_NoDup].
  intros p q Hp Hq HK. rewrite Hperm in Hp, Hq.
  apply (stored_slot c _ HI) in Hp, Hq. congruence.
Qed.

(** X11.  [Iter] on a well-formed cache sends the entries shard by shard
    in index order and, within a shard, from the back of its list to the
    front, that is from the least to the most recently used; every entry
    the cache holds is sent exactly once, so as many as [Len] counts, and
    no two of them have the same key. *)
Theorem Iter_sends_each_entry_once c :
  Inv c →
  ∃ sent,
    Iter c = Ok sent
    ∧ sent = mjoin ((λ s, reverse (lst s)) <$> shards c)
    ∧ NoDup sent
    ∧ (∀ p, p ∈ sent ↔ slot c (Key (entryAt c p)) = Some p)
    ∧ NoDup ((λ p, Key (entryAt c p)) <$> sent)
    ∧ Len c = Ok (Z.of_nat (length sent)).
Proof.
  intros HI. eexists. split; [by apply Inv_Iter|]. split; [done|].
  pose proof (Iter_stored c) as Hperm.
  assert (Hnd : NoDup (mjoin ((λ s, reverse (lst s)) <$> shards c))).
  { rewrite Hperm. by apply Inv_stored_NoDup. }
  split; [done|]. split; [|split].
  - intros p. rewrite Hperm. split; [by apply stored_slot|].
    by apply slot_stored.
  - by apply Iter_keys_NoDup.
  - rewrite Hperm. by apply Inv_Len.
Qed.

Lemma Keys_from_spec c n : ∀ i keys out,
  Inv c → (i + n ≤ length (shards c))%nat →
  Keys_from c n i keys out →
  out ≡ₚ keys ++ ((λ p, Key (entryAt c p))
                   <$> mjoin (lst <$> take n (drop i (shards c)))).
Proof.
  induction n as [|n IH]; intros i keys out HI Hle; simpl.
  - intros ->. by rewrite app_nil_r.
  - intros (ks & _ & Hks & Hrest). apply IH in Hrest; [|done|lia].
    rewrite Hrest.
    assert (Hi : (i < length (shards c))%nat) by lia.
    rewrite (drop_S _ _ _ (lookup_shardOf c i Hi)).
    rewrite firstn_cons, fmap_cons.
    change (mjoin (?a :: ?l)) with (a ++ mjoin l).
    rewrite fmap_app, <-app_assoc.
    apply Permutation_app; [done|]. apply Permutation_app; [|done].
    unfold ranges in Hks. rewrite Hks.
    rewrite (shardInv_map_to_list c i _ (Inv_shardOf c i HI Hi)).
    by rewrite <-list_fmap_compose.
Qed.

Lemma Keys_from_total c n : ∀ i keys,
  (i + n ≤ length (shards c))%nat → ∃ out, Keys_from c n i keys out.
Proof.
  induction n as [|n IH]; intros i keys Hle; simpl.
  - by exists keys.
  - destruct (IH (S i) (keys ++ (map_to_list (table (shardOf c i))).*1))
      as [out Hout]; [lia|].
    exists out, ((map_to_list (table (shardOf c i))).*1).
    split; [|split; [by unfold ranges|done]].
    unfold shardAt. by rewrite decide_True by lia.
Qed.

(** X12.  [Keys] on a well-formed cache returns, and whatever order the
    map iteration takes, the slice it returns has every key of the index
    exactly once and nothing else; its length is what [Len] returns. *)
Theorem Keys_lists_each_key_once c :
  Inv c →
  (∃ out, Keys c out)
  ∧ ∀ out, Keys c out →
      NoDup out
      ∧ (∀ k, k ∈ out ↔ is_Some (slot c k))
      ∧ Len c = Ok (Z.of_nat (length out)).
Proof.
  intros HI. pose proof HI as [_ Hlen _ _ _].
  split; [apply Keys_from_total; simpl; lia|].
  intros out Hout. apply Keys_from_spec in Hout; [|done|simpl; lia].
  rewrite drop_0, take_ge, app_nil_l in Hout by lia.
  fold (stored c) in Hout. split; [|split].
  - rewrite Hout. apply NoDup_fmap_2_strong; [|by apply Inv_stored_NoDup].
    intros p q Hp Hq HK.
    apply (stored_slot c _ HI) in Hp, Hq. congruence.
  - intros k. rewrite Hout, list_elem_of_fmap. split.
    + intros (p & -> & Hp). exists p. by apply stored_slot.
    + intros [p Hp]. exists p. split; [|by eapply slot_stored].
      by destruct (slot_listed c k p HI Hp).
  - rewrite Hout, length_fmap. by apply Inv_Len.
Qed.

(** ** Save, then Load *)

Lemma Save_loop_spec encodes c entries : ∀ w,
  (∀ p, p ∈ entries → encodes (entryAt c p) = true) →
  Save_loop encodes c entries w
  = Some (w ++ (Record_ <$> (entryAt c <$> entries))).
Proof.
  induction entries as [|p entries IH]; intros w Henc; simpl.
  - by rewrite app_nil_r.
  - rewrite Henc by (by left). rewrite IH by (intros q Hq; apply Henc; by right).
    by rewrite <-app_assoc.
Qed.

Lemma content_out_of_range c i :
  (length (shards c) ≤ i)%nat → content c i = [].
Proof.
  intros Hi. unfold content, shardOf.
  by rewrite list_lookup_total_alt, lookup_ge_None_2.
Qed.

Lemma content_lruShard_add c j p i :
  (j < length (shards c))%nat →
  content (lruShard_add c j p) i
  = if decide (i = j) then entryAt c p :: content c i else content c i.
Proof.
  intros Hj. unfold content, lruShard_add, shardOf.
  change (entryAt (setShard ?a ?b c)) with (entryAt c). simpl.
  case_decide as Hij.
  - subst i. by rewrite list_lookup_total_insert_eq.
  - by rewrite list_lookup_total_insert_ne.
Qed.

Lemma content_alloc c e i :
  Inv c → (i < length (shards c))%nat → content (alloc e c).1 i = content c i.
Proof.
  intros HI Hi. unfold content.
  change (shardOf (alloc e c).1 i) with (shardOf c i).
  apply Forall_fmap_ext_1, Forall_forall. intros q Hq.
  destruct (lst_owned _ _ _ (Inv_shardOf c i HI Hi) q Hq) as [_ Hlt].
  unfold entryAt. simpl. rewrite lookup_total_insert_ne; [done|lia].
Qed.

(** The entries of a shard and its index. *)
Lemma slot_content c k :
  Inv c →
  match slot c k with
  | Some p => entryAt c p ∈ content c (hashIndex c k) ∧ Key (entryAt c p) = k
  | None => ∀ e, e ∈ content c (hashIndex c k) → Key e ≠ k
  end.
Proof.
  intros HI. pose proof (Inv_getShard c k HI) as (_ & _ & Hlt)%getShard_Ok.
  destruct (slot c k) as [p|] eqn:Hp.
  - destruct (slot_listed c k p HI Hp) as [Hin HK]. split; [|done].
    by apply list_elem_of_fmap_2.
  - intros e (q & -> & Hq)%list_elem_of_fmap HK.
    destruct (listed_slot c _ q HI Hlt Hq) as [_ Hs]. congruence.
Qed.

(** Records with distinct keys, none of them in the index, are all
    attached, each at the front of its shard. *)
Lemma Load_fresh_records es : ∀ c (route : string → nat),
  Inv c → (∀ k, route k = hashIndex c k) →
  NoDup (Key <$> es) → (∀ e, e ∈ es → slot c (Key e) = None) →
  ∃ c',
    Load c (Record_ <$> es) = Ok (c', false) ∧ Inv c' ∧ same_config c c'
    ∧ ∀ i, (i < length (shards c))%nat →
        content c' i
        = reverse (filter (λ e, route (Key e) = i) es) ++ content c i.
Proof.
  induction es as [|e es IH]; intros c route HI Hroute Hnd Hfresh.
  - exists c. split; [done|]. split; [done|].
    split; [apply same_config_refl|done].
  - rewrite fmap_cons in *. cbn [Load].
    apply NoDup_cons in Hnd as [Hne Hnd].
    destruct (Inv_alloc c e HI) as (HI1 & Hf1 & Hb1 & He1).
    assert (Hcfg1 : same_config c (alloc e c).1) by done.
    assert (Hsh1 : shards (alloc e c).1 = shards c) by done.
    assert (Hbrk1 : (alloc e c).2 = brk c) by done.
    pose proof (λ i, content_alloc c e i HI) as Hcont1.
    destruct (alloc e c) as [c1 entry]. cbn [fst snd] in *. subst entry.
    rewrite (Inv_getShard c1 _ HI1). cbn.
    set (j := hashIndex c1 (Key (entryAt c1 (brk c)))).
    assert (Hj : (j < length (shards c1))%nat).
    { by pose proof (Inv_getShard c1 (Key (entryAt c1 (brk c))) HI1)
        as (_ & _ & ?)%getShard_Ok. }
    assert (Hslot1 : ∀ k, slot c1 k = slot c k).
    { intros k. apply slot_same_shards; [apply Hcfg1|done]. }
    assert (Hhash1 : ∀ k, hashIndex c1 k = hashIndex c k).
    { intros k. unfold hashIndex. by destruct Hcfg1 as (_&_&->&_). }
    assert (Hmiss : table (shardOf c1 j) !! Key (entryAt c1 (brk c)) = None).
    { pose proof (Hfresh e (list_elem_of_here _ _)) as Hs.
      rewrite <-Hslot1 in Hs. unfold slot, lruShard_get in Hs.
      subst j. by rewrite He1. }
    unfold lruShard_putIfAbsent. rewrite Hmiss.
    assert (HI2 : Inv (lruShard_add c1 j (brk c)))
      by (by apply Inv_lruShard_add).
    destruct (IH (lruShard_add c1 j (brk c)) route HI2)
      as (c' & HL & HI' & Hcfg & Hcont).
    + intros k. by rewrite Hroute, <-Hhash1.
    + done.
    + intros e' He'. rewrite slot_lruShard_add by done. rewrite He1.
      rewrite decide_False.
      * rewrite Hslot1. apply Hfresh. by right.
      * intros HK. apply Hne. rewrite HK. by apply list_elem_of_fmap_2.
    + exists c'. split; [done|]. split; [done|]. split.
      { eapply same_config_trans; [exact Hcfg1|].
        eapply same_config_trans; [apply same_config_setShard|exact Hcfg]. }
      intros i Hi. rewrite Hcont by (simpl; by rewrite length_insert, Hsh1).
      rewrite content_lruShard_add by done.
      rewrite Hcont1 by done. rewrite He1.
      change (rev_append ?l []) with (reverse l).
      assert (Hje : route (Key e) = j).
      { rewrite Hroute, <-Hhash1. subst j. by rewrite He1. }
      destruct (decide (i = j)) as [->|Hij].
      * rewrite decide_True by done.
        by rewrite reverse_cons, <-app_assoc.
      * rewrite decide_False by congruence. done.
Qed.

Lemma filter_fmap_all {A B} (f : A → B) (P : B → Prop)
    `{!∀ x, Decision (P x)} (l : list A) :
  (∀ x, x ∈ l → P (f x)) → filter P (f <$> l) = f <$> l.
Proof.
  induction l as [|x l IH]; intros HP; [done|].
  rewrite fmap_cons, filter_cons, decide_True by (apply HP; by left).
  rewrite IH; [done|]. intros y Hy. apply HP. by right.
Qed.

Lemma filter_fmap_none {A B} (f : A → B) (P : B → Prop)
    `{!∀ x, Decision (P x)} (l : list A) :
  (∀ x, x ∈ l → ¬ P (f x)) → filter P (f <$> l) = [].
Proof.
  induction l as [|x l IH]; intros HP; [done|].
  rewrite fmap_cons, filter_cons, decide_False by (apply HP; by left).
  apply IH. intros y Hy. apply HP. by right.
Qed.

(** Of the entries [Iter] sends, those routed to shard [i] are the entries
    of shard [i], from the back of its list to the front. *)
Lemma Iter_filter_route c i :
  Inv c → (i < length (shards c))%nat →
  filter (λ e, hashIndex c (Key e) = i)
         (entryAt c <$> mjoin ((λ s, reverse (lst s)) <$> shards c))
  = reverse (content c i).
Proof.
  intros HI Hi.
  assert (Hother : ∀ ss : list lruShard,
            (∀ s, s ∈ ss → ∃ j, j ≠ i ∧ shards c !! j = Some s) →
            filter (λ e, hashIndex c (Key e) = i)
                   (entryAt c <$> mjoin ((λ s, reverse (lst s)) <$> ss)) = []).
  { intros ss Hss. apply filter_fmap_none.
    intros p (l & Hp & Hl)%list_elem_of_join.
    apply list_elem_of_fmap in Hl as (s & -> & Hs).
    destruct (Hss s Hs) as (j & Hji & Hj).
    rewrite elem_of_reverse in Hp.
    rewrite (lst_route _ _ _ (Inv_shard _ HI _ _ Hj) p Hp). done. }
  rewrite <-(take_drop_middle (shards c) i (shardOf c i))
    by (by apply lookup_shardOf).
  rewrite fmap_app, join_app, fmap_app, filter_app, fmap_cons.
  change (mjoin (?a :: ?l)) with (a ++ mjoin l).
  rewrite fmap_app, filter_app.
  rewrite !Hother.
  - rewrite app_nil_l, app_nil_r. unfold content. rewrite <-fmap_reverse.
    apply filter_fmap_all. intros p Hp. rewrite elem_of_reverse in Hp.
    apply (lst_route _ _ _ (Inv_shardOf c i HI Hi) p Hp).
  - intros s (n & Hn)%list_elem_of_lookup. rewrite lookup_drop in Hn.
    exists (S i + n)%nat. split; [lia|done].
  - intros s (n & Hn)%list_elem_of_lookup.
    apply lookup_take_Some in Hn as [Hn Hlt]. exists n. split; [lia|done].
Qed.

Lemma content_slot c i e :
  Inv c → (i < length (shards c))%nat → e ∈ content c i →
  i = hashIndex c (Key e) ∧ ∃ p, slot c (Key e) = Some p ∧ entryAt c p = e.
Proof.
  intros HI Hi (q & -> & Hq)%list_elem_of_fmap.
  destruct (listed_slot c i q HI Hi Hq) as [Hr Hs]. split; [done|].
  by exists q.
Qed.

Lemma NewLRU_shardOf entrySize nshards ttl c i :
  NewLRU entrySize nshards ttl = Ok c → shardOf c i = newShard.
Proof.
  intros (_ & _ & Hsh & _)%NewLRU_Ok_inv. unfold shardOf.
  rewrite list_lookup_total_alt, Hsh.
  destruct (replicate _ _ !! i) as [s|] eqn:Hs; [|done].
  by apply lookup_replicate in Hs as [-> _].
Qed.

Lemma length_join_lookup {A B} (ls : list (list A)) : ∀ ls' : list (list B),
  length ls = length ls' →
  (∀ i l l', ls !! i = Some l → ls' !! i = Some l' → length l = length l') →
  length (mjoin ls) = length (mjoin ls').
Proof.
  induction ls as [|l ls IH]; intros [|l' ls'] Hlen Hall; try done.
  change (mjoin (?a :: ?l)) with (a ++ mjoin l). rewrite !length_app.
  rewrite (Hall 0%nat l l' eq_refl eq_refl). f_equal.
  apply IH; [by injection Hlen|]. intros i. apply (Hall (S i)).
Qed.

(** X13.  A snapshot written by [Save] and read back by [NewWithReader]:
    when every entry of a well-formed cache can be encoded, [Save] returns
    nil, and [NewWithReader] with any capacity and default TTL whose shard
    count comes out as that of the saved cache returns nil with a
    well-formed cache in which every shard lists entries equal to those of
    the saved shard, in the same order from the most to the least recently
    used, whatever capacity was asked for.  So the index binds the same
    keys to equal entries and [Len] is the same. *)
Theorem Save_then_NewWithReader_restores
    (encodes : Entry → bool) c entrySize nshards ttl :
  Inv c →
  (∀ p, p ∈ stored c → encodes (entryAt c p) = true) →
  (if decide (entrySize < 128) then 1 else nshards) = shardSize c →
  ∃ w c',
    Save encodes c = Ok (Some w)
    ∧ NewWithReader entrySize nshards ttl w = Ok (c', false)
    ∧ Inv c' ∧ TTL c' = ttl ∧ shardSize c' = shardSize c
    ∧ (∀ i, content c' i = content c i)
    ∧ (∀ k, match slot c k with
            | Some p => ∃ p', slot c' k = Some p' ∧ entryAt c' p' = entryAt c p
            | None => slot c' k = None
            end)
    ∧ Len c' = Len c.
Proof.
  intros HI Henc Hn. pose proof HI as [Hsz Hlen _ _ _].
  set (sent := mjoin ((λ s, reverse (lst s)) <$> shards c)).
  set (es := entryAt c <$> sent).
  assert (HN : @NewLRU V entrySize nshards ttl
               = NewLRU entrySize (shardSize c) ttl).
  { unfold NewLRU. case_decide; [done|]. by rewrite Hn. }
  destruct (@NewLRU V entrySize nshards ttl) as [c0|err] eqn:HN0; cycle 1.
  { exfalso. unfold NewLRU in HN0. cbv zeta in HN0. rewrite Hn in HN0.
    repeat case_decide; try done; lia. }
  assert (HI0 : Inv c0).
  { apply (Inv_NewLRU entrySize (shardSize c) ttl); [lia|done]. }
  pose proof (NewLRU_Ok_inv _ _ _ _ HN0) as (_ & Hsz0 & _ & _ & Httl0 & _).
  rewrite Hn in Hsz0.
  assert (Hlen0 : length (shards c0) = length (shards c)).
  { by rewrite (Inv_length _ HI0), Hsz0. }
  assert (Hhash0 : ∀ k, hashIndex c k = hashIndex c0 k).
  { intros k. unfold hashIndex. by rewrite Hsz0. }
  assert (Hempty0 : ∀ i, shardOf c0 i = newShard).
  { intros i. by apply (NewLRU_shardOf entrySize nshards ttl). }
  destruct (Load_fresh_records es c0 (hashIndex c) HI0 Hhash0)
    as (c' & HL & HI' & Hcfg & Hcont).
  { subst es. rewrite <-list_fmap_compose. by apply Iter_keys_NoDup. }
  { intros e _. unfold slot, lruShard_get. by rewrite Hempty0. }
  assert (Hsz' : shardSize c' = shardSize c).
  { destruct Hcfg as (_&_&->&_). done. }
  assert (Hlen' : length (shards c') = length (shards c)).
  { destruct Hcfg as (_&_&_&_&->). done. }
  assert (Hcontent : ∀ i, content c' i = content c i).
  { intros i. destruct (decide (i < length (shards c))%nat) as [Hi|Hi].
    - rewrite Hcont by lia. subst es sent.
      rewrite (Iter_filter_route c i HI Hi), reverse_involutive.
      unfold content at 2. by rewrite Hempty0, app_nil_r.
    - by rewrite !content_out_of_range by lia. }
  assert (Hhash' : ∀ k, hashIndex c' k = hashIndex c k).
  { intros k. unfold hashIndex. by rewrite Hsz'. }
  exists (Record_ <$> es), c'. split; [|split; [|split; [|split; [|split;
    [|split; [|split]]]]]].
  - unfold Save. rewrite (Inv_Iter c HI). cbn.
    rewrite Save_loop_spec; [done|].
    intros p Hp. apply Henc. by rewrite <-(Iter_stored c).
  - unfold NewWithReader. by rewrite HN0.
  - done.
  - destruct Hcfg as (->&_). done.
  - done.
  - done.
  - intros k. pose proof (slot_content c k HI) as Hk.
    pose proof (slot_content c' k HI') as Hk'.
    pose proof (Inv_getShard c k HI) as (_ & _ & Hlt)%getShard_Ok.
    rewrite Hhash', Hcontent in Hk'.
    destruct (slot c k) as [p|].
    + destruct Hk as [Hin HK].
      rewrite <-Hcontent in Hin.
      assert (Hlt' : (hashIndex c k < length (shards c'))%nat) by lia.
      destruct (content_slot c' _ _ HI' Hlt' Hin) as (_ & p' & Hp' & He).
      exists p'. by rewrite <-HK.
    + destruct (slot c' k) as [p'|]; [|done].
      destruct Hk' as [Hin HK]. by destruct (Hk _ Hin).
  - rewrite (Inv_Len c HI), (Inv_Len c' HI'). do 2 f_equal.
    unfold stored. apply length_join_lookup; [by rewrite !length_fmap|].
    intros i l l' (s' & -> & Hs')%list_lookup_fmap_Some
                  (s & -> & Hs)%list_lookup_fmap_Some.
    pose proof (Hcontent i) as Hc. unfold content in Hc.
    rewrite (shardOf_lookup _ _ _ Hs), (shardOf_lookup _ _ _ Hs') in Hc.
    apply (f_equal length) in Hc. by rewrite !length_fmap in Hc.
Qed.

(** ** Writes to a key that is in the index *)

(** X14.  [SetWithTTL] of a key whose entry passes the expiration check
    writes through the entry that is there: the key stays bound to the same
    entry object, which now holds the new value and the deadline of this
    write, so a pointer handed out earlier by [GetEntry] sees the write; the
    entry is moved to the front of the list of its shard, no hook is
    called, [Len] is as before and every other key is bound as before to an
    entry that is as before. *)
Theorem Set_writes_through_the_entry c k v ttl now p :
  Inv c → slot c k = Some p → live c p now →
  ∃ c',
    SetWithTTL c k v ttl now = Ok c'
    ∧ Inv c'
    ∧ slot c' k = Some p
    ∧ entryAt c' p = mkEntry k v (genExp now ttl).2
    ∧ lst (shardOf c' (hashIndex c k))
      = p :: List_.Remove p (lst (shardOf c (hashIndex c k)))
    ∧ fired c' = fired c
    ∧ Len c' = Len c
    ∧ ∀ k', k' ≠ k →
        slot c' k' = slot c k'
        ∧ ∀ q, slot c k' = Some q → entryAt c' q = entryAt c q.
Proof.
  intros HI Hp Hlive. pose proof (Inv_getShard c k HI) as Hgs.
  pose proof Hgs as (_ & _ & Hlt)%getShard_Ok.
  destruct (slot_listed c k p HI Hp) as [Hel HK].
  set (i := hashIndex c k) in *.
  pose proof (SetWithTTL_hit c k v ttl i p now Hgs Hp Hlive) as HS.
  set (exp := (genExp now ttl).2) in *.
  set (c' := poke p (setValue v) (looked_up c i p exp)) in *.
  destruct (Inv_SetWithTTL c k v ttl now c' HI HS) as [HI' _].
  assert (Hsh : shards c'
                = <[i := mkShard (List_.MoveToFront p (lst (shardOf c i)))
                                 (table (shardOf c i))]> (shards c)) by done.
  assert (Hslot : ∀ k', slot c' k' = slot c k').
  { intros k'. unfold slot, lruShard_get, shardOf.
    change (hashIndex c' k') with (hashIndex c k'). rewrite Hsh.
    destruct (decide (i = hashIndex c k')) as [<-|Hne].
    - by rewrite list_lookup_total_insert_eq.
    - by rewrite list_lookup_total_insert_ne. }
  exists c'. split; [done|]. split; [done|]. split; [by rewrite Hslot|].
  split; [|split; [|split; [done|split]]].
  - subst c'. rewrite entryAt_poke. unfold looked_up.
    change (entryAt (lruShard_offer ?x i p) p) with (entryAt x p).
    rewrite entryAt_poke. unfold setValue, setExpiration. simpl.
    by rewrite HK.
  - unfold shardOf. rewrite Hsh, list_lookup_total_insert_eq by done. simpl.
    unfold List_.MoveToFront. by rewrite decide_True.
  - rewrite (Inv_Len c HI), (Inv_Len _ HI'). unfold stored. rewrite Hsh.
    pose proof (length_join_insert (shards c) i (shardOf c i)
                  (mkShard (List_.MoveToFront p (lst (shardOf c i)))
                           (table (shardOf c i)))
                  (lookup_shardOf c i Hlt)) as Hlen.
    simpl in Hlen. rewrite MoveToFront_length in Hlen. do 2 f_equal. lia.
  - intros k' Hne. split; [apply Hslot|]. intros q Hq.
    assert (Hqp : p ≠ q).
    { intros ->. destruct (slot_listed c k' q HI Hq) as [_ HK']. congruence. }
    subst c'. rewrite entryAt_poke_ne by done. unfold looked_up.
    change (entryAt (lruShard_offer ?x i p) q) with (entryAt x q).
    by rewrite entryAt_poke_ne.
Qed.

(** X15.  [SetWithTTL] of a key whose entry has passed its deadline, in a
    well-formed cache with a default TTL, within the per-shard bound: the
    old entry is taken out and handed to the removal hook, if one is set,
    and nothing else is; the key is then bound to an entry with the new
    value and the deadline of this write, and [Len] is as before. *)
Theorem Set_over_expired_key c k v ttl now p d :
  Inv c → bounded c → TTL c ≠ NoExpiration →
  slot c k = Some p → Expiration (entryAt c p) = Some d → d < now →
  ∃ c' p',
    SetWithTTL c k v ttl now = Ok c'
    ∧ Inv c'
    ∧ slot c' k = Some p'
    ∧ entryAt c' p' = mkEntry k v (genExp now ttl).2
    ∧ fired c' = fired c ++ hookCalls c [entryAt c p]
    ∧ Len c' = Len c.
Proof.
  intros HI Hb Httl Hp Hd Hlate. pose proof (Inv_getShard c k HI) as Hgs.
  pose proof Hgs as (_ & _ & Hlt)%getShard_Ok.
  destruct (slot_listed c k p HI Hp) as [Hel HK].
  set (i := hashIndex c k) in *.
  set (exp := (genExp now ttl).2).
  pose proof (Inv_remove c i p HI Hlt Hel) as HI1.
  set (c1 := remove c i p) in *.
  assert (Hlt1 : (i < length (shards c1))%nat).
  { subst c1. rewrite shards_remove, length_insert. done. }
  assert (Hi1 : hashIndex c1 k = i).
  { destruct (same_config_remove c i p) as (_&_&Hss&_).
    unfold hashIndex. fold c1 in Hss. by rewrite Hss. }
  assert (Hgone : table (shardOf c1 i) !! k = None).
  { pose proof (slot_remove c i p k) as Hs.
    rewrite decide_True, HK, lookup_delete_eq in Hs by done.
    unfold slot, lruShard_get in Hs. fold c1 in Hs. by rewrite Hi1 in Hs. }
  destruct (inserted c1 i k v ttl exp) as [c2 p'] eqn:Hins.
  assert (Hexp : ttl = NoExpiration → exp = None).
  { intros ->. apply genExp_NoExpiration. }
  destruct (inserted_spec c1 i k v ttl exp c2 p' HI1 Hlt1 Hi1 Hgone Hexp Hins)
    as (HI2 & Hcfg2 & Hf2 & Hsh2 & He2 & _ & _).
  assert (Hl1 : S (length (lst (shardOf c1 i))) = length (lst (shardOf c i))).
  { subst c1. unfold shardOf at 1. rewrite shards_remove.
    rewrite list_lookup_total_insert_eq by done. simpl.
    by apply Remove_length. }
  assert (Hl2 : lst (shardOf c2 i) = p' :: lst (shardOf c1 i)).
  { unfold shardOf at 1. rewrite Hsh2.
    by rewrite list_lookup_total_insert_eq. }
  assert (Heps : eps c2 = eps c).
  { destruct Hcfg2 as (_&_&_&->&_).
    by destruct (same_config_remove c i p) as (_&_&_&?&_). }
  assert (Henf : enforce c2 i = Ok c2).
  { apply enforce_under. unfold lruShard_len, List_.Len. rewrite Hl2, Heps.
    pose proof (Hb i _ (lookup_shardOf c i Hlt)) as Hbi.
    unfold List_.Len in Hbi. simpl. lia. }
  assert (HS : SetWithTTL c k v ttl now = Ok c2).
  { rewrite SetWithTTL_unfold, Hgs. cbn.
    rewrite (getEntry_expired c i k p d now _ Httl Hp Hd Hlate). cbn.
    fold c1 exp. by rewrite Hins. }
  exists c2, p'. split; [done|]. split; [done|]. split; [|split; [done|split]].
  - unfold slot, lruShard_get, shardOf.
    replace (hashIndex c2 k) with i
      by (unfold hashIndex, i; by destruct Hcfg2 as (_&_&->&_)).
    rewrite Hsh2, list_lookup_total_insert_eq by done. simpl.
    apply lookup_insert_eq.
  - rewrite Hf2. apply fired_remove.
  - rewrite (Inv_Len c HI), (Inv_Len _ HI2). unfold stored. rewrite Hsh2.
    pose proof (length_join_insert (shards c1) i (shardOf c1 i)
                  (mkShard (p' :: lst (shardOf c1 i))
                           (<[k := p']> (table (shardOf c1 i))))
                  (lookup_shardOf c1 i Hlt1)) as Hlen2.
    cbn [lst length] in Hlen2.
    assert (Hsh1 : shards c1
              = <[i := mkShard (List_.Remove p (lst (shardOf c i)))
                        (delete (Key (entryAt c p)) (table (shardOf c i)))]>
                  (shards c)) by apply shards_remove.
    pose proof (length_join_insert (shards c) i (shardOf c i)
                  (mkShard (List_.Remove p (lst (shardOf c i)))
                       (delete (Key (entryAt c p)) (table (shardOf c i))))
                  (lookup_shardOf c i Hlt)) as Hlen1.
    simpl in Hlen1. rewrite <-Hsh1 in Hlen1.
    pose proof (Remove_length p _ Hel) as Hrem.
    do 2 f_equal. lia.
Qed.

End Further.

(** ** Instances of the further properties *)

Lemma cacheAB_Inv : Inv cacheAB.
Proof.
  apply (Inv_SetWithTTL cacheA2 "b" (Some 2) 0 20); [|vm_compute; reflexivity].
  apply (Inv_SetWithTTL empty2 "a" (Some 1) 0 10); [|vm_compute; reflexivity].
  apply empty2_Inv.
Qed.

Lemma cacheAB_bounded : bounded cacheAB.
Proof.
  intros [|i] s Hs; [|by destruct i].
  injection Hs as <-. unfold List_.Len. simpl. lia.
Qed.

Lemma cacheT_bounded : bounded cacheT.
Proof.
  intros [|i] s Hs; [|by destruct i].
  injection Hs as <-. unfold List_.Len. simpl. lia.
Qed.

Lemma NewLRU_rounds_capacity_up_witness :
  ∃ c : @LRU Z, NewLRU 1000 64 0 = Ok c ∧ shardSize c = 64 ∧ eps c = 16
                ∧ Len c = Ok 0.
Proof.
  destruct (NewLRU_rounds_capacity_up (V:=Z) 1000 64 0)
    as (c & HN & _ & Hsz & Heps & _ & HL & _); [lia|lia|].
  rewrite decide_False in Hsz by lia. rewrite Hsz in Heps.
  exists c. split; [exact HN|]. split; [exact Hsz|]. split; [lia|exact HL].
Defined.

Lemma Len_within_capacity_witness :
  ∃ c n, execs (withOnRemove None (empty1 0))
               [CallSet "a" (Some 1) 1; CallUpdate "a" Inc 2;
                CallSet "b" (Some 2) 3] = Ok c
         ∧ Len c = Ok n ∧ 0 ≤ n ≤ 1.
Proof.
  set (os := [CallSet "a" (Some 1) 1; CallUpdate "a" Inc 2;
              CallSet "b" (Some 2) 3]).
  set (c := orElse (execs (withOnRemove None (empty1 0)) os) (empty1 0)).
  assert (Hex : execs (withOnRemove None (empty1 0)) os = Ok c)
    by (vm_compute; reflexivity).
  assert (Hos : Forall keepsKey os).
  { apply Forall_cons. split; [exact I|].
    apply Forall_cons. split; [intros e; reflexivity|].
    apply Forall_cons. split; [exact I|]. apply Forall_nil_2. }
  destruct (Len_within_capacity 1 1 0 None os (empty1 0) c)
    as (_ & n & HL & Hn & _); [lia|lia|reflexivity|exact Hos|exact Hex|].
  exists c, n. split; [exact Hex|]. split; [exact HL|exact Hn].
Defined.

Lemma index_agrees_with_list_witness :
  ∃ c s, execs (withOnRemove None (empty1 0))
               [CallSet "a" (Some 1) 1; CallUpdate "a" Inc 2;
                CallSet "b" (Some 2) 3] = Ok c
         ∧ shards c !! 0%nat = Some s
         ∧ NoDup (lst s) ∧ size (table s) = length (lst s).
Proof.
  set (os := [CallSet "a" (Some 1) 1; CallUpdate "a" Inc 2;
              CallSet "b" (Some 2) 3]).
  set (c := orElse (execs (withOnRemove None (empty1 0)) os) (empty1 0)).
  assert (Hex : execs (withOnRemove None (empty1 0)) os = Ok c)
    by (vm_compute; reflexivity).
  assert (Hos : Forall keepsKey os).
  { apply Forall_cons. split; [exact I|].
    apply Forall_cons. split; [intros e; reflexivity|].
    apply Forall_cons. split; [exact I|]. apply Forall_nil_2. }
  assert (Hs : shards c !! 0%nat = Some (shardOf c 0%nat))
    by (vm_compute; reflexivity).
  destruct (index_agrees_with_list 1 1 0 None os (empty1 0) c 0%nat
              (shardOf c 0%nat)) as (Hnd & Hsz & _);
    [lia|reflexivity|exact Hos|exact Hex|exact Hs|].
  exists c, (shardOf c 0%nat). split; [exact Hex|]. split; [exact Hs|].
  split; [exact Hnd|exact Hsz].
Defined.

Lemma Remove_takes_one_key_out_witness :
  ∃ c' n, Remove cacheA "a" = Ok c'
          ∧ fired c' = [mkEntry "a" (Some 1) None]
          ∧ Len cacheA = Ok (n + 1) ∧ Len c' = Ok n
          ∧ Get c' "a" 30 = Ok (c', (None, false)).
Proof.
  destruct (Remove_takes_one_key_out cacheA "a" cacheA_Inv) as [Hin _].
  destruct (Hin 0%nat eq_refl)
    as (c' & HR & _ & Hget & Hf & (n & Hn1 & Hn0) & _).
  exists c', n. split; [exact HR|]. split; [exact Hf|].
  split; [exact Hn1|]. split; [exact Hn0|exact (Hget 30)].
Defined.

Lemma Get_within_and_after_TTL_witness :
  ∃ c1 c2 c3,
    SetWithTTL (empty1 50) "k" (Some 1) 100 0 = Ok c1
    ∧ Get c1 "k" 100 = Ok (c2, (Some 1, true))
    ∧ Get c1 "k" 101 = Ok (c3, (None, false)).
Proof.
  set (c1 := orElse (SetWithTTL (empty1 50) "k" (Some 1) 100 0) (empty1 50)).
  assert (HS : SetWithTTL (empty1 50) "k" (Some 1) 100 0 = Ok c1)
    by (vm_compute; reflexivity).
  assert (Httl : TTL (empty1 50) ≠ NoExpiration) by (intros [=]).
  assert (Heps : 1 ≤ eps (empty1 50)) by (simpl; lia).
  assert (Hown : (100 : Z) ≠ NoExpiration) by (intros [=]).
  destruct (Get_within_and_after_TTL (empty1 50) "k" (Some 1) 100 0 100 c1
              (empty1_Inv 50) Httl Heps Hown HS) as [Hin _].
  destruct (Get_within_and_after_TTL (empty1 50) "k" (Some 1) 100 0 101 c1
              (empty1_Inv 50) Httl Heps Hown HS) as [_ Hout].
  destruct Hin as (c2 & p & HG2 & _); [lia|].
  destruct Hout as (c3 & HG3 & _); [lia|].
  exists c1, c2, c3. split; [exact HS|]. split; [exact HG2|exact HG3].
Defined.

Lemma Get_after_Update_witness :
  ∃ c1 c2, Update cacheA "a" Inc 20 = Ok (c1, Some 0%nat)
           ∧ Get c1 "a" 30 = Ok (c2, (Some 2, true)).
Proof.
  destruct (Get_after_Update cacheA "a" Inc 0%nat 0%nat 20 30)
    as (c1 & c2 & HU & _ & HG);
    [reflexivity|reflexivity|by left|by left|].
  exists c1, c2. split; [exact HU|exact HG].
Defined.

Lemma Flush_leaves_nothing_witness :
  ∃ c', Flush cacheA = Ok c' ∧ stored c' = []
        ∧ Get c' "a" 30 = Ok (c', (None, false)) ∧ Flush c' = Ok c'.
Proof.
  destruct (Flush_leaves_nothing cacheA cacheA_Inv)
    as (c' & HF & _ & Hst & Hget & HF').
  exists c'. split; [exact HF|]. split; [exact Hst|].
  split; [exact (Hget "a" 30)|exact HF'].
Defined.

Lemma write_evicts_only_the_oldest_witness :
  ∃ c', SetWithTTL cacheAB "c" (Some 3) 0 30 = Ok c'
        ∧ slot c' "b" = Some 1%nat
        ∧ entryAt c' 1%nat = mkEntry "b" (Some 2) None.
Proof.
  set (c' := orElse (SetWithTTL cacheAB "c" (Some 3) 0 30) cacheAB).
  assert (HS : SetWithTTL cacheAB "c" (Some 3) 0 30 = Ok c')
    by (vm_compute; reflexivity).
  assert (Hne : ("c" : string) ≠ "b") by (intros [=]).
  assert (Hback : List_.Back (lst (shardOf cacheAB (hashIndex cacheAB "b")))
                  ≠ Some 1%nat) by (vm_compute; intros [=]).
  destruct (write_evicts_only_the_oldest cacheAB "b" 1%nat "c" (Some 3) 0 30 c'
              cacheAB_Inv cacheAB_bounded Hne eq_refl (or_introl Hback) HS)
    as [Hs He].
  exists c'. split; [exact HS|]. split; [exact Hs|exact He].
Defined.

Lemma last_used_key_survives_next_write_witness :
  ∃ c1 c2 p, Get cacheAB "a" 30 = Ok (c1, (Some 1, true))
             ∧ SetWithTTL c1 "c" (Some 3) 0 40 = Ok c2
             ∧ slot c2 "a" = Some p
             ∧ Value (entryAt c2 p) = Some 1.
Proof.
  set (c1 := (orElse (Get cacheAB "a" 30) (cacheAB, (None, false))).1).
  set (c2 := orElse (SetWithTTL c1 "c" (Some 3) 0 40) c1).
  assert (HG : Get cacheAB "a" 30 = Ok (c1, (Some 1, true)))
    by (vm_compute; reflexivity).
  assert (HS : SetWithTTL c1 "c" (Some 3) 0 40 = Ok c2)
    by (vm_compute; reflexivity).
  assert (Hne : ("c" : string) ≠ "a") by (intros [=]).
  assert (Heps : 2 ≤ eps cacheAB) by (simpl; lia).
  destruct (last_used_key_survives_next_write cacheAB "a" "c" (Some 3) 0 40
              cacheAB_Inv cacheAB_bounded Heps Hne) as [Hread _].
  destruct (Hread 30 c1 (Some 1) c2 HG HS) as (p & _ & Hs & _ & Hv).
  exists c1, c2, p. split; [exact HG|]. split; [exact HS|].
  split; [exact Hs|exact Hv].
Defined.

Lemma Load_inserts_first_record_witness :
  ∃ c' err p,
    Load cacheA [Record_ (mkEntry "b" (Some 2) None);
                 Record_ (mkEntry "b" (Some 3) None)] = Ok (c', err)
    ∧ err = false
    ∧ slot c' "b" = Some p
    ∧ entryAt c' p = mkEntry "b" (Some 2) None.
Proof.
  destruct (Load_inserts_first_record
              [Record_ (mkEntry "b" (Some 2) None);
               Record_ (mkEntry "b" (Some 3) None)]
              cacheA "b" cacheA_Inv eq_refl)
    as (c' & err & HL & _ & Herr & Hfirst).
  change (∃ p, slot c' "b" = Some p
               ∧ entryAt c' p = mkEntry "b" (Some 2) None) in Hfirst.
  destruct Hfirst as (p & Hs & He).
  exists c', err, p. split; [exact HL|]. split; [|split; [exact Hs|exact He]].
  destruct err; [|reflexivity]. exfalso.
  destruct Herr as [Herr _]. specialize (Herr eq_refl).
  apply elem_of_cons in Herr as [[=]|Herr].
  apply elem_of_cons in Herr as [[=]|Herr].
  by apply elem_of_nil in Herr.
Defined.

Lemma Iter_sends_each_entry_once_witness :
  Iter cacheAB = Ok [0%nat; 1%nat] ∧ Len cacheAB = Ok 2.
Proof.
  destruct (Iter_sends_each_entry_once cacheAB cacheAB_Inv)
    as (sent & HI & Hs & _ & _ & _ & HL).
  subst sent. split; [exact HI|exact HL].
Defined.

Lemma Keys_lists_each_key_once_witness :
  ∃ out, Keys cacheAB out ∧ NoDup out ∧ "a" ∈ out ∧ "b" ∈ out
         ∧ Len cacheAB = Ok (Z.of_nat (length out)).
Proof.
  destruct (Keys_lists_each_key_once cacheAB cacheAB_Inv) as [[out Hout] Hall].
  destruct (Hall out Hout) as (Hnd & Hmem & HL).
  exists out. split; [exact Hout|]. split; [exact Hnd|].
  split; [|split; [|exact HL]].
  - apply Hmem. exists 0%nat. reflexivity.
  - apply Hmem. exists 1%nat. reflexivity.
Defined.

Lemma Save_then_NewWithReader_restores_witness :
  ∃ w c',
    Save (λ _, true) cacheAB = Ok (Some w)
    ∧ NewWithReader 1 1 0 w = Ok (c', false)
    ∧ content c' 0
      = [mkEntry "b" (Some 2) None; mkEntry "a" (Some 1) None].
Proof.
  destruct (Save_then_NewWithReader_restores (λ _, true) cacheAB 1 1 0
              cacheAB_Inv (λ _ _, eq_refl) eq_refl)
    as (w & c' & HS & HN & _ & _ & _ & Hc & _).
  exists w, c'. split; [exact HS|]. split; [exact HN|exact (Hc 0%nat)].
Defined.

Lemma Set_writes_through_the_entry_witness :
  ∃ c', SetWithTTL cacheA "a" (Some 5) 0 20 = Ok c'
        ∧ slot c' "a" = Some 0%nat
        ∧ entryAt c' 0%nat = mkEntry "a" (Some 5) None
        ∧ fired c' = [].
Proof.
  destruct (Set_writes_through_the_entry cacheA "a" (Some 5) 0 20 0%nat
              cacheA_Inv eq_refl (or_introl eq_refl))
    as (c' & HS & _ & Hs & He & _ & Hf & _).
  exists c'. split; [exact HS|]. split; [exact Hs|].
  split; [exact He|exact Hf].
Defined.

Lemma Set_over_expired_key_witness :
  ∃ c' p', SetWithTTL cacheT "key" (Some 2) 100 150 = Ok c'
           ∧ slot c' "key" = Some p'
           ∧ entryAt c' p' = mkEntry "key" (Some 2) (Some 250)
           ∧ Len c' = Ok 1.
Proof.
  assert (Httl : TTL cacheT ≠ NoExpiration) by (intros [=]).
  destruct (Set_over_expired_key cacheT "key" (Some 2) 100 150 0%nat 100
              cacheT_Inv cacheT_bounded Httl eq_refl eq_refl)
    as (c' & p' & HS & _ & Hs & He & _ & HL); [lia|].
  exists c', p'. split; [exact HS|]. split; [exact Hs|].
  split; [exact He|exact HL].
Defined.
